(** * vidsub: the subtitle pipeline of [backend/app/core/video_service.py]
    and the language utilities of [backend/app/utils/language_utils.py],
    embedded as Rocq functions, with the properties stated about them. *)

From Stdlib Require Import ZArith List String Ascii Bool Lia.
From Stdlib Require Import PrimFloat.
From Stdlib Require FloatOps SpecFloat.
From Stdlib Require DecimalString.
From stdpp Require Import base gmap strings.

Local Open Scope string_scope.
Local Open Scope bool_scope.

(* Decimal literals such as 0.6 denote the nearest binary64 value, as in
   Python. *)
Set Warnings "-inexact-float".

(** ** Python [str] operations

    A Python [str] is a sequence of code points.  The embedding uses Rocq's
    [string], whose characters are the code points 0..255; [isspace] and
    [lower_char] are Python's [str.isspace] and [str.lower] on that range. *)
Module PyStr.

Definition isspace (c : ascii) : bool :=
  let n := N_of_ascii c in
  ((9 <=? n) && (n <=? 13) || (28 <=? n) && (n <=? 32)
   || (n =? 133) || (n =? 160))%N.

Definition lower_char (c : ascii) : ascii :=
  let n := N_of_ascii c in
  if ((65 <=? n) && (n <=? 90)
      || (192 <=? n) && (n <=? 222) && negb (n =? 215))%N
  then ascii_of_N (n + 32)
  else c.

(** [s.lower()] *)
Fixpoint lower (s : string) : string :=
  match s with
  | EmptyString => EmptyString
  | String c s' => String (lower_char c) (lower s')
  end.

(** [s.lstrip()] *)
Fixpoint lstrip (s : string) : string :=
  match s with
  | EmptyString => EmptyString
  | String c s' => if isspace c then lstrip s' else s
  end.

(** [s.rstrip()] *)
Fixpoint rstrip (s : string) : string :=
  match s with
  | EmptyString => EmptyString
  | String c s' =>
      match rstrip s' with
      | EmptyString => if isspace c then EmptyString else String c EmptyString
      | r => String c r
      end
  end.

(** [s.strip()] *)
Definition strip (s : string) : string := rstrip (lstrip s).

(** [c in s] for a one-character [c] *)
Fixpoint contains (c : ascii) (s : string) : bool :=
  match s with
  | EmptyString => false
  | String d s' => Ascii.eqb c d || contains c s'
  end.

(** [s.split(c)[0]]: the part of [s] before the first [c], all of [s] when
    there is none *)
Fixpoint split_head (c : ascii) (s : string) : string :=
  match s with
  | EmptyString => EmptyString
  | String d s' => if Ascii.eqb c d then EmptyString else String d (split_head c s')
  end.

(** whether the last character of [s] is white space *)
Fixpoint ends_with_space (s : string) : bool :=
  match s with
  | EmptyString => false
  | String c EmptyString => isspace c
  | String _ s' => ends_with_space s'
  end.

(** whether the first character of [s] is white space *)
Definition starts_with_space (s : string) : bool :=
  match s with
  | EmptyString => false
  | String c _ => isspace c
  end.

(** [key in s] for a string [key] *)
Fixpoint contains_str (key s : string) : bool :=
  String.prefix key s
  || match s with
     | EmptyString => false
     | String _ s' => contains_str key s'
     end.

(** [sep.join(l)] *)
Fixpoint join (sep : string) (l : list string) : string :=
  match l with
  | [] => EmptyString
  | [x] => x
  | x :: rest => x ++ sep ++ join sep rest
  end.

End PyStr.

(** ** [language_utils.py] *)
Module LanguageUtils.
Import PyStr.

Definition LANGUAGE_NAME_MAP : list (string * string) :=
  [ ("english", "en"); ("hebrew", "he"); ("arabic", "ar"); ("chinese", "zh");
    ("japanese", "ja"); ("korean", "ko"); ("french", "fr"); ("spanish", "es");
    ("german", "de"); ("russian", "ru"); ("hindi", "hi") ].

(** [d.get(k)] on a dict given by its items *)
Fixpoint dict_get (d : list (string * string)) (k : string) : option string :=
  match d with
  | [] => None
  | (k', v) :: d' => if String.eqb k k' then Some v else dict_get d' k
  end.

(** [d.values()] *)
Definition dict_values (d : list (string * string)) : list string := map snd d.

(** [x in l] *)
Definition str_in (x : string) (l : list string) : bool :=
  existsb (String.eqb x) l.

Definition normalize_lang_code (lang : string) : string :=
  let lang := lower (strip lang) in
  if (String.length lang =? 2)%nat && str_in lang (dict_values LANGUAGE_NAME_MAP)
  then lang
  else
    let lang := if contains "-" lang then split_head "-" lang else lang in
    match dict_get LANGUAGE_NAME_MAP lang with
    | Some code => code
    | None => lang
    end.

End LanguageUtils.

(** ** Python values, exceptions and external collaborators *)
Module Py.

(** The [stderr] of an [ffmpeg.Error]: [None], or bytes, which are given
    by what [.decode('utf-8')] makes of them: a text (the empty text for
    [b'']), or a [UnicodeDecodeError], given by its [str]. *)
Inductive Stderr :=
| NoStderr
| Utf8 (text : string)
| NotUtf8 (reason : string).

Inductive ExnClass :=
| ValueError | RuntimeError | FileNotFoundError | AttributeError | IndexError
| TypeError | KeyError | ZeroDivisionError | OverflowError | UnicodeDecodeError
| FFmpegError (stderr : Stderr)   (* ffmpeg.Error and its [stderr] attribute *)
| ExternalError.   (* any other exception raised by a library or a service *)

(** An exception object; [exn_str] is [str(e)], which for an [ffmpeg.Error]
    is a fixed text that names the command, not the text of its [stderr]. *)
Record exn := Exn { exn_class : ExnClass; exn_str : string }.

Inductive res (A : Type) :=
| Ok (a : A)
| Raise (e : exn).
Arguments Ok {A} a.
Arguments Raise {A} e.

(** A value that the code takes either as one object or as a list of them
    ([isinstance(x, list)]). *)
Inductive one_or_list (A : Type) :=
| One (a : A)
| Many (l : list A).
Arguments One {A} a.
Arguments Many {A} l.

(** Truth value of a string or of an optional string. *)
Definition truthy (s : option string) : bool :=
  match s with
  | Some (String _ _) => true
  | _ => false
  end.

(** Truth value of [e.stderr]. *)
Definition has_stderr (stderr : Stderr) : bool :=
  match stderr with
  | NoStderr | Utf8 EmptyString => false
  | _ => true
  end.

(** [stderr.decode('utf-8')] *)
Definition decode_utf8 (stderr : Stderr) : res string :=
  match stderr with
  | Utf8 text => Ok text
  | NotUtf8 reason => Raise (Exn UnicodeDecodeError reason)
  | NoStderr => Raise (Exn AttributeError "'NoneType' object has no attribute 'decode'")
  end.

(** [e.stderr.decode('utf-8') if e.stderr else default] *)
Definition stderr_text (stderr : Stderr) (default : string) : res string :=
  if has_stderr stderr then decode_utf8 stderr else Ok default.

(** [isinstance(e, ffmpeg.Error)] *)
Definition is_ffmpeg_error (e : exn) : bool :=
  match exn_class e with
  | FFmpegError _ => true
  | _ => false
  end.

End Py.
Export Py.

(** ** The subtitle layout of [_calculate_subtitle_properties]

    Python's [int] is [Z] and its [float] is a binary64 number, here Rocq's
    primitive [float]; a number of the function is one or the other. *)
Module Layout.

Inductive num :=
| Int (z : Z)
| Float (f : float).

Definition res_bind {A B} (m : res A) (k : A -> res B) : res B :=
  match m with
  | Ok a => k a
  | Raise e => Raise e
  end.

Notation "x <-- m ;; k" := (res_bind m (fun x => k))
  (at level 100, m at next level, right associativity).

Definition spec_of_int (z : Z) : SpecFloat.spec_float :=
  match z with
  | Z0 => SpecFloat.S754_zero false
  | Zpos p => SpecFloat.S754_finite false p 0
  | Zneg p => SpecFloat.S754_finite true p 0
  end.

(** [float(z)], the nearest float, ties to even *)
Definition float_of_int (z : Z) : res float :=
  match SpecFloat.binary_normalize FloatOps.prec FloatOps.emax z 0 false with
  | SpecFloat.S754_infinity _ =>
      Raise (Exn OverflowError "int too large to convert to float")
  | sf => Ok (FloatOps.SF2Prim sf)
  end.

(** [a / b] on two [int]s: the float nearest to the quotient *)
Definition int_truediv (a b : Z) : res float :=
  if (b =? 0)%Z then Raise (Exn ZeroDivisionError "division by zero")
  else
    match SpecFloat.SFdiv FloatOps.prec FloatOps.emax (spec_of_int a) (spec_of_int b) with
    | SpecFloat.S754_infinity _ =>
        Raise (Exn OverflowError "integer division result too large for a float")
    | sf => Ok (FloatOps.SF2Prim sf)
    end.

(** [a / b] on two [float]s *)
Definition float_truediv (a b : float) : res float :=
  if PrimFloat.eqb b 0 then Raise (Exn ZeroDivisionError "float division by zero")
  else Ok (a / b)%float.

Definition to_float (x : num) : res float :=
  match x with
  | Int z => float_of_int z
  | Float f => Ok f
  end.

(** [x * c] for a float [c] *)
Definition times (x : num) (c : float) : res float :=
  f <-- to_float x ;; Ok (f * c)%float.

(** [x + y] *)
Definition plus (x y : num) : res num :=
  match x, y with
  | Int a, Int b => Ok (Int (a + b))
  | _, _ => a <-- to_float x ;; b <-- to_float y ;; Ok (Float (a + b)%float)
  end.

(** [int(x)]: the float cut off towards zero *)
Definition int_of_float (f : float) : res Z :=
  match FloatOps.Prim2SF f with
  | SpecFloat.S754_zero _ => Ok 0%Z
  | SpecFloat.S754_finite s m e =>
      let magnitude := Z.shiftl (Zpos m) e in
      Ok (if s then (- magnitude)%Z else magnitude)
  | SpecFloat.S754_infinity _ =>
      Raise (Exn OverflowError "cannot convert float infinity to integer")
  | SpecFloat.S754_nan => Raise (Exn ValueError "cannot convert float NaN to integer")
  end.

Definition py_int (x : num) : res Z :=
  match x with
  | Int z => Ok z
  | Float f => int_of_float f
  end.

(** [z < f] and [f < z] between an [int] and a [float], on the exact values *)
Definition int_lt_float (z : Z) (f : float) : bool :=
  match FloatOps.Prim2SF f with
  | SpecFloat.S754_nan => false
  | SpecFloat.S754_infinity s => negb s
  | SpecFloat.S754_zero _ => (z <? 0)%Z
  | SpecFloat.S754_finite s m e =>
      let v := if s then Zneg m else Zpos m in
      if (0 <=? e)%Z then (z <? Z.shiftl v e)%Z else (Z.shiftl z (- e) <? v)%Z
  end.

Definition float_lt_int (f : float) (z : Z) : bool :=
  match FloatOps.Prim2SF f with
  | SpecFloat.S754_nan => false
  | SpecFloat.S754_infinity s => s
  | SpecFloat.S754_zero _ => (0 <? z)%Z
  | SpecFloat.S754_finite s m e =>
      let v := if s then Zneg m else Zpos m in
      if (0 <=? e)%Z then (Z.shiftl v e <? z)%Z else (v <? Z.shiftl z (- e))%Z
  end.

(** [x < y] *)
Definition lt (x y : num) : bool :=
  match x, y with
  | Int a, Int b => (a <? b)%Z
  | Float a, Float b => (a <? b)%float
  | Int a, Float b => int_lt_float a b
  | Float a, Int b => float_lt_int a b
  end.

(** [max(a, b)] and [min(a, b)]: the first argument unless the second is
    greater, or smaller *)
Definition py_max (a b : num) : num := if lt a b then b else a.
Definition py_min (a b : num) : num := if lt b a then b else a.

(** [if user_font_size:] *)
Definition font_size_given (user_font_size : option Z) : option Z :=
  match user_font_size with
  | Some 0%Z | None => None
  | Some z => Some z
  end.

Definition Dimensions : Type := Z * Z * Z * Z * Z * Z.

Definition max_lines_of (d : Dimensions) : Z :=
  match d with (_, max_lines, _, _, _, _) => max_lines end.

(** The branch for a vertical video. *)
Definition vertical_layout (width height : Z) (user_font_size : option Z)
  : res Dimensions :=
  let max_lines := 1%Z in
  w <-- times (Int width) 0.06 ;;
  let h_margin := py_max (Float w) (Int 15) in
  v_margin <-- times (Int height) 0.08 ;;
  let char_per_line := 42%Z in
  base_size <--
    match font_size_given user_font_size with
    | Some size => Ok (py_min (py_max (Int size) (Int 12)) (Int 20))
    | None =>
        base_dimension <-- times (py_min (Int width) (Int height)) 0.038 ;;
        let size_multiplier := 0.92%float in
        let base_size := (base_dimension * size_multiplier)%float in
        Ok (py_min (py_max (Float base_size) (Int 14)) (Int 20))
    end ;;
  spacing <-- times base_size 0.25 ;;
  line_spacing <-- int_of_float spacing ;;
  d1 <-- py_int base_size ;;
  d3 <-- int_of_float v_margin ;;
  line_height <-- plus base_size (Int line_spacing) ;;
  d4 <-- py_int line_height ;;
  d5 <-- py_int h_margin ;;
  Ok (d1, max_lines, d3, d4, d5, char_per_line).

(** The branch for any other video. *)
Definition standard_layout (width height : Z) (user_font_size : option Z)
  : res Dimensions :=
  base_dimension <-- times (Int height) 0.042 ;;
  let size_multiplier := 1.0%float in
  let max_lines := 2%Z in
  w <-- times (Int width) 0.12 ;;
  let h_margin := py_max (Float w) (Int 50) in
  let safe_zone := 0.82%float in
  let base_size :=
    match font_size_given user_font_size with
    | Some size => py_min (py_max (Int size) (Int 22)) (Int 44)
    | None =>
        let base_size := (base_dimension * size_multiplier)%float in
        py_min (py_max (Float base_size) (Int 22)) (Int 44)
    end in
  spacing <-- times base_size 0.3 ;;
  line_spacing <-- int_of_float spacing ;;
  v_margin <-- times (Int height) 0.06 ;;
  usable <-- times (Int width) safe_zone ;;
  per_char <-- times base_size 0.6 ;;
  chars <-- float_truediv usable per_char ;;
  char_per_line <-- int_of_float chars ;;
  let char_per_line := Z.min (Z.max char_per_line 20) 50 in
  d1 <-- py_int base_size ;;
  d3 <-- int_of_float v_margin ;;
  line_height <-- plus base_size (Int line_spacing) ;;
  d4 <-- py_int line_height ;;
  d5 <-- py_int h_margin ;;
  Ok (d1, max_lines, d3, d4, d5, char_per_line).

(** The body of the [try]. *)
Definition calculate (width height : Z) (user_font_size : option Z)
  : res Dimensions :=
  aspect_ratio <-- int_truediv width height ;;
  let is_vertical := (aspect_ratio <? 0.6)%float in
  if is_vertical then vertical_layout width height user_font_size
  else standard_layout width height user_font_size.

Definition default_dimensions : Dimensions := (24, 2, 20, 28, 50, 40)%Z.

Definition _calculate_subtitle_properties (width height : Z)
    (user_font_size : option Z) : Dimensions :=
  match calculate width height user_font_size with
  | Ok dimensions => dimensions
  | Raise _ => default_dimensions
  end.

End Layout.

(** ** The values of a decoded JSON document

    What the speech service sends is a JSON document, and the code reads it
    as Python has decoded it: [None], a [bool], an [int], a [float], a
    [str], a [list], or a [dict] whose keys are [str]s.  The functions are
    Python's operations on such values, as far as the code applies them.
    The texts of the exceptions, which the code only logs, are those of
    CPython 3.11. *)
Module Json.

Notation "x <-- m ;; k" := (Layout.res_bind m (fun x => k))
  (at level 100, m at next level, right associativity).

#[warnings="-register-all"]
Inductive Value :=
| VNone
| VBool (b : bool)
| VInt (z : Z)
| VFloat (f : float)
| VStr (s : string)
| VList (items : list Value)
| VDict (items : list (string * Value)).

(** [type(v).__name__] *)
Definition type_name (v : Value) : string :=
  match v with
  | VNone => "NoneType"
  | VBool _ => "bool"
  | VInt _ => "int"
  | VFloat _ => "float"
  | VStr _ => "str"
  | VList _ => "list"
  | VDict _ => "dict"
  end.

(** [bool(v)] *)
Definition truth (v : Value) : bool :=
  match v with
  | VNone => false
  | VBool b => b
  | VInt z => negb (z =? 0)%Z
  | VFloat f => negb (f =? 0)%float
  | VStr s => truthy (Some s)
  | VList [] => false
  | VList (_ :: _) => true
  | VDict [] => false
  | VDict (_ :: _) => true
  end.

(** The value under [key] of a dict given by its items. *)
Fixpoint lookup (items : list (string * Value)) (key : string) : option Value :=
  match items with
  | [] => None
  | (k, v) :: rest => if String.eqb key k then Some v else lookup rest key
  end.

(** [d.get(key, default)] on a dict *)
Definition dict_get (items : list (string * Value)) (key : string) (default : Value)
  : Value :=
  match lookup items key with
  | Some v => v
  | None => default
  end.

(** [v.get(key, default)] *)
Definition get (v : Value) (key : string) (default : Value) : res Value :=
  match v with
  | VDict items => Ok (dict_get items key default)
  | _ => Raise (Exn AttributeError
                  ("'" ++ type_name v ++ "' object has no attribute 'get'"))
  end.

(** A [bool] is an [int]; [None] for a value that is no number. *)
Definition number (v : Value) : option Layout.num :=
  match v with
  | VBool b => Some (Layout.Int (if b then 1 else 0))
  | VInt z => Some (Layout.Int z)
  | VFloat f => Some (Layout.Float f)
  | _ => None
  end.

(** [x == y] on two numbers, on their exact values *)
Definition num_eq (x y : Layout.num) : bool :=
  match x, y with
  | Layout.Int a, Layout.Int b => (a =? b)%Z
  | Layout.Float a, Layout.Float b => (a =? b)%float
  | Layout.Int a, Layout.Float b | Layout.Float b, Layout.Int a =>
      (b =? b)%float && negb (Layout.int_lt_float a b) && negb (Layout.float_lt_int b a)
  end.

(** [a == b].  Two dicts are equal when they have the same keys with equal
    values.  (Python takes one and the same object to be equal to itself
    inside a list; the values of a decoded document are distinct objects.) *)
Fixpoint eq (a b : Value) {struct a} : bool :=
  match a, b with
  | VNone, VNone => true
  | VStr s, VStr t => String.eqb s t
  | VList l, VList m =>
      (fix all2 (l m : list Value) {struct l} : bool :=
         match l, m with
         | [], [] => true
         | x :: l', y :: m' => eq x y && all2 l' m'
         | _, _ => false
         end) l m
  | VDict d, VDict e =>
      (length d =? length e)%nat
      && (fix all (d : list (string * Value)) {struct d} : bool :=
            match d with
            | [] => true
            | (k, v) :: d' =>
                match lookup e k with
                | Some w => eq v w
                | None => false
                end && all d'
            end) d
  | _, _ =>
      match number a, number b with
      | Some x, Some y => num_eq x y
      | _, _ => false
      end
  end.

(** [a > b]: numbers by their exact values, strings and lists in
    lexicographic order; nothing else is ordered. *)
Fixpoint gt (a b : Value) {struct a} : res bool :=
  match a, b with
  | VStr s, VStr t => Ok (String.ltb t s)
  | VList l, VList m =>
      (fix go (l m : list Value) {struct l} : res bool :=
         match l, m with
         | x :: l', y :: m' => if eq x y then go l' m' else gt x y
         | _ :: _, [] => Ok true
         | [], _ => Ok false
         end) l m
  | _, _ =>
      match number a, number b with
      | Some x, Some y => Ok (Layout.lt y x)
      | _, _ =>
          Raise (Exn TypeError
                   ("'>' not supported between instances of '" ++ type_name a
                    ++ "' and '" ++ type_name b ++ "'"))
      end
  end.

Definition not_subscriptable {A} (v : Value) : res A :=
  Raise (Exn TypeError ("'" ++ type_name v ++ "' object is not subscriptable")).

(** [v[0]] *)
Definition first (v : Value) : res Value :=
  match v with
  | VList (x :: _) => Ok x
  | VList [] => Raise (Exn IndexError "list index out of range")
  | VStr (String c _) => Ok (VStr (String c EmptyString))
  | VStr EmptyString => Raise (Exn IndexError "string index out of range")
  | VDict _ => Raise (Exn KeyError "0")
  | _ => not_subscriptable v
  end.

(** [v[key]] for a [str] [key] *)
Definition item (v : Value) (key : string) : res Value :=
  match v with
  | VDict items =>
      match lookup items key with
      | Some x => Ok x
      | None => Raise (Exn KeyError ("'" ++ key ++ "'"))
      end
  | VStr _ => Raise (Exn TypeError "string indices must be integers, not 'str'")
  | VList _ => Raise (Exn TypeError "list indices must be integers or slices, not str")
  | _ => not_subscriptable v
  end.

(** [v[:100]] *)
Definition head100 (v : Value) : res Value :=
  match v with
  | VStr s => Ok (VStr (String.substring 0 100 s))
  | VList l => Ok (VList (List.firstn 100 l))
  | VDict _ => Raise (Exn TypeError "unhashable type: 'slice'")
  | _ => not_subscriptable v
  end.

(** What [for x in v] goes through: the elements of a list, the
    characters of a string, the keys of a dict. *)
Definition iterate (v : Value) : res (list Value) :=
  match v with
  | VList l => Ok l
  | VStr s => Ok (map (fun c => VStr (String c EmptyString)) (list_ascii_of_string s))
  | VDict items => Ok (map (fun kv => VStr (fst kv)) items)
  | _ => Raise (Exn TypeError ("'" ++ type_name v ++ "' object is not iterable"))
  end.

(** [key in v] for a [str] [key] *)
Definition contains (key : string) (v : Value) : res bool :=
  match v with
  | VDict items => Ok (match lookup items key with Some _ => true | None => false end)
  | VStr s => Ok (PyStr.contains_str key s)
  | VList l => Ok (existsb (fun x => eq x (VStr key)) l)
  | _ => Raise (Exn TypeError
                  ("argument of type '" ++ type_name v ++ "' is not iterable"))
  end.

(** [all(key in v for key in keys)] *)
Fixpoint all_in (keys : list string) (v : Value) : res bool :=
  match keys with
  | [] => Ok true
  | key :: rest =>
      found <-- contains key v ;;
      if found then all_in rest v else Ok false
  end.

(** [v.strip()] *)
Definition strip (v : Value) : res string :=
  match v with
  | VStr s => Ok (PyStr.strip s)
  | _ => Raise (Exn AttributeError
                  ("'" ++ type_name v ++ "' object has no attribute 'strip'"))
  end.

(** [normalize_lang_code(v)]: it begins with [v.strip()], which only a
    [str] has. *)
Definition normalize_lang_code (v : Value) : res string :=
  match v with
  | VStr s => Ok (LanguageUtils.normalize_lang_code s)
  | _ => Raise (Exn AttributeError
                  ("'" ++ type_name v ++ "' object has no attribute 'strip'"))
  end.

(** [float(v)]; [float_of_str] is [float] on a [str], Python's reading of
    a number in decimal notation. *)
Definition to_float (float_of_str : string -> res float) (v : Value) : res float :=
  match v with
  | VFloat f => Ok f
  | VInt z => Layout.float_of_int z
  | VBool b => Ok (if b then 1 else 0)%float
  | VStr s => float_of_str s
  | _ => Raise (Exn TypeError
                  ("float() argument must be a string or a real number, not '"
                   ++ type_name v ++ "'"))
  end.

End Json.

(** A timed subtitle segment: a dict with the keys [start], [end], [text]. *)
Record Segment := { seg_start : float; seg_end : float; seg_text : string }.

(** The speech service's [verbose_json] response as a dict, given by its
    items: the response itself when it is a dict, and else what its
    [model_dump()] gives.  Nothing is known of the values under its keys. *)
Definition Response : Type := list (string * Json.Value).

(** What [_transcribe_with_groq] returns; [sample_text] is whatever could
    be sliced. *)
Record Transcription :=
  { tr_segments : list Segment;
    tr_detected_language : string;
    tr_sample_text : Json.Value }.

Definition Tokens := list Z.
Record Model := { model_name_or_path : string; model_obj : nat }.
Record Tokenizer := { name_or_path : string; tokenizer_obj : nat }.
Definition Client := nat.

(** An entry of [self.translation_models]: a dict with the keys [model] and
    [tokenizer], each one object (direct model) or a list (pivot). *)
Record ModelInfo :=
  { mi_model : one_or_list Model; mi_tokenizer : one_or_list Tokenizer }.

(** JSON-like values of a progress message and of a record-store update. *)
Inductive JValue :=
| JStr (s : string)
| JInt (z : Z)
| JSegments (l : list Segment).

Definition JDict := list (string * JValue).

Fixpoint jdict_set (d : JDict) (k : string) (v : JValue) : JDict :=
  match d with
  | [] => [(k, v)]
  | (k', v') :: d' =>
      if String.eqb k k' then (k, v) :: d' else (k', v') :: jdict_set d' k v
  end.

(** [d.update(d2)] *)
Definition jdict_update (d d2 : JDict) : JDict :=
  fold_left (fun acc kv => jdict_set acc (fst kv) (snd kv)) d2 d.

Fixpoint jdict_get (d : JDict) (k : string) : option JValue :=
  match d with
  | [] => None
  | (k', v) :: d' => if String.eqb k k' then Some v else jdict_get d' k
  end.

(** A document of the video record store, as far as the pipeline reads it. *)
Record VideoRecord := { rec_segments : option (list Segment) }.

(** What the program does to the outside, in the order it does it. *)
Inductive Event :=
| EGroqClient (api_key : string)
| ERequestsGet (url : string)
| EModelFromPretrained (name : string)
| ETokenizerFromPretrained (name : string)
| EChatCreate (system_prompt user_text : string)
| ETokenize (t : Tokenizer) (text : string)
| EGenerate (m : Model) (inputs : Tokens)
| EDecode (t : Tokenizer) (output : Tokens)
| EOpen (path : string)
| EAudioTranslations (path : string)
| EAudioTranscriptions (path : string) (language : option string)
| EValidateVideoId (video_path : string)
| EFindOne (video_id : string)
| EUuid4
| EFfmpegExtract (video_path audio_path : string)
| EAddSubtitles (video_path : string) (subs : list Segment)
    (target_lang : string) (user_font_size : option Z)
| EPathExists (path : string)
| ERemove (path : string)
| EUpdateOne (video_id : string) (update : JDict)
| EYield (message : JDict).

Definition History := list Event.

(** The collaborators.  Each answer may depend on everything that happened
    before the call, so that the same call can succeed once and fail later. *)
Record World :=
  { env_GROQ_API_KEY : option string;        (* os.getenv('GROQ_API_KEY') *)
    config_GROQ_API_KEY : option string;     (* current_app.config.get *)
    groq_Client : History -> string -> res Client;
    requests_get : History -> string -> res Z;            (* status code *)
    MarianMTModel_from_pretrained : History -> string -> res Model;
    MarianTokenizer_from_pretrained : History -> string -> res Tokenizer;
    chat_completions_create :
      History -> Client -> string -> string -> res (list (option string));
    tokenizer_call : History -> Tokenizer -> string -> res Tokens;
    model_generate : History -> Model -> Tokens -> res (list Tokens);
    tokenizer_decode : History -> Tokenizer -> Tokens -> res string;
    open_rb : History -> string -> res unit;
    audio_translations_create : History -> Client -> string -> res Response;
    audio_transcriptions_create :
      History -> Client -> string -> option string -> res Response;
    validate_and_get_video_id : History -> string -> string;
    find_one : History -> string -> res (option VideoRecord);
    uuid4 : History -> string;
    ffmpeg_extract : History -> string -> string -> res unit;
    add_subtitles :
      History -> string -> list Segment -> string -> option Z -> res string;
    os_path_exists : History -> string -> bool;
    os_remove : History -> string -> res unit;
    update_one : History -> string -> JDict -> res unit;
    output_folder : string;                    (* self.output_folder *)
    float_of_str : string -> res float }.      (* float(s) on a str *)

(** The fields of a [VideoService] object that the pipeline reads and writes. *)
Record Service :=
  { client : option Client; translation_models : gmap string ModelInfo }.

(** Local variables of [process_video_stream]: [audio_path] and [video_id],
    which its [except] and [finally] blocks read, and [segments]; [None] is
    [None] or not assigned yet. *)
Record Frame :=
  { audio_path : option string;
    video_id : option string;
    segments : option (list Segment) }.

Record State := { self : Service; history : History; frame : Frame }.

(** ** [video_service.py] *)
Section VideoService.
Variable W : World.

(** Computations that read and write the state and may raise.  A raised
    exception keeps the state reached so far. *)
Definition M (A : Type) : Type := State -> res A * State.

Definition ret {A} (a : A) : M A := fun st => (Ok a, st).
Definition raise {A} (e : exn) : M A := fun st => (Raise e, st).
(** A step that has a result, or raises, and touches nothing. *)
Definition lift {A} (r : res A) : M A := fun st => (r, st).
Definition bind {A B} (m : M A) (k : A -> M B) : M B :=
  fun st => match m st with
            | (Ok a, st') => k a st'
            | (Raise e, st') => (Raise e, st')
            end.

(** [try: m  except Exception as e: h e] *)
Definition try_except {A} (m : M A) (h : exn -> M A) : M A :=
  fun st => match m st with
            | (Ok a, st') => (Ok a, st')
            | (Raise e, st') => h e st'
            end.

(** [try: m  finally: f] *)
Definition try_finally {A} (m : M A) (f : M unit) : M A :=
  fun st => match m st with
            | (r, st') =>
                match f st' with
                | (Ok _, st'') => (r, st'')
                | (Raise e, st'') => (Raise e, st'')
                end
            end.

Notation "x <- m ;; k" := (bind m (fun x => k))
  (at level 100, m at next level, right associativity).
Notation "m ;; k" := (bind m (fun _ => k))
  (at level 100, right associativity).
Notation "x <-- m ;; k" := (Layout.res_bind m (fun x => k))
  (at level 100, m at next level, right associativity).

Definition get_self : M Service := fun st => (Ok (self st), st).
Definition put_self (s : Service) : M unit :=
  fun st => (Ok tt, {| self := s; history := history st; frame := frame st |}).
Definition get_frame : M Frame := fun st => (Ok (frame st), st).
Definition put_frame (f : Frame) : M unit :=
  fun st => (Ok tt, {| self := self st; history := history st; frame := f |}).

(** A call to a collaborator: it answers from the history so far, and the
    call is recorded. *)
Definition call {A} (ev : Event) (answer : History -> res A) : M A :=
  fun st => (answer (history st),
             {| self := self st; history := (history st ++ [ev])%list; frame := frame st |}).

Definition call_total {A} (ev : Event) (answer : History -> A) : M A :=
  call ev (fun h => Ok (answer h)).

(** [self.client.<method>]: an [AttributeError] on [None]. *)
Definition the_client : M Client :=
  s <- get_self ;;
  match client s with
  | Some c => ret c
  | None => raise (Exn AttributeError "'NoneType' object has no attribute")
  end.

Definition ensure_initialized : M unit :=
  s <- get_self ;;
  match client s with
  | Some _ => ret tt
  | None =>
      let api_key :=
        if truthy (env_GROQ_API_KEY W) then env_GROQ_API_KEY W
        else config_GROQ_API_KEY W in
      match api_key with
      | Some (String c k) =>
          try_except
            (cl <- call (EGroqClient (String c k)) (fun h => groq_Client W h (String c k)) ;;
             s <- get_self ;;
             put_self {| client := Some cl; translation_models := translation_models s |})
            (fun e => raise e)
      | _ => raise (Exn ValueError "GROQ_API_KEY not found")
      end
  end.

Definition _model_exists_on_hf (model_name : string) : M bool :=
  let api_url := "https://huggingface.co/api/models/" ++ model_name in
  try_except
    (status_code <- call (ERequestsGet api_url) (fun h => requests_get W h api_url) ;;
     ret (status_code =? 200)%Z)
    (fun _ => ret false).

Definition model_variants (source_lang target_lang : string) : list string :=
  [ "Helsinki-NLP/opus-mt-" ++ source_lang ++ "-" ++ target_lang;
    "Helsinki-NLP/opus-mt-tc-big-" ++ source_lang ++ "-" ++ target_lang;
    "Helsinki-NLP/opus-mt-" ++ source_lang ++ "-" ++ target_lang ++ "-big" ].

(** [self.translation_models[key] = value] *)
Definition cache_store (key : string) (value : ModelInfo) : M unit :=
  s <- get_self ;;
  put_self {| client := client s;
              translation_models := <[key := value]> (translation_models s) |}.

(** [self.translation_models[key]] *)
Definition cache_load (key : string) : M ModelInfo :=
  s <- get_self ;;
  match translation_models s !! key with
  | Some v => ret v
  | None => raise (Exn KeyError key)
  end.

(** The first loop of [get_translation_model]: the first variant that is a
    key of the cache. *)
Fixpoint cached_variant (names : list string) (cache : gmap string ModelInfo)
  : option ModelInfo :=
  match names with
  | [] => None
  | model_name :: rest =>
      match cache !! model_name with
      | Some v => Some v
      | None => cached_variant rest cache
      end
  end.

(** The second loop: probe each variant, load the first one found; an
    exception while probing or loading moves on to the next variant. *)
Fixpoint load_direct (names : list string) : M (option ModelInfo) :=
  match names with
  | [] => ret None
  | model_name :: rest =>
      r <- try_except
             (found <- _model_exists_on_hf model_name ;;
              if found then
                m <- call (EModelFromPretrained model_name)
                       (fun h => MarianMTModel_from_pretrained W h model_name) ;;
                t <- call (ETokenizerFromPretrained model_name)
                       (fun h => MarianTokenizer_from_pretrained W h model_name) ;;
                cache_store model_name {| mi_model := One m; mi_tokenizer := One t |} ;;
                v <- cache_load model_name ;;
                ret (Some v)
              else ret None)
             (fun _ => ret None) ;;
      match r with
      | Some v => ret (Some v)
      | None => load_direct rest
      end
  end.

(** The pivot block, entered when [source_lang != 'en'].  [None] is the fall
    through to the end of the function, [Some r] is [return r]. *)
Definition load_pivot (source_lang target_lang : string)
  : M (option (option ModelInfo)) :=
  try_except
    (let source_to_en := "Helsinki-NLP/opus-mt-" ++ source_lang ++ "-en" in
     let en_to_target := "Helsinki-NLP/opus-mt-en-" ++ target_lang in
     found1 <- _model_exists_on_hf source_to_en ;;
     if negb found1 then ret (Some None)
     else
       found2 <- _model_exists_on_hf en_to_target ;;
       if negb found2 then ret (Some None)
       else
         m1 <- call (EModelFromPretrained source_to_en)
                 (fun h => MarianMTModel_from_pretrained W h source_to_en) ;;
         m2 <- call (EModelFromPretrained en_to_target)
                 (fun h => MarianMTModel_from_pretrained W h en_to_target) ;;
         t1 <- call (ETokenizerFromPretrained source_to_en)
                 (fun h => MarianTokenizer_from_pretrained W h source_to_en) ;;
         t2 <- call (ETokenizerFromPretrained en_to_target)
                 (fun h => MarianTokenizer_from_pretrained W h en_to_target) ;;
         let key := source_lang ++ "-" ++ target_lang ++ "_pivot" in
         cache_store key {| mi_model := Many [m1; m2]; mi_tokenizer := Many [t1; t2] |} ;;
         v <- cache_load key ;;
         ret (Some (Some v)))
    (fun _ => ret None).

(** Returns a model entry, or [None] for "translate with the remote service". *)
Definition get_translation_model (source_lang target_lang : string)
  : M (option ModelInfo) :=
  let source_lang := LanguageUtils.normalize_lang_code source_lang in
  let target_lang := LanguageUtils.normalize_lang_code target_lang in
  if String.eqb source_lang "ar" && String.eqb target_lang "en" then ret None
  else
    s <- get_self ;;
    match cached_variant (model_variants source_lang target_lang) (translation_models s) with
    | Some v => ret (Some v)
    | None =>
        r <- load_direct (model_variants source_lang target_lang) ;;
        match r with
        | Some v => ret (Some v)
        | None =>
            if negb (String.eqb source_lang "en") then
              p <- load_pivot source_lang target_lang ;;
              match p with
              | Some result => ret result
              | None => ret None
              end
            else ret None
        end
    end.

(** [l[0]] *)
Definition index0 {A} (l : list A) : M A :=
  match l with
  | x :: _ => ret x
  | [] => raise (Exn IndexError "list index out of range")
  end.

(** The [system_prompt] of [_translate_with_groq_fallback]. *)
Definition groq_system_prompt (source_lang target_lang : string) : string :=
  if String.eqb source_lang "ar" then
    "You are an expert Arabic translator. Translate the following text to English, "
    ++ "maintaining proper context and nuance. Preserve any technical terms, names, "
    ++ "and numbers exactly as they appear. Provide a natural, fluent translation "
    ++ "that captures the original meaning accurately."
  else
    "Translate the following text from " ++ source_lang ++ " to " ++ target_lang
    ++ ". " ++ "Maintain exact meaning, preserve numbers and proper nouns.".

Definition _translate_with_groq_fallback (text source_lang target_lang : string)
  : M string :=
  ensure_initialized ;;
  try_except
    (let system_prompt := groq_system_prompt source_lang target_lang in
     c <- the_client ;;
     choices <- call (EChatCreate system_prompt text)
                  (fun h => chat_completions_create W h c system_prompt text) ;;
     choice <- index0 choices ;;
     match choice with
     | Some content => ret (PyStr.strip content)
     | None => raise (Exn AttributeError "'NoneType' object has no attribute 'strip'")
     end)
    (fun _ => ret text).

(** [x.name_or_path] *)
Definition get_name_or_path (x : one_or_list Tokenizer) : M string :=
  match x with
  | One t => ret (name_or_path t)
  | Many _ => raise (Exn AttributeError "'list' object has no attribute 'name_or_path'")
  end.

(** [a, b = x] *)
Definition unpack2 {A} (x : one_or_list A) : M (A * A) :=
  match x with
  | Many [a; b] => ret (a, b)
  | Many _ => raise (Exn ValueError "wrong number of values to unpack")
  | One _ => raise (Exn TypeError "cannot unpack non-iterable object")
  end.

(** [tokenizer([text], ...)] *)
Definition apply_tokenizer (x : one_or_list Tokenizer) (text : string) : M Tokens :=
  match x with
  | One t => call (ETokenize t text) (fun h => tokenizer_call W h t text)
  | Many _ => raise (Exn TypeError "'list' object is not callable")
  end.

(** [tokenizer.decode(translated[0], ...)] *)
Definition apply_decode (x : one_or_list Tokenizer) (out : Tokens) : M string :=
  match x with
  | One t => call (EDecode t out) (fun h => tokenizer_decode W h t out)
  | Many _ => raise (Exn AttributeError "'list' object has no attribute 'decode'")
  end.

(** tokenize, generate, decode with one model and its tokenizer *)
Definition run_model (m : Model) (t : one_or_list Tokenizer) (text : string)
  : M string :=
  inputs <- apply_tokenizer t text ;;
  translated <- call (EGenerate m inputs) (fun h => model_generate W h m inputs) ;;
  first <- index0 translated ;;
  apply_decode t first.

Definition translate_text (text source_lang target_lang : string) : M string :=
  let source_lang := LanguageUtils.normalize_lang_code source_lang in
  let target_lang := LanguageUtils.normalize_lang_code target_lang in
  if String.eqb source_lang target_lang then ret text
  else if String.eqb source_lang "ar" && String.eqb target_lang "en" then
    _translate_with_groq_fallback text source_lang target_lang
  else
    model_info <- get_translation_model source_lang target_lang ;;
    match model_info with
    | None => _translate_with_groq_fallback text source_lang target_lang
    | Some model_info =>
        try_except
          (get_name_or_path (mi_tokenizer model_info) ;;
           match mi_model model_info with
           | Many models =>
               tt12 <- unpack2 (mi_tokenizer model_info) ;;
               mm12 <- unpack2 (Many models) ;;
               pivot_text <- run_model (fst mm12) (One (fst tt12)) text ;;
               run_model (snd mm12) (One (snd tt12)) pivot_text
           | One model => run_model model (mi_tokenizer model_info) text
           end)
          (fun _ => _translate_with_groq_fallback text source_lang target_lang)
    end.

(** The translation strategy that [translate_text] settles on before it
    translates: the text is returned as it is, a model entry is applied
    (a pivot when its [model] is a list), or the remote service is used. *)
Inductive Strategy :=
| NoOp
| Direct (model_info : ModelInfo)
| Pivot (model_info : ModelInfo)
| RemoteFallback.

Definition strategy_of (model_info : ModelInfo) : Strategy :=
  match mi_model model_info with
  | Many _ => Pivot model_info
  | One _ => Direct model_info
  end.

(** The choices of [translate_text] up to the point where it translates. *)
Definition resolve (source_lang target_lang : string) : M Strategy :=
  let source_lang := LanguageUtils.normalize_lang_code source_lang in
  let target_lang := LanguageUtils.normalize_lang_code target_lang in
  if String.eqb source_lang target_lang then ret NoOp
  else if String.eqb source_lang "ar" && String.eqb target_lang "en" then
    ret RemoteFallback
  else
    model_info <- get_translation_model source_lang target_lang ;;
    match model_info with
    | None => ret RemoteFallback
    | Some model_info => ret (strategy_of model_info)
    end.

(** What [translate_text] does with the text once the strategy is chosen;
    the language codes are the normalized ones. *)
Definition apply_strategy (strategy : Strategy)
    (text source_lang target_lang : string) : M string :=
  match strategy with
  | NoOp => ret text
  | RemoteFallback => _translate_with_groq_fallback text source_lang target_lang
  | Direct model_info | Pivot model_info =>
      try_except
        (get_name_or_path (mi_tokenizer model_info) ;;
         match mi_model model_info with
         | Many models =>
             tt12 <- unpack2 (mi_tokenizer model_info) ;;
             mm12 <- unpack2 (Many models) ;;
             pivot_text <- run_model (fst mm12) (One (fst tt12)) text ;;
             run_model (snd mm12) (One (snd tt12)) pivot_text
         | One model => run_model model (mi_tokenizer model_info) text
         end)
        (fun _ => _translate_with_groq_fallback text source_lang target_lang)
  end.

(** The loop of [_process_subtitles], on the segments still to process. *)
Fixpoint _process_subtitles (subtitles : list Segment)
    (source_lang target_lang : string) : M (list Segment) :=
  match subtitles with
  | [] => ret []
  | sub :: rest =>
      out <- try_except
               (translated_text <- translate_text (seg_text sub) source_lang target_lang ;;
                ret {| seg_start := seg_start sub; seg_end := seg_end sub;
                       seg_text := translated_text |})
               (fun _ => ret sub) ;;
      processed <- _process_subtitles rest source_lang target_lang ;;
      ret (out :: processed)
  end.

(** The [with open(audio_path, "rb")] block of [_transcribe_with_groq]: the
    response of the speech service. *)
Definition speech_response (audio_path source_lang target_lang : string)
  : M Response :=
  call (EOpen audio_path) (fun h => open_rb W h audio_path) ;;
  if String.eqb target_lang "en" && negb (String.eqb source_lang "en") then
    try_except
      (c <- the_client ;;
       call (EAudioTranslations audio_path)
         (fun h => audio_translations_create W h c audio_path))
      (fun _ =>
         c <- the_client ;;
         call (EAudioTranscriptions audio_path (Some source_lang))
           (fun h => audio_transcriptions_create W h c audio_path (Some source_lang)))
  else
    c <- the_client ;;
    call (EAudioTranscriptions audio_path (Some source_lang))
      (fun h => audio_transcriptions_create W h c audio_path (Some source_lang)).

(** The body of the [try] inside the loop over the response's segments:
    the dict that is appended, if one is. *)
Definition keep_segment (segment : Json.Value) : res (option Segment) :=
  complete <-- Json.all_in ["start"; "end"; "text"] segment ;;
  if complete then
    end_ <-- Json.item segment "end" ;;
    start <-- Json.item segment "start" ;;
    later <-- Json.gt end_ start ;;
    worded <--
      (if later then
         text <-- Json.item segment "text" ;;
         stripped <-- Json.strip text ;;
         Ok (truthy (Some stripped))
       else Ok false) ;;
    if worded then
      start <-- Json.item segment "start" ;;
      start <-- Json.to_float (float_of_str W) start ;;
      end_ <-- Json.item segment "end" ;;
      end_ <-- Json.to_float (float_of_str W) end_ ;;
      text <-- Json.item segment "text" ;;
      text <-- Json.strip text ;;
      Ok (Some {| seg_start := start; seg_end := end_; seg_text := text |})
    else Ok None
  else Ok None.

(** The loop: an exception of the body is logged and the segment left
    out. *)
Fixpoint process_segments (segments : list Json.Value) : list Segment :=
  match segments with
  | [] => []
  | segment :: rest =>
      match keep_segment segment with
      | Ok (Some kept) => kept :: process_segments rest
      | Ok None | Raise _ => process_segments rest
      end
  end.

(** The statements of [_transcribe_with_groq] between its [with] block and
    its [return]; none of them is in a [try] of its own but the loop body. *)
Definition read_transcription (source_lang : string) (response : Response)
  : res Transcription :=
  let detected_language := Json.dict_get response "language" (Json.VStr source_lang) in
  normalized_detected <-- Json.normalize_lang_code detected_language ;;
  let segments := Json.dict_get response "segments" (Json.VList []) in
  sample_text <--
    (if Json.truth segments then
       first <-- Json.first segments ;;
       sample_text <-- Json.get first "text" (Json.VStr "") ;;
       _ <-- Json.head100 sample_text ;;
       Ok sample_text
     else Ok (Json.VStr "")) ;;
  items <-- Json.iterate segments ;;
  Ok {| tr_segments := process_segments items;
        tr_detected_language := normalized_detected;
        tr_sample_text := sample_text |}.

Definition _transcribe_with_groq (audio_path source_lang target_lang : string)
  : M Transcription :=
  try_except
    (response <- speech_response audio_path source_lang target_lang ;;
     lift (read_transcription source_lang response))
    (fun _ => ret {| tr_segments := []; tr_detected_language := source_lang;
                     tr_sample_text := Json.VStr "" |}).

Definition detect_language (audio_path : string) : M string :=
  try_except
    (call (EOpen audio_path) (fun h => open_rb W h audio_path) ;;
     c <- the_client ;;
     response <- call (EAudioTranscriptions audio_path None)
                   (fun h => audio_transcriptions_create W h c audio_path None) ;;
     let detected_lang := Json.dict_get response "language" (Json.VStr "en") in
     lift (Json.normalize_lang_code detected_lang))
    (fun _ => ret "en").

Definition _extract_audio (video_path : string) : M string :=
  u <- call_total EUuid4 (uuid4 W) ;;
  let audio_path := output_folder W ++ "/" ++ u ++ ".wav" in
  try_except
    (call (EFfmpegExtract video_path audio_path)
       (fun h => ffmpeg_extract W h video_path audio_path) ;;
     ret audio_path)
    (fun e =>
       match exn_class e with
       | FFmpegError stderr =>
           text <- lift (stderr_text stderr "Unknown error") ;;
           let error_message := "FFmpeg error: " ++ text in
           raise (Exn RuntimeError error_message)
       | _ => raise e
       end).

(** [ObjectId.is_valid] of [bson] on a string: it has 24 characters and
    [bytes.fromhex] reads it, that is, it is made of pairs of hexadecimal
    digits, with ASCII white space allowed before and after each pair
    (Python 3.7 and later). *)
Definition is_hex_digit (c : ascii) : bool :=
  let n := N_of_ascii c in
  ((48 <=? n) && (n <=? 57) || (65 <=? n) && (n <=? 70)
   || (97 <=? n) && (n <=? 102))%N.

Definition is_ascii_space (c : ascii) : bool :=
  let n := N_of_ascii c in
  ((9 <=? n) && (n <=? 13) || (n =? 32))%N.

Fixpoint fromhex_reads (s : list ascii) : bool :=
  match s with
  | [] => true
  | c :: rest =>
      if is_ascii_space c then fromhex_reads rest
      else match rest with
           | d :: rest' => is_hex_digit c && is_hex_digit d && fromhex_reads rest'
           | [] => false
           end
  end.

Definition ObjectId_is_valid (oid : string) : bool :=
  (String.length oid =? 24)%nat && fromhex_reads (list_ascii_of_string oid).

(** [Video().get_video] of [models/video.py]; building the [Video] object
    is taken to succeed, and [get_db] is part of the call to the store. *)
Definition get_video (video_id : string) : M (option VideoRecord) :=
  try_except
    (if negb (truthy (Some video_id)) || negb (ObjectId_is_valid video_id)
     then ret None
     else call (EFindOne video_id) (fun h => find_one W h video_id))
    (fun _ => ret None).

(** [Video().update_status]; the [updated_at] time stamp is left out. *)
Definition update_status (video_id status : string) (error : option string)
    (progress : option Z) : M unit :=
  try_except
    (if negb (truthy (Some video_id)) || negb (ObjectId_is_valid video_id)
     then raise (Exn ValueError "Invalid video ID")
     else
       let update_data := [("status", JStr status)] in
       let update_data :=
         match error with
         | Some (String c e) => jdict_set update_data "error" (JStr (String c e))
         | _ => update_data
         end in
       let update_data :=
         match progress with
         | Some p => jdict_set update_data "progress" (JInt p)
         | None => update_data
         end in
       call (EUpdateOne video_id update_data)
         (fun h => update_one W h video_id update_data))
    (fun e => raise e).

(** [Video().update_output_path]; the [updated_at] time stamp is left out. *)
Definition update_output_path (video_id output_path : string)
    (segs : list Segment) : M unit :=
  try_except
    (if negb (truthy (Some video_id)) || negb (ObjectId_is_valid video_id)
     then raise (Exn ValueError "Invalid video ID")
     else
       let update_data :=
         [ ("output_path", JStr output_path); ("status", JStr "completed");
           ("progress", JInt 100); ("segments", JSegments segs) ] in
       call (EUpdateOne video_id update_data)
         (fun h => update_one W h video_id update_data))
    (fun e => raise e).

(** The message of [_send_progress], before [json.dumps]. *)
Definition _send_progress (step : string) (progress : Z) (data : JDict) : JDict :=
  let message :=
    [ ("step", JStr step); ("progress", JInt progress);
      ("status", JStr (if (progress =? -1)%Z then "failed"
                       else if (progress =? 100)%Z then "completed"
                       else "processing")) ] in
  match data with
  | [] => message
  | _ => jdict_update message data
  end.

(** [yield message]: the generator is driven to its end by its consumer. *)
Definition yield (message : JDict) : M unit :=
  call_total (EYield message) (fun _ => tt).

Definition texts (segs : list Segment) : string :=
  PyStr.join (String "010" EmptyString) (map seg_text segs).

(** The branch of [process_video_stream] that has no edited segments to
    reuse: audio extraction, language detection, transcription and
    translation.  It returns [translated_subs]. *)
Definition transcribe_and_translate (video_path target_lang : string)
  : M (list Segment) :=
  yield (_send_progress "Extracting audio" 10 []) ;;
  path <- _extract_audio video_path ;;
  f <- get_frame ;;
  put_frame {| audio_path := Some path; video_id := video_id f;
               segments := segments f |} ;;
  yield (_send_progress "Extracting audio" 30 []) ;;
  yield (_send_progress "Detecting language" 35 []) ;;
  source_lang <- detect_language path ;;
  yield (_send_progress "Detecting language" 40
           [("detected_language", JStr source_lang)]) ;;
  yield (_send_progress "Transcribing" 45 []) ;;
  transcription <- _transcribe_with_groq path source_lang target_lang ;;
  f <- get_frame ;;
  put_frame {| audio_path := audio_path f; video_id := video_id f;
               segments := Some (tr_segments transcription) |} ;;
  let detected_language := tr_detected_language transcription in
  match tr_segments transcription with
  | [] => raise (Exn ValueError "No valid subtitles generated")
  | segs =>
      yield (_send_progress "Transcribing" 60 [("transcription", JStr (texts segs))]) ;;
      if negb (String.eqb detected_language target_lang) then
        yield (_send_progress "Translating" 65 []) ;;
        translated_subs <- _process_subtitles segs detected_language target_lang ;;
        yield (_send_progress "Translating" 80
                 [("translation", JStr (texts translated_subs))]) ;;
        ret translated_subs
      else ret segs
  end.

(** The body of the [try] of [process_video_stream]. *)
Definition process_video_stream_try (video_path target_lang : string)
    (user_font_size : option Z) : M unit :=
  vid <- call_total (EValidateVideoId video_path)
           (fun h => validate_and_get_video_id W h video_path) ;;
  f <- get_frame ;;
  put_frame {| audio_path := audio_path f; video_id := Some vid;
               segments := segments f |} ;;
  yield (_send_progress "Initializing" 0 []) ;;
  ensure_initialized ;;
  video <- get_video vid ;;
  let existing_segments :=
    match video with
    | Some v => match rec_segments v with Some l => l | None => [] end
    | None => []
    end in
  translated_subs <-
    match existing_segments with
    | _ :: _ =>
        yield (_send_progress "Translating" 80
                 [("translation", JStr (texts existing_segments))]) ;;
        ret existing_segments
    | [] => transcribe_and_translate video_path target_lang
    end ;;
  yield (_send_progress "Generating subtitles" 85 []) ;;
  yield (_send_progress "Adding subtitles" 90 []) ;;
  output_path <- call (EAddSubtitles video_path translated_subs target_lang user_font_size)
                   (fun h => add_subtitles W h video_path translated_subs target_lang
                               user_font_size) ;;
  found <- call_total (EPathExists output_path) (fun h => os_path_exists W h output_path) ;;
  if negb found then raise (Exn FileNotFoundError "Output video not generated")
  else
    update_output_path vid output_path translated_subs ;;
    yield (_send_progress "Finalizing" 100
             [ ("output_path", JStr output_path);
               ("transcription", JStr (texts translated_subs));
               ("segments", JSegments translated_subs) ]).

(** The [except Exception as e] block. *)
Definition process_video_stream_except (e : exn) : M unit :=
  f <- get_frame ;;
  match video_id f with
  | Some (String c vid) =>
      update_status (String c vid) "failed" (Some (exn_str e)) (Some (-1)%Z)
  | _ => ret tt
  end ;;
  yield (_send_progress "Error" (-1) [("error", JStr (exn_str e))]) ;;
  raise e.

(** The [finally] block. *)
Definition process_video_stream_finally : M unit :=
  f <- get_frame ;;
  match audio_path f with
  | Some (String c path) =>
      found <- call_total (EPathExists (String c path))
                 (fun h => os_path_exists W h (String c path)) ;;
      if found then
        try_except
          (call (ERemove (String c path)) (fun h => os_remove W h (String c path)))
          (fun _ => ret tt)
      else ret tt
  | _ => ret tt
  end.

(** The generator [process_video_stream], run to its end; what it yields is
    in the history.  [_add_subtitles], the render stage, is one call here,
    with its answer: what the stage does itself, to [ffmpeg] and to its
    subtitle file, which it removes, is in [Render._add_subtitles] below
    and not in this history. *)
Definition process_video_stream (video_path target_lang : string)
    (user_font_size : option Z) : M unit :=
  put_frame {| audio_path := None; video_id := None; segments := None |} ;;
  try_finally
    (try_except
       (process_video_stream_try video_path target_lang user_font_size)
       process_video_stream_except)
    process_video_stream_finally.

End VideoService.

(** ** The rest of [language_utils.py]

    The file system is a snapshot: [path_exists] is [os.path.exists], and
    [here] is [os.path.dirname(__file__)]. *)
Module Fonts.
Import PyStr LanguageUtils.

Definition RTL_LANGUAGES : list string := ["ar"; "he"; "fa"; "ur"].
Definition CJK_LANGUAGES : list string := ["zh"; "ja"; "ko"].

Definition is_rtl_language (lang_code : string) : bool :=
  str_in (normalize_lang_code lang_code) RTL_LANGUAGES.

(** [s.startswith(c)] and [s.endswith(c)] for a one-character [c] *)
Definition starts_with (c : ascii) (s : string) : bool :=
  match s with
  | String d _ => Ascii.eqb c d
  | EmptyString => false
  end.

Fixpoint ends_with (c : ascii) (s : string) : bool :=
  match s with
  | EmptyString => false
  | String d EmptyString => Ascii.eqb c d
  | String _ s' => ends_with c s'
  end.

(** [os.path.join(a, b)] of [posixpath] *)
Definition path_join (a b : string) : string :=
  if starts_with "/" b then b
  else match a with
       | EmptyString => b
       | _ => if ends_with "/" a then a ++ b else a ++ "/" ++ b
       end.

Definition font_map : list (string * string) :=
  [ ("he", "NotoSansHebrew-Regular.ttf"); ("ar", "NotoSansArabic-Regular.ttf");
    ("zh", "NotoSansSC-Regular.otf"); ("ja", "NotoSansJP-Regular.otf");
    ("ko", "NotoSansKR-Regular.otf") ].

Definition required_fonts : list string :=
  [ "NotoSans-Regular.ttf"; "NotoSansHebrew-Regular.ttf";
    "NotoSansArabic-Regular.ttf"; "NotoSansSC-Regular.otf";
    "NotoSansJP-Regular.otf"; "NotoSansKR-Regular.otf" ].

Section FileSystem.
Variable here : string.
Variable path_exists : string -> bool.

Definition fonts_dir : string :=
  path_join (path_join (path_join here "..") "assets") "fonts".

(** [font_map.get(normalized_code, 'NotoSans-Regular.ttf')] *)
Definition font_file (normalized_code : string) : string :=
  match dict_get font_map normalized_code with
  | Some f => f
  | None => "NotoSans-Regular.ttf"
  end.

Definition get_font_path (lang_code : string) : res string :=
  let normalized_code := normalize_lang_code lang_code in
  if negb (path_exists fonts_dir) then
    Raise (Exn FileNotFoundError ("Fonts directory not found: " ++ fonts_dir))
  else
    let font_path := path_join fonts_dir (font_file normalized_code) in
    if negb (path_exists font_path) then
      let default_path := path_join fonts_dir "NotoSans-Regular.ttf" in
      if path_exists default_path then Ok default_path
      else Raise (Exn FileNotFoundError ("Font file not found: " ++ font_path))
    else Ok font_path.

(** [missing] of [verify_fonts_exist] *)
Definition missing_fonts : list string :=
  List.filter (fun font => negb (path_exists (path_join fonts_dir font))) required_fonts.

Definition verify_fonts_exist : bool :=
  match missing_fonts with
  | [] => true
  | _ => false
  end.

End FileSystem.

(** [detect_language(text)], with [detect] of [langdetect] as [detector];
    [None] is a text that is [None], or no [str]. *)
Definition detect_language (detector : string -> res string) (text : option string)
  : string :=
  match text with
  | Some (String c t) =>
      match detector (String c t) with
      | Ok detected => normalize_lang_code detected
      | Raise _ => "en"
      end
  | _ => "en"
  end.

End Fonts.

(** ** The render stage: [_add_subtitles], [_burn_subtitles] and the
    regeneration stream of [routes/video.py]

    The stage talks to [ffmpeg], to the file system, to the record store
    and to [_generate_srt], which writes the subtitle file; what it does to
    them is recorded in a history of its own.  The font lookups of
    [get_font_path] read the file system as it is at that moment. *)
Module Render.

(** One stream of the answer of [ffmpeg.probe], as far as the code reads
    it; [None] is a missing key.  [width] and [height] are [int]s. *)
Record Stream :=
  { codec_type : option string;
    stream_width : option Z;
    stream_height : option Z }.

(** What is handed to [ffmpeg.output(...).run()]: the input, the [scale]
    and [pad] filters of a vertical video, the [subtitles] filter and the
    output; the codec options are the same in every call. *)
Record Graph :=
  { graph_input : string;
    graph_scale_pad : option (Z * Z * Z);  (* scale h; pad width, height *)
    graph_subtitles : string;
    graph_force_style : string;
    graph_original_size : string;
    graph_output : string }.

Inductive REvent :=
| RUuid4
| RGenerateSrt (subtitles : list Segment) (target_lang : string)
| RProbe (video_path : string)
| RRun (graph : Graph)
| RFallbackRun (video_path output_path srt_path : string)
| RPathExists (path : string)
| RRemove (path : string)
| RUpdateOutputPath (video_id output_path : string) (segments : list Segment)
| RYield (message : JDict).

Definition RHistory := list REvent.

Record Studio :=
  { studio_output_folder : string;                       (* self.output_folder *)
    studio_here : string;             (* os.path.dirname of language_utils.py *)
    studio_uuid4 : RHistory -> string;
    generate_srt : RHistory -> list Segment -> string -> res string;
    ffmpeg_probe : RHistory -> string -> res (list Stream);   (* probe['streams'] *)
    ffmpeg_run : RHistory -> Graph -> res unit;
    ffmpeg_fallback_run : RHistory -> string -> string -> string -> res unit;
    studio_path_exists : RHistory -> string -> bool;
    studio_remove : RHistory -> string -> res unit;
    (* video_model.update_output_path *)
    record_output_path : RHistory -> string -> string -> list Segment -> res unit }.

(** [str(z)] of an [int] *)
Definition str (z : Z) : string := DecimalString.NilZero.string_of_int (Z.to_int z).

(** [next(s for s in streams if s['codec_type'] == 'video')]; the
    [StopIteration] of an exhausted generator, whose [str] is empty, has no
    class of its own here. *)
Fixpoint first_video_stream (streams : list Stream) : res Stream :=
  match streams with
  | [] => Raise (Exn ExternalError "")
  | s :: rest =>
      match codec_type s with
      | None => Raise (Exn KeyError "'codec_type'")
      | Some c => if String.eqb c "video" then Ok s else first_video_stream rest
      end
  end.

(** [d[key]] *)
Definition item {A} (key : string) (value : option A) : res A :=
  match value with
  | Some a => Ok a
  | None => Raise (Exn KeyError ("'" ++ key ++ "'"))
  end.

Definition style_of (font_path : string) (d : Layout.Dimensions) (width height : Z)
  : list string :=
  match d with
  | (font_size, max_lines, margin_v, line_height, h_margin, max_chars) =>
      [ "FontName=" ++ font_path;
        "FontSize=" ++ str font_size;
        "PrimaryColour=&H00FFFFFF";
        "BackColour=&H80000000";
        "BorderStyle=4";
        "Outline=0";
        "Shadow=0";
        "MarginL=" ++ str h_margin;
        "MarginR=" ++ str h_margin;
        "MarginV=" ++ str margin_v;
        "Alignment=2";
        "WrapStyle=1";
        "PlayResX=" ++ str width;
        "PlayResY=" ++ str height;
        "LineSpacing=" ++ str (line_height - font_size);
        "MaxLineCount=" ++ str max_lines;
        "MaximumLineLength=" ++ str max_chars ]
  end.

(** The style of [_burn_subtitles]. *)
Definition burn_style_of (font_path : string) (d : Layout.Dimensions) (width height : Z)
  : list string :=
  match d with
  | (font_size, _, margin_v, line_height, h_margin, _) =>
      [ "FontName=" ++ font_path;
        "FontSize=" ++ str font_size;
        "PrimaryColour=&H00FFFFFF";
        "BackColour=&H80000000";
        "BorderStyle=4";
        "Outline=0";
        "Shadow=0";
        "MarginL=" ++ str h_margin;
        "MarginR=" ++ str h_margin;
        "MarginV=" ++ str margin_v;
        "Alignment=2";
        "WrapStyle=1";
        "PlayResX=" ++ str width;
        "PlayResY=" ++ str height;
        "LineSpacing=" ++ str (line_height - font_size) ]
  end.

Section AddSubtitles.
Variable W : Studio.

(** Computations over the history of the stage. *)
Definition R (A : Type) : Type := RHistory -> res A * RHistory.

Definition ret {A} (a : A) : R A := fun h => (Ok a, h).
Definition raise {A} (e : exn) : R A := fun h => (Raise e, h).
Definition lift {A} (r : res A) : R A := fun h => (r, h).
Definition bind {A B} (m : R A) (k : A -> R B) : R B :=
  fun h => match m h with
           | (Ok a, h') => k a h'
           | (Raise e, h') => (Raise e, h')
           end.
Definition try_except {A} (m : R A) (handler : exn -> R A) : R A :=
  fun h => match m h with
           | (Ok a, h') => (Ok a, h')
           | (Raise e, h') => handler e h'
           end.
Definition try_finally {A} (m : R A) (f : R unit) : R A :=
  fun h => match m h with
           | (r, h') =>
               match f h' with
               | (Ok _, h'') => (r, h'')
               | (Raise e, h'') => (Raise e, h'')
               end
           end.
Definition call {A} (ev : REvent) (answer : RHistory -> res A) : R A :=
  fun h => (answer h, (h ++ [ev])%list).

Notation "x <- m ;; k" := (bind m (fun x => k))
  (at level 100, m at next level, right associativity).
Notation "m ;; k" := (bind m (fun _ => k))
  (at level 100, right associativity).

(** The body of the [try] of [_add_subtitles]. *)
Definition render (video_path srt_path output_path target_lang : string)
    (user_font_size : option Z) : R string :=
  streams <- call (RProbe video_path) (fun h => ffmpeg_probe W h video_path) ;;
  video_stream <- lift (first_video_stream streams) ;;
  width <- lift (item "width" (stream_width video_stream)) ;;
  height <- lift (item "height" (stream_height video_stream)) ;;
  let dimensions := Layout._calculate_subtitle_properties width height user_font_size in
  font_path <- (fun h => (Fonts.get_font_path (studio_here W) (studio_path_exists W h)
                            target_lang, h)) ;;
  let style := style_of font_path dimensions width height in
  ratio <- lift (Layout.int_truediv width height) ;;
  scale_pad <-
    (if (ratio <? 0.6)%float then
       scaled <- lift (Layout.times (Layout.Int height) 0.92) ;;
       h_scaled <- lift (Layout.int_of_float scaled) ;;
       ret (Some (h_scaled, width, height))
     else ret None) ;;
  let graph :=
    {| graph_input := video_path;
       graph_scale_pad := scale_pad;
       graph_subtitles := srt_path;
       graph_force_style := PyStr.join "," style;
       graph_original_size := str width ++ "x" ++ str height;
       graph_output := output_path |} in
  call (RRun graph) (fun h => ffmpeg_run W h graph) ;;
  ret output_path.

(** [except ffmpeg.Error: ...] and [except Exception: raise].  The handler
    of an [ffmpeg.Error] first builds [error_msg], which it only logs, from
    the decoded [stderr]; when the bytes do not decode, the
    [UnicodeDecodeError] leaves the handler and no fallback is tried. *)
Definition render_except (video_path srt_path output_path : string) (e : exn)
  : R string :=
  match exn_class e with
  | FFmpegError stderr =>
      text <- lift (stderr_text stderr (exn_str e)) ;;
      let error_msg := "FFmpeg error: " ++ text in
      call (RFallbackRun video_path output_path srt_path)
        (fun h => ffmpeg_fallback_run W h video_path output_path srt_path) ;;
      ret output_path
  | _ => raise e
  end.

(** The [finally] block. *)
Definition render_finally (srt_path : string) : R unit :=
  found <- call (RPathExists srt_path) (fun h => Ok (studio_path_exists W h srt_path)) ;;
  if found then
    try_except (call (RRemove srt_path) (fun h => studio_remove W h srt_path))
      (fun _ => ret tt)
  else ret tt.

Definition _add_subtitles (video_path : string) (subtitles : list Segment)
    (target_lang : string) (user_font_size : option Z) : R string :=
  match subtitles with
  | [] => raise (Exn ValueError "No subtitles to add")
  | _ =>
      u <- call RUuid4 (fun h => Ok (studio_uuid4 W h)) ;;
      let output_path := Fonts.path_join (studio_output_folder W) (u ++ ".mp4") in
      srt_path <- call (RGenerateSrt subtitles target_lang)
                    (fun h => generate_srt W h subtitles target_lang) ;;
      try_finally
        (try_except
           (render video_path srt_path output_path target_lang user_font_size)
           (render_except video_path srt_path output_path))
        (render_finally srt_path)
  end.

Definition _burn_subtitles (video_path srt_path target_lang : string) (font_size : Z)
  : R string :=
  try_except
    (u <- call RUuid4 (fun h => Ok (studio_uuid4 W h)) ;;
     let output_path :=
       Fonts.path_join (studio_output_folder W) ("regenerated_" ++ u ++ ".mp4") in
     streams <- call (RProbe video_path) (fun h => ffmpeg_probe W h video_path) ;;
     video_stream <- lift (first_video_stream streams) ;;
     width <- lift (item "width" (stream_width video_stream)) ;;
     height <- lift (item "height" (stream_height video_stream)) ;;
     let dimensions :=
       Layout._calculate_subtitle_properties width height (Some font_size) in
     font_path <- (fun h => (Fonts.get_font_path (studio_here W) (studio_path_exists W h)
                               target_lang, h)) ;;
     let style := burn_style_of font_path dimensions width height in
     let graph :=
       {| graph_input := video_path;
          graph_scale_pad := None;
          graph_subtitles := srt_path;
          graph_force_style := PyStr.join "," style;
          graph_original_size := str width ++ "x" ++ str height;
          graph_output := output_path |} in
     call (RRun graph) (fun h => ffmpeg_run W h graph) ;;
     ret output_path)
    (fun e => raise e).

(** [yield] of one message, as a server-sent event *)
Definition yield (message : JDict) : R unit :=
  call (RYield message) (fun _ => Ok tt).

(** [error_data]: [str(e)] and the progress -1 *)
Definition error_message (e : exn) : JDict :=
  [("error", JStr (exn_str e)); ("progress", JInt (-1))].

(** The [finally] block of [generate]. *)
Definition regenerate_finally (srt_path : option string) : R unit :=
  match srt_path with
  | Some (String c path) =>
      found <- call (RPathExists (String c path))
                 (fun h => Ok (studio_path_exists W h (String c path))) ;;
      if found then
        try_except
          (call (RRemove (String c path)) (fun h => studio_remove W h (String c path)))
          (fun _ => ret tt)
      else ret tt
  | _ => ret tt
  end.

(** The generator [generate] of [regenerate_video] in [routes/video.py],
    run to its end, with [video['original_path']] as [original_path] and
    the segments of the request taken to be segments.  Its local variable
    [srt_path] is [None] until [_generate_srt] has returned, so the run
    splits there. *)
Definition regenerate (video_id original_path : string) (segments : list Segment)
    (target_lang : string) (font_size : Z) : R unit :=
  yield [("step", JStr "Generating subtitles"); ("progress", JInt 30)] ;;
  fun h =>
    match call (RGenerateSrt segments target_lang)
            (fun h => generate_srt W h segments target_lang) h with
    | (Raise e, h') =>
        try_finally (yield (error_message e)) (regenerate_finally None) h'
    | (Ok srt_path, h') =>
        try_finally
          (try_except
             (yield [("step", JStr "Processing video"); ("progress", JInt 60)] ;;
              output_path <- _burn_subtitles original_path srt_path target_lang
                               font_size ;;
              yield [("step", JStr "Finalizing"); ("progress", JInt 90)] ;;
              call (RUpdateOutputPath video_id output_path segments)
                (fun h => record_output_path W h video_id output_path segments) ;;
              yield [ ("step", JStr "Completed"); ("progress", JInt 100);
                      ("output_path", JStr output_path);
                      ("segments", JSegments segments) ])
             (fun e => yield (error_message e)))
          (regenerate_finally (Some srt_path)) h'
    end.

End AddSubtitles.

End Render.

(** ** Concrete collaborators, to run the functions on *)
Module Fixtures.

Definition unavailable {A} : res A := Raise (Exn ExternalError "unavailable").

(** [float] on a [str] in these worlds: it reads no string as a number.
    No response below holds a string where a number is expected. *)
Definition no_number (s : string) : res float :=
  Raise (Exn ValueError ("could not convert string to float: '" ++ s ++ "'")).

(** A world where no service answers and no file exists. *)
Definition offline : World :=
  {| env_GROQ_API_KEY := None;
     config_GROQ_API_KEY := None;
     groq_Client := fun _ _ => unavailable;
     requests_get := fun _ _ => unavailable;
     MarianMTModel_from_pretrained := fun _ _ => unavailable;
     MarianTokenizer_from_pretrained := fun _ _ => unavailable;
     chat_completions_create := fun _ _ _ _ => unavailable;
     tokenizer_call := fun _ _ _ => unavailable;
     model_generate := fun _ _ _ => unavailable;
     tokenizer_decode := fun _ _ _ => unavailable;
     open_rb := fun _ _ => unavailable;
     audio_translations_create := fun _ _ _ => unavailable;
     audio_transcriptions_create := fun _ _ _ _ => unavailable;
     validate_and_get_video_id := fun _ _ => "65f0c0ffee0123456789abcd";
     find_one := fun _ _ => unavailable;
     uuid4 := fun _ => "00000000-0000-4000-8000-000000000000";
     ffmpeg_extract := fun _ _ _ => unavailable;
     add_subtitles := fun _ _ _ _ _ => unavailable;
     os_path_exists := fun _ _ => false;
     os_remove := fun _ _ => unavailable;
     update_one := fun _ _ _ => unavailable;
     output_folder := "/app/uploads/output";
     float_of_str := no_number |}.

(** A model repository that has [opus-mt-he-en] and [opus-mt-en-fr] and no
    other model; loading succeeds and yields a new object each time. *)
Definition pivot_hub : World :=
  {| env_GROQ_API_KEY := env_GROQ_API_KEY offline;
     config_GROQ_API_KEY := config_GROQ_API_KEY offline;
     groq_Client := groq_Client offline;
     requests_get := fun _ url =>
       if String.eqb url "https://huggingface.co/api/models/Helsinki-NLP/opus-mt-he-en"
          || String.eqb url "https://huggingface.co/api/models/Helsinki-NLP/opus-mt-en-fr"
       then Ok 200%Z else Ok 404%Z;
     MarianMTModel_from_pretrained := fun h name =>
       Ok {| model_name_or_path := name; model_obj := length h |};
     MarianTokenizer_from_pretrained := fun h name =>
       Ok {| name_or_path := name; tokenizer_obj := length h |};
     chat_completions_create := chat_completions_create offline;
     tokenizer_call := tokenizer_call offline;
     model_generate := model_generate offline;
     tokenizer_decode := tokenizer_decode offline;
     open_rb := open_rb offline;
     audio_translations_create := audio_translations_create offline;
     audio_transcriptions_create := audio_transcriptions_create offline;
     validate_and_get_video_id := validate_and_get_video_id offline;
     find_one := find_one offline;
     uuid4 := uuid4 offline;
     ffmpeg_extract := ffmpeg_extract offline;
     add_subtitles := add_subtitles offline;
     os_path_exists := os_path_exists offline;
     os_remove := os_remove offline;
     update_one := update_one offline;
     output_folder := output_folder offline;
     float_of_str := float_of_str offline |}.

(** A speech service that answers every request with three segments: a
    good one, one that ends before it starts, and one that has no text. *)
Definition whisper_response : Response :=
  [ ("language", Json.VStr "Spanish");
    ("segments",
     Json.VList
       [ Json.VDict [ ("start", Json.VFloat 0); ("end", Json.VFloat 2.5);
                      ("text", Json.VStr " Hola mundo ") ];
         Json.VDict [ ("start", Json.VFloat 3); ("end", Json.VFloat 2.5);
                      ("text", Json.VStr "al reves") ];
         Json.VDict [ ("start", Json.VFloat 4); ("end", Json.VFloat 5) ] ]) ].

(** A world where every service answers: the speech service with
    [response], the record store with a video that has no edited segments. *)
Definition speech (response : Response) : World :=
  {| env_GROQ_API_KEY := Some "gsk_test";
     config_GROQ_API_KEY := None;
     groq_Client := fun _ _ => Ok 1%nat;
     requests_get := requests_get offline;
     MarianMTModel_from_pretrained := MarianMTModel_from_pretrained offline;
     MarianTokenizer_from_pretrained := MarianTokenizer_from_pretrained offline;
     chat_completions_create := chat_completions_create offline;
     tokenizer_call := tokenizer_call offline;
     model_generate := model_generate offline;
     tokenizer_decode := tokenizer_decode offline;
     open_rb := fun _ _ => Ok tt;
     audio_translations_create := fun _ _ _ => Ok response;
     audio_transcriptions_create := fun _ _ _ _ => Ok response;
     validate_and_get_video_id := validate_and_get_video_id offline;
     find_one := fun _ _ => Ok (Some {| rec_segments := Some [] |});
     uuid4 := uuid4 offline;
     ffmpeg_extract := fun _ _ _ => Ok tt;
     add_subtitles := add_subtitles offline;
     os_path_exists := fun _ _ => true;
     os_remove := fun _ _ => Ok tt;
     update_one := fun _ _ _ => Ok tt;
     output_folder := output_folder offline;
     float_of_str := float_of_str offline |}.

Definition whisper : World := speech whisper_response.

(** The speech service hears nothing. *)
Definition silent : World :=
  speech [("language", Json.VStr "en"); ("segments", Json.VList [])].

(** The same, with a record store that takes no write. *)
Definition store_down : World :=
  {| env_GROQ_API_KEY := env_GROQ_API_KEY silent;
     config_GROQ_API_KEY := config_GROQ_API_KEY silent;
     groq_Client := groq_Client silent;
     requests_get := requests_get silent;
     MarianMTModel_from_pretrained := MarianMTModel_from_pretrained silent;
     MarianTokenizer_from_pretrained := MarianTokenizer_from_pretrained silent;
     chat_completions_create := chat_completions_create silent;
     tokenizer_call := tokenizer_call silent;
     model_generate := model_generate silent;
     tokenizer_decode := tokenizer_decode silent;
     open_rb := open_rb silent;
     audio_translations_create := audio_translations_create silent;
     audio_transcriptions_create := audio_transcriptions_create silent;
     validate_and_get_video_id := validate_and_get_video_id silent;
     find_one := find_one silent;
     uuid4 := uuid4 silent;
     ffmpeg_extract := ffmpeg_extract silent;
     add_subtitles := add_subtitles silent;
     os_path_exists := os_path_exists silent;
     os_remove := os_remove silent;
     update_one := fun _ _ _ => Raise (Exn ExternalError "connection refused");
     output_folder := output_folder silent;
     float_of_str := float_of_str silent |}.

(** A service object whose client is there. *)
Definition ready : State :=
  {| self := {| client := Some 1%nat; translation_models := ∅ |};
     history := [];
     frame := {| audio_path := None; video_id := None; segments := None |} |}.

(** A service object right after [__init__], before any call. *)
Definition fresh : State :=
  {| self := {| client := None; translation_models := ∅ |};
     history := [];
     frame := {| audio_path := None; video_id := None; segments := None |} |}.

End Fixtures.

(** ** Properties of the translation model resolver and of translation *)
Section ResolverFacts.
Variable W : World.

Import LanguageUtils.

(** *** Reading an outcome backwards through the monad *)

Lemma bind_inv {A B} (m : M A) (k : A -> M B) st r st1 :
  bind m k st = (r, st1) ->
  (exists a st', m st = (Ok a, st') /\ k a st' = (r, st1))
  \/ (exists e, m st = (Raise e, st1) /\ r = Raise e).
Proof.
  unfold bind. destruct (m st) as [[a|e] st'].
  - left. eauto.
  - intros [= <- <-]. right. eauto.
Qed.

Lemma bind_eq {A B} (m : M A) (k : A -> M B) st :
  bind m k st = match m st with
                | (Ok a, st') => k a st'
                | (Raise e, st') => (Raise e, st')
                end.
Proof. reflexivity. Qed.

Lemma try_except_inv {A} (m : M A) (h : exn -> M A) st r st1 :
  try_except m h st = (r, st1) ->
  (exists a, m st = (Ok a, st1) /\ r = Ok a)
  \/ (exists e st', m st = (Raise e, st') /\ h e st' = (r, st1)).
Proof.
  unfold try_except. destruct (m st) as [[a|e] st'].
  - intros [= <- <-]. left. eauto.
  - right. eauto.
Qed.

Lemma call_inv {A} ev (f : History -> res A) st r st1 :
  call ev f st = (r, st1) ->
  r = f (history st) /\ self st1 = self st /\ frame st1 = frame st
  /\ history st1 = (history st ++ [ev])%list.
Proof. unfold call. intros [= <- <-]. auto. Qed.

Lemma ret_inv {A} (a : A) st r st1 : ret a st = (r, st1) -> r = Ok a /\ st1 = st.
Proof. unfold ret. intros [= <- <-]. auto. Qed.

Lemma raise_inv {A} e st (r : res A) st1 :
  raise e st = (r, st1) -> r = Raise e /\ st1 = st.
Proof. unfold raise. intros [= <- <-]. auto. Qed.

Lemma lift_inv {A} (x : res A) st r st1 : lift x st = (r, st1) -> r = x /\ st1 = st.
Proof. unfold lift. intros [= <- <-]. auto. Qed.

Lemma get_self_inv st r st1 : get_self st = (r, st1) -> r = Ok (self st) /\ st1 = st.
Proof. unfold get_self. intros [= <- <-]. auto. Qed.

Lemma put_self_inv s st r st1 :
  put_self s st = (r, st1) ->
  r = Ok tt /\ self st1 = s /\ frame st1 = frame st /\ history st1 = history st.
Proof. unfold put_self. intros [= <- <-]. auto. Qed.

Lemma get_frame_inv st r st1 : get_frame st = (r, st1) -> r = Ok (frame st) /\ st1 = st.
Proof. unfold get_frame. intros [= <- <-]. auto. Qed.

Lemma put_frame_inv f st r st1 :
  put_frame f st = (r, st1) ->
  r = Ok tt /\ self st1 = self st /\ frame st1 = f /\ history st1 = history st.
Proof. unfold put_frame. intros [= <- <-]. auto. Qed.

Lemma cache_store_inv k v st r st1 :
  cache_store k v st = (r, st1) ->
  r = Ok tt /\ frame st1 = frame st /\ history st1 = history st
  /\ self st1 = {| client := client (self st);
                   translation_models := <[k := v]> (translation_models (self st)) |}.
Proof. unfold cache_store, bind, get_self, put_self. intros [= <- <-]. auto. Qed.

Lemma cache_load_inv k st r st1 :
  cache_load k st = (r, st1) ->
  st1 = st /\
  ((exists v, translation_models (self st) !! k = Some v /\ r = Ok v)
   \/ (translation_models (self st) !! k = None /\ r = Raise (Exn KeyError k))).
Proof.
  unfold cache_load, bind, get_self, ret, raise.
  destruct (translation_models (self st) !! k) eqn:E; intros [= <- <-]; eauto.
Qed.

Ltac minv1 :=
  match goal with
  | H : cache_store _ _ _ = (_, _) |- _ =>
      apply cache_store_inv in H; destruct H as (? & ? & ? & ?)
  | H : cache_load _ _ = (_, _) |- _ =>
      apply cache_load_inv in H; destruct H as [? [(? & ? & ?) | (? & ?)]]
  | H : bind _ _ _ = (_, _) |- _ =>
      apply bind_inv in H; destruct H as [(? & ? & ? & H) | (? & H & ?)]
  | H : try_except _ _ _ = (_, _) |- _ =>
      apply try_except_inv in H; destruct H as [(? & H & ?) | (? & ? & ? & H)]
  | H : call _ _ _ = (_, _) |- _ =>
      apply call_inv in H; destruct H as (? & ? & ? & ?)
  | H : call_total _ _ _ = (_, _) |- _ =>
      apply call_inv in H; destruct H as (? & ? & ? & ?)
  | H : ret _ _ = (_, _) |- _ => apply ret_inv in H; destruct H as [? ?]
  | H : raise _ _ = (_, _) |- _ => apply raise_inv in H; destruct H as [? ?]
  | H : lift _ _ = (_, _) |- _ => apply lift_inv in H; destruct H as [? ?]
  | H : get_self _ = (_, _) |- _ => apply get_self_inv in H; destruct H as [? ?]
  | H : put_self _ _ = (_, _) |- _ =>
      apply put_self_inv in H; destruct H as (? & ? & ? & ?)
  | H : get_frame _ = (_, _) |- _ => apply get_frame_inv in H; destruct H as [? ?]
  | H : put_frame _ _ = (_, _) |- _ =>
      apply put_frame_inv in H; destruct H as (? & ? & ? & ?)
  | H : Ok _ = Ok _ |- _ => injection H as H
  | H : Ok _ = Raise _ |- _ => discriminate H
  | H : Raise _ = Ok _ |- _ => discriminate H
  | H : Raise _ = Raise _ |- _ => injection H as H
  | H : Some _ = None |- _ => discriminate H
  | H : None = Some _ |- _ => discriminate H
  | H : Some _ = Some _ |- _ => injection H as H
  end.
Ltac minv := repeat (minv1; subst).

(** reading back an entry that was just stored *)
Ltac cache_hit :=
  match goal with
  | Hs : self ?x = {| client := _; translation_models := <[ ?k := _ ]> _ |},
    Hl : translation_models (self ?x) !! ?k = _ |- _ =>
      rewrite Hs in Hl; cbn [translation_models] in Hl;
      rewrite lookup_insert_eq in Hl
  end.

(** *** The cache of direct models *)

Lemma model_exists_inv name st r st1 :
  _model_exists_on_hf W name st = (r, st1) ->
  (exists b, r = Ok b) /\ self st1 = self st /\ frame st1 = frame st.
Proof.
  unfold _model_exists_on_hf. intros H. minv; repeat split; eauto; congruence.
Qed.

(** What the loop over the variants leaves: nothing but the history changes
    when it finds no model, and one entry of a single model and tokenizer
    is added to the cache when it finds one. *)
Lemma load_direct_spec names : forall st r st1,
  load_direct W names st = (Ok r, st1) ->
  frame st1 = frame st /\
  match r with
  | None => self st1 = self st
  | Some v =>
      exists k m t, In k names /\ v = {| mi_model := One m; mi_tokenizer := One t |}
        /\ self st1 = {| client := client (self st);
                         translation_models := <[k := v]> (translation_models (self st)) |}
  end.
Proof.
  induction names as [|n rest IH]; intros st r st1.
  - cbn. intros [= <- <-]. auto.
  - cbn [load_direct]. intros H.
    apply bind_inv in H. destruct H as [(o & st' & Htry & H) | (? & _ & ?)]; [|discriminate].
    assert (Hstep : frame st' = frame st /\
              match o with
              | None => self st' = self st
              | Some v => exists m t, v = {| mi_model := One m; mi_tokenizer := One t |}
                  /\ self st' = {| client := client (self st);
                                   translation_models := <[n := v]> (translation_models (self st)) |}
              end).
    { apply try_except_inv in Htry. destruct Htry as [(a & Hb & E) | (e & st'' & Hb & Hh)].
      - injection E as <-. apply bind_inv in Hb.
        destruct Hb as [(found & st2 & Hp & Hb) | (? & _ & ?)]; [|discriminate].
        apply model_exists_inv in Hp. destruct Hp as (_ & Hs2 & Hf2).
        destruct found.
        + minv; cache_hit; minv.
          split; [congruence|].
          do 2 eexists. split; [reflexivity|]. congruence.
        + minv. auto.
      - cbv beta in Hh. apply ret_inv in Hh. destruct Hh as [[= ->] ->].
        apply bind_inv in Hb.
        destruct Hb as [(found & st2 & Hp & Hb) | (? & Hp & _)].
        + apply model_exists_inv in Hp. destruct Hp as (_ & Hs2 & Hf2).
          destruct found; [|minv].
          minv; try (split; congruence).
          cache_hit. discriminate.
        + apply model_exists_inv in Hp. destruct Hp as ((b & E) & _). discriminate E. }
    destruct Hstep as (Hf & Ho). destruct o as [v|].
    + minv. split; [exact Hf|]. destruct Ho as (m & t & -> & Hs).
      exists n, m, t. repeat split; [now left | exact Hs].
    + apply IH in H. destruct H as (Hf1 & Hr). split; [congruence|].
      destruct r as [v|].
      * destruct Hr as (k & m & t & Hin & -> & Hs).
        exists k, m, t. repeat split; [now right | rewrite Hs, Ho; reflexivity].
      * congruence.
Qed.

Lemma cached_variant_insert names (c : gmap string ModelInfo) k v :
  cached_variant names c = None -> In k names ->
  cached_variant names (<[k := v]> c) = Some v.
Proof.
  induction names as [|n rest IH]; [intros _ []|].
  cbn [cached_variant]. destruct (c !! n) eqn:E; [discriminate|].
  intros Hnone Hin. destruct (decide (k = n)) as [->|Hne].
  - now rewrite lookup_insert_eq.
  - rewrite lookup_insert_ne by exact Hne. rewrite E.
    apply IH; [exact Hnone|]. destruct Hin as [->|Hin]; [contradiction|exact Hin].
Qed.

(** A call that yields a direct model is answered from the cache when it is
    repeated: the same entry, with no probe, no load and no other effect. *)
Lemma direct_strategy_cached source target st v st1 :
  get_translation_model W source target st = (Ok (Some v), st1) ->
  (exists m, mi_model v = One m) ->
  get_translation_model W source target st1 = (Ok (Some v), st1).
Proof.
  unfold get_translation_model.
  destruct (_ && _); [intros H; minv|].
  set (names := model_variants _ _).
  intros H Hone. apply bind_inv in H.
  destruct H as [(sv & st' & Hg & H) | (? & Hg & ?)]; [|discriminate].
  apply get_self_inv in Hg. destruct Hg as [[= ->] ->].
  unfold bind at 1, get_self.
  destruct (cached_variant names (translation_models (self st))) as [v0|] eqn:Ec.
  - minv. now rewrite Ec.
  - apply bind_inv in H.
    destruct H as [(r & st2 & Hd & H) | (? & _ & ?)]; [|discriminate].
    apply load_direct_spec in Hd. destruct Hd as (Hf & Hd).
    destruct r as [v1|].
    + minv. destruct Hd as (k & m & t & Hin & _ & Hs).
      rewrite Hs. cbn [translation_models].
      now rewrite (cached_variant_insert _ _ _ _ Ec Hin).
    + exfalso. destruct Hone as (m & Hone).
      destruct (negb _); [|minv].
      apply bind_inv in H. destruct H as [(p & st3 & Hp & H) | (? & _ & ?)]; [|discriminate].
      destruct p as [res|]; [|minv].
      minv. unfold load_pivot in Hp.
      apply try_except_inv in Hp. destruct Hp as [(a & Hp & E) | (e & st4 & _ & Hh)]; [|minv].
      injection E as <-.
      apply bind_inv in Hp. destruct Hp as [(f1 & st4 & _ & Hp) | (? & _ & ?)]; [|discriminate].
      destruct (negb f1); [minv|].
      apply bind_inv in Hp. destruct Hp as [(f2 & st5 & _ & Hp) | (? & _ & ?)]; [|discriminate].
      destruct (negb f2); [minv|].
      minv; cache_hit; minv. discriminate Hone.
Qed.

(** A computation that returns, whatever the state. *)
Definition returns {A} (m : M A) : Prop :=
  forall st, exists a st', m st = (Ok a, st').

Lemma returns_ret {A} (a : A) : returns (ret a).
Proof. intros st. now exists a, st. Qed.

Lemma returns_bind {A B} (m : M A) (k : A -> M B) :
  returns m -> (forall a, returns (k a)) -> returns (bind m k).
Proof.
  intros Hm Hk st. unfold bind.
  destruct (Hm st) as (a & st1 & ->). apply Hk.
Qed.

Lemma returns_try_except {A} (m : M A) (h : exn -> M A) :
  (forall e, returns (h e)) -> returns (try_except m h).
Proof.
  intros Hh st. unfold try_except.
  destruct (m st) as [[a|e] st1]; [now exists a, st1 | apply Hh].
Qed.

Lemma returns_get_self : returns get_self.
Proof. intros st. now exists (self st), st. Qed.

Lemma returns_model_exists name : returns (_model_exists_on_hf W name).
Proof. apply returns_try_except. intros _. apply returns_ret. Qed.

Lemma returns_load_direct names : returns (load_direct W names).
Proof.
  induction names as [|n rest IH]; [apply returns_ret|].
  cbn [load_direct]. apply returns_bind.
  - apply returns_try_except. intros _. apply returns_ret.
  - intros [v|]; [apply returns_ret | exact IH].
Qed.

Lemma returns_load_pivot s t : returns (load_pivot W s t).
Proof. apply returns_try_except. intros _. apply returns_ret. Qed.

Lemma returns_get_translation_model s t : returns (get_translation_model W s t).
Proof.
  unfold get_translation_model.
  destruct (_ && _); [apply returns_ret|].
  apply returns_bind; [apply returns_get_self|]. intros sv.
  destruct (cached_variant _ _); [apply returns_ret|].
  apply returns_bind; [apply returns_load_direct|].
  intros [v|]; [apply returns_ret|].
  destruct (negb _); [|apply returns_ret].
  apply returns_bind; [apply returns_load_pivot|].
  intros [r|]; apply returns_ret.
Qed.

Lemma returns_resolve s t : returns (resolve W s t).
Proof.
  unfold resolve.
  destruct (String.eqb _ _); [apply returns_ret|].
  destruct (_ && _); [apply returns_ret|].
  apply returns_bind; [apply returns_get_translation_model|].
  intros [mi|]; apply returns_ret.
Qed.

(** [resolve] followed by [apply_strategy] is [translate_text]. *)
Lemma translate_text_resolve text s t st :
  translate_text W text s t st
  = bind (resolve W s t)
      (fun strategy =>
         apply_strategy W strategy text (normalize_lang_code s) (normalize_lang_code t)) st.
Proof.
  unfold translate_text, resolve, bind, ret.
  destruct (String.eqb _ _); [reflexivity|].
  destruct (_ && _); [reflexivity|].
  destruct (get_translation_model W (normalize_lang_code s) (normalize_lang_code t) st)
    as [[[mi|]|e] st1]; try reflexivity.
  unfold strategy_of. destruct (mi_model mi) eqn:E; unfold apply_strategy; now rewrite E.
Qed.

(** *** The translation stage *)

(** One turn of the loop of [_process_subtitles]: the segment put in the
    output for [sub], and the state after it. *)
Definition translate_segment (sub : Segment) (source_lang target_lang : string)
    (st : State) : Segment * State :=
  match translate_text W (seg_text sub) source_lang target_lang st with
  | (Ok translated_text, st') =>
      ({| seg_start := seg_start sub; seg_end := seg_end sub;
          seg_text := translated_text |}, st')
  | (Raise _, st') => (sub, st')
  end.

Lemma process_subtitles_cons sub rest s t st :
  _process_subtitles W (sub :: rest) s t st
  = match _process_subtitles W rest s t (snd (translate_segment sub s t st)) with
    | (Ok processed, st2) => (Ok (fst (translate_segment sub s t st) :: processed), st2)
    | (Raise e, st2) => (Raise e, st2)
    end.
Proof.
  cbn [_process_subtitles]. unfold translate_segment, bind, try_except, ret.
  destruct (translate_text W (seg_text sub) s t st) as [[tr|e] st1]; reflexivity.
Qed.

Lemma returns_process_subtitles subs s t : returns (_process_subtitles W subs s t).
Proof.
  induction subs as [|sub rest IH]; intros st; [now exists [], st|].
  rewrite process_subtitles_cons.
  destruct (IH (snd (translate_segment sub s t st))) as (out & st2 & ->). eauto.
Qed.

(** The state in which the segment of index [i] is translated. *)
Definition state_before (i : nat) (subs : list Segment) (s t : string) (st : State)
  : State :=
  snd (_process_subtitles W (firstn i subs) s t st).

Lemma state_before_S i sub rest s t st :
  state_before (S i) (sub :: rest) s t st
  = state_before i rest s t (snd (translate_segment sub s t st)).
Proof.
  unfold state_before. cbn [firstn]. rewrite process_subtitles_cons.
  now destruct (_process_subtitles W (firstn i rest) s t _) as [[o|e] st2].
Qed.

Lemma process_subtitles_nth subs s t : forall st out st',
  _process_subtitles W subs s t st = (Ok out, st') ->
  length out = length subs
  /\ forall i sub, nth_error subs i = Some sub ->
       nth_error out i = Some (fst (translate_segment sub s t (state_before i subs s t st))).
Proof.
  induction subs as [|sub0 rest IH]; intros st out st'.
  - cbn. intros [= <- <-]. split; [reflexivity|]. now intros [|i] sub.
  - rewrite process_subtitles_cons.
    destruct (_process_subtitles W rest s t _) as [[processed|e] st2] eqn:E; [|discriminate].
    intros [= <- <-]. apply IH in E. destruct E as (Hlen & Hnth).
    split; [cbn; now rewrite Hlen|].
    intros [|i] sub; cbn [nth_error].
    + now intros [= ->].
    + rewrite state_before_S. apply Hnth.
Qed.

Lemma process_subtitles_timing subs s t : forall st out st',
  _process_subtitles W subs s t st = (Ok out, st') ->
  map seg_start out = map seg_start subs /\ map seg_end out = map seg_end subs.
Proof.
  induction subs as [|sub0 rest IH]; intros st out st'.
  - cbn. now intros [= <- <-].
  - rewrite process_subtitles_cons.
    destruct (_process_subtitles W rest s t _) as [[processed|e] st2] eqn:E; [|discriminate].
    intros [= <- <-]. apply IH in E. destruct E as (E1 & E2).
    cbn [map]. rewrite E1, E2. unfold translate_segment.
    now destruct (translate_text W (seg_text sub0) s t st) as [[tr|e] st1].
Qed.

(** *** The remote fallback *)

Lemma ensure_initialized_client st st1 :
  ensure_initialized W st = (Ok tt, st1) -> exists c, client (self st1) = Some c.
Proof.
  unfold ensure_initialized. intros H.
  apply bind_inv in H. destruct H as [(s & st' & Hg & H) | (? & Hg & ?)]; [|discriminate].
  apply get_self_inv in Hg. destruct Hg as [[= ->] ->].
  destruct (client (self st)) as [c|] eqn:Ec.
  - minv. eauto.
  - destruct (if truthy _ then _ else _) as [[|a k]|]; try now minv.
    minv. match goal with Hs : self _ = _ |- _ => rewrite Hs end. cbn. eauto.
Qed.

(** *** The transcription stage *)

(** What the loop keeps of a segment of the response: the segment is a
    dict that has the three keys, its [end] compares greater than its
    [start], its [text] is a string that is not empty once stripped, and
    [float] reads both times; the segment kept has those floats and the
    stripped text. *)
Definition kept (raw : Json.Value) (seg : Segment) : Prop :=
  exists d start end_ text,
    raw = Json.VDict d
    /\ Json.lookup d "start" = Some start
    /\ Json.lookup d "end" = Some end_
    /\ Json.lookup d "text" = Some (Json.VStr text)
    /\ Json.gt end_ start = Ok true
    /\ PyStr.strip text <> ""
    /\ Json.to_float (float_of_str W) start = Ok (seg_start seg)
    /\ Json.to_float (float_of_str W) end_ = Ok (seg_end seg)
    /\ seg_text seg = PyStr.strip text.





(** What the stage reads of a response before its loop.  The language is
    that of the response, which has to be a string, and [source] when the
    response has none. *)
Definition language_read (source : string) (response : Response) (language : string)
  : Prop :=
  (Json.lookup response "language" = None /\ language = source)
  \/ Json.lookup response "language" = Some (Json.VStr language).

(** The segments that the loop goes through: none when the response has no
    [segments] or empty ones (an empty list, string or dict); and else the
    response has to hold a list that begins with a dict whose [text], if
    it has one, is a string or a list, the two kinds of value that the
    sample text can be cut from. *)
Definition segments_read (response : Response) (items : list Json.Value) : Prop :=
  (Json.lookup response "segments" = None /\ items = [])
  \/ (items = []
      /\ (Json.lookup response "segments" = Some (Json.VList [])
          \/ Json.lookup response "segments" = Some (Json.VStr "")
          \/ Json.lookup response "segments" = Some (Json.VDict [])))
  \/ (exists d rest,
        Json.lookup response "segments" = Some (Json.VList (Json.VDict d :: rest))
        /\ items = Json.VDict d :: rest
        /\ (Json.lookup d "text" = None
            \/ (exists t, Json.lookup d "text" = Some (Json.VStr t))
            \/ (exists l, Json.lookup d "text" = Some (Json.VList l)))).



(** What is read of a response is determined by the response. *)
Lemma language_read_unique source response l1 l2 :
  language_read source response l1 -> language_read source response l2 -> l1 = l2.
Proof. unfold language_read. intros [[E ->] | E] [[E' ->] | E']; congruence. Qed.

Lemma segments_read_unique response i1 i2 :
  segments_read response i1 -> segments_read response i2 -> i1 = i2.
Proof.
  unfold segments_read.
  intros [[E ->] | [[-> E] | (d & rest & E & -> & _)]]
         [[E' ->] | [[-> E'] | (d' & rest' & E' & -> & _)]];
    try reflexivity; try congruence;
    repeat match goal with H : _ \/ _ |- _ => destruct H end; congruence.
Qed.



(** *** The local variables of the orchestrator *)

(** A computation that leaves the local variables of [process_video_stream]
    alone. *)
Definition keeps_frame {A} (m : M A) : Prop :=
  forall st r st1, m st = (r, st1) -> frame st1 = frame st.

Lemma keeps_frame_ret {A} (a : A) : keeps_frame (ret a).
Proof. intros st r st1 H. now minv. Qed.

Lemma keeps_frame_raise {A} e : keeps_frame (@raise A e).
Proof. intros st r st1 H. now minv. Qed.

Lemma keeps_frame_lift {A} (x : res A) : keeps_frame (lift x).
Proof. intros st r st1 H. now minv. Qed.

Lemma keeps_frame_call {A} ev (f : History -> res A) : keeps_frame (call ev f).
Proof. intros st r st1 H. now minv. Qed.

Lemma keeps_frame_call_total {A} ev (f : History -> A) : keeps_frame (call_total ev f).
Proof. apply keeps_frame_call. Qed.

Lemma keeps_frame_get_self : keeps_frame get_self.
Proof. intros st r st1 H. now minv. Qed.

Lemma keeps_frame_put_self s : keeps_frame (put_self s).
Proof. intros st r st1 H. now minv. Qed.

Lemma keeps_frame_get_frame : keeps_frame get_frame.
Proof. intros st r st1 H. now minv. Qed.

Lemma keeps_frame_bind {A B} (m : M A) (k : A -> M B) :
  keeps_frame m -> (forall a, keeps_frame (k a)) -> keeps_frame (bind m k).
Proof.
  intros Hm Hk st r st1 H. apply bind_inv in H.
  destruct H as [(a & st' & H1 & H2) | (e & H1 & _)].
  - rewrite (Hk a _ _ _ H2). eapply Hm, H1.
  - eapply Hm, H1.
Qed.

Lemma keeps_frame_try_except {A} (m : M A) (h : exn -> M A) :
  keeps_frame m -> (forall e, keeps_frame (h e)) -> keeps_frame (try_except m h).
Proof.
  intros Hm Hh st r st1 H. apply try_except_inv in H.
  destruct H as [(a & H1 & _) | (e & st' & H1 & H2)].
  - eapply Hm, H1.
  - rewrite (Hh e _ _ _ H2). eapply Hm, H1.
Qed.

Create HintDb frame discriminated.
#[local] Hint Resolve keeps_frame_ret keeps_frame_raise keeps_frame_lift
  keeps_frame_call keeps_frame_call_total keeps_frame_get_self keeps_frame_put_self
  keeps_frame_get_frame : frame.

(** takes a computation apart along its binds, handlers and case
    distinctions, down to the steps known to keep the frame *)
Ltac frame_steps :=
  repeat first
    [ progress auto with frame
    | match goal with
      | |- keeps_frame (bind _ _) => apply keeps_frame_bind; [|intros ?]
      | |- keeps_frame (try_except _ _) => apply keeps_frame_try_except; [|intros ?]
      | |- keeps_frame (match ?x with _ => _ end) => destruct x
      | |- keeps_frame (if ?x then _ else _) => destruct x
      | |- keeps_frame (let _ := _ in _) => cbv zeta
      end ].

Lemma keeps_frame_cache_store k v : keeps_frame (cache_store k v).
Proof. unfold cache_store. frame_steps. Qed.

Lemma keeps_frame_cache_load k : keeps_frame (cache_load k).
Proof. unfold cache_load. frame_steps. Qed.

Lemma keeps_frame_the_client : keeps_frame the_client.
Proof. unfold the_client. frame_steps. Qed.

Lemma keeps_frame_index0 {A} (l : list A) : keeps_frame (index0 l).
Proof. unfold index0. frame_steps. Qed.

Lemma keeps_frame_ensure_initialized : keeps_frame (ensure_initialized W).
Proof. unfold ensure_initialized. frame_steps. Qed.

Lemma keeps_frame_model_exists name : keeps_frame (_model_exists_on_hf W name).
Proof. unfold _model_exists_on_hf. frame_steps. Qed.

#[local] Hint Resolve keeps_frame_cache_store keeps_frame_cache_load
  keeps_frame_the_client keeps_frame_index0 keeps_frame_ensure_initialized
  keeps_frame_model_exists : frame.

Lemma keeps_frame_load_direct names : keeps_frame (load_direct W names).
Proof. induction names as [|n rest IH]; cbn [load_direct]; frame_steps. Qed.

Lemma keeps_frame_load_pivot s t : keeps_frame (load_pivot W s t).
Proof. unfold load_pivot. frame_steps. Qed.

#[local] Hint Resolve keeps_frame_load_direct keeps_frame_load_pivot : frame.

Lemma keeps_frame_get_translation_model s t : keeps_frame (get_translation_model W s t).
Proof. unfold get_translation_model. frame_steps. Qed.

Lemma keeps_frame_groq_fallback text s t :
  keeps_frame (_translate_with_groq_fallback W text s t).
Proof. unfold _translate_with_groq_fallback. frame_steps. Qed.

Lemma keeps_frame_run_model m t text : keeps_frame (run_model W m t text).
Proof. unfold run_model, apply_tokenizer, apply_decode. frame_steps. Qed.

#[local] Hint Resolve keeps_frame_get_translation_model keeps_frame_groq_fallback
  keeps_frame_run_model : frame.

Lemma keeps_frame_translate_text text s t : keeps_frame (translate_text W text s t).
Proof. unfold translate_text, get_name_or_path, unpack2. frame_steps. Qed.

#[local] Hint Resolve keeps_frame_translate_text : frame.

Lemma keeps_frame_process_subtitles subs s t : keeps_frame (_process_subtitles W subs s t).
Proof. induction subs as [|sub rest IH]; cbn [_process_subtitles]; frame_steps. Qed.

Lemma keeps_frame_speech_response a s t : keeps_frame (speech_response W a s t).
Proof. unfold speech_response. frame_steps. Qed.

#[local] Hint Resolve keeps_frame_process_subtitles keeps_frame_speech_response : frame.

Lemma keeps_frame_transcribe a s t : keeps_frame (_transcribe_with_groq W a s t).
Proof. unfold _transcribe_with_groq. frame_steps. Qed.

Lemma keeps_frame_detect_language a : keeps_frame (detect_language W a).
Proof. unfold detect_language. frame_steps. Qed.

Lemma keeps_frame_extract_audio v : keeps_frame (_extract_audio W v).
Proof. unfold _extract_audio. frame_steps. Qed.

Lemma keeps_frame_get_video v : keeps_frame (get_video W v).
Proof. unfold get_video. frame_steps. Qed.

Lemma keeps_frame_update_status v s e p : keeps_frame (update_status W v s e p).
Proof. unfold update_status. frame_steps. Qed.

Lemma keeps_frame_update_output_path v o l : keeps_frame (update_output_path W v o l).
Proof. unfold update_output_path. frame_steps. Qed.

Lemma keeps_frame_yield m : keeps_frame (yield m).
Proof. unfold yield. frame_steps. Qed.

#[local] Hint Resolve keeps_frame_transcribe keeps_frame_detect_language
  keeps_frame_extract_audio keeps_frame_get_video keeps_frame_update_status
  keeps_frame_update_output_path keeps_frame_yield : frame.


(** *** The run that finds no segment *)

(** one step of a sequence: either the step raised, and the run stops in
    the state it left, or it returned and the run goes on *)
Ltac step H Hm :=
  apply bind_inv in H;
  destruct H as [(? & ? & Hm & H) | (? & Hm & ?)].

(** the frame after a step that keeps it *)
Ltac kept Hm :=
  match type of Hm with
  | ?m ?st = (_, ?st') =>
      let F := fresh "F" in
      assert (F : keeps_frame m) by frame_steps;
      apply F in Hm; clear F
  end.

Lemma audio_path_nonempty folder u :
  exists c p, folder ++ "/" ++ u ++ ".wav" = String c p.
Proof. destruct folder as [|c f]; cbn; eauto. Qed.

Lemma extract_audio_path v st path st1 :
  _extract_audio W v st = (Ok path, st1) -> exists c p, path = String c p.
Proof.
  unfold _extract_audio. intros H.
  step H Hu; [|discriminate].
  apply try_except_inv in H. destruct H as [(a & H & E) | (e & st' & _ & H)].
  - injection E as <-. step H Hc; [|discriminate]. minv. apply audio_path_nonempty.
  - destruct (exn_class e); minv.
Qed.

(** a step that keeps the frame [Hfr] speaks of; when it raises, the run
    stops with a frame whose [segments] contradicts [Hzero] *)
Ltac advance H Hfr Hzero :=
  let Hk := fresh "Hk" in
  step H Hk;
  [ kept Hk; apply (fun E => eq_trans E Hfr) in Hk; clear Hfr; rename Hk into Hfr
  | exfalso; kept Hk; apply (fun E => eq_trans E Hfr) in Hk;
    rewrite Hk in Hzero; cbn in Hzero; congruence ].

Lemma transcribe_and_translate_zero video_path target_lang st r st1 :
  transcribe_and_translate W video_path target_lang st = (r, st1) ->
  segments (frame st) = None ->
  segments (frame st1) = Some [] ->
  r = Raise (Exn ValueError "No valid subtitles generated")
  /\ video_id (frame st1) = video_id (frame st)
  /\ exists c p, audio_path (frame st1) = Some (String c p).
Proof.
  unfold transcribe_and_translate. intros H Hnone Hzero.
  pose proof (eq_refl (frame st)) as Hfr.
  advance H Hfr Hzero.
  step H Hx; [|exfalso; kept Hx; rewrite Hx, Hfr in Hzero; congruence].
  destruct (extract_audio_path _ _ _ _ Hx) as (c & p & ->).
  kept Hx. rewrite Hfr in Hx. clear Hfr.
  step H Hg; [|now minv]. apply get_frame_inv in Hg. destruct Hg as [[= ->] ->].
  step H Hfr; [|now minv]. apply put_frame_inv in Hfr. destruct Hfr as (_ & _ & Hfr & _).
  rewrite Hx, Hnone in Hfr.
  do 6 advance H Hfr Hzero.
  step H Hg; [|now minv]. apply get_frame_inv in Hg. destruct Hg as [[= ->] ->].
  step H Hp; [|now minv]. apply put_frame_inv in Hp. destruct Hp as (_ & _ & Hp & _).
  rewrite Hfr in Hp. cbn [audio_path video_id] in Hp.
  destruct (tr_segments _) as [|seg segs].
  - apply raise_inv in H. destruct H as [-> ->].
    rewrite Hp. cbn. split; [reflexivity|]. split; [reflexivity|]. eauto.
  - exfalso.
    match type of H with
    | ?m ?s = _ => kept H
    end.
    rewrite H, Hp in Hzero. discriminate Hzero.
Qed.

Lemma process_video_stream_try_zero video_path target_lang ufs st r st1 :
  process_video_stream_try W video_path target_lang ufs st = (r, st1) ->
  segments (frame st) = None ->
  segments (frame st1) = Some [] ->
  r = Raise (Exn ValueError "No valid subtitles generated")
  /\ (exists vid, video_id (frame st1) = Some vid)
  /\ exists c p, audio_path (frame st1) = Some (String c p).
Proof.
  unfold process_video_stream_try. intros H Hnone Hzero.
  pose proof (eq_refl (frame st)) as Hfr.
  advance H Hfr Hzero.
  step H Hg; [|now minv]. apply get_frame_inv in Hg. destruct Hg as [[= ->] ->].
  step H Hp; [|now minv]. apply put_frame_inv in Hp. destruct Hp as (_ & _ & Hp & _).
  rewrite Hfr, Hnone in Hp. clear Hfr. rename Hp into Hfr.
  do 3 advance H Hfr Hzero.
  match type of H with
  | bind ?m ?k ?s = _ => set (rest := k) in H
  end.
  assert (Hrest : forall subs, keeps_frame (rest subs)) by (intros subs; subst rest; cbv beta; frame_steps).
  step H Hk.
  - exfalso. apply Hrest in H.
    match type of Hk with
    | match ?l with _ => _ end _ = _ => destruct l
    end.
    + rewrite H in Hzero.
      destruct (transcribe_and_translate_zero _ _ _ _ _ Hk) as (E & _);
        [now rewrite Hfr | exact Hzero | discriminate E].
    + match type of Hk with
      | ?m ?s = _ => kept Hk
      end.
      rewrite H, Hk, Hfr in Hzero. discriminate Hzero.
  - subst r.
    match type of Hk with
    | match ?l with _ => _ end _ = _ => destruct l
    end.
    + destruct (transcribe_and_translate_zero _ _ _ _ _ Hk) as (E & Hv & Ha);
        [now rewrite Hfr | exact Hzero |].
      injection E as ->. split; [reflexivity|]. split; [|exact Ha].
      rewrite Hv, Hfr. cbn. eauto.
    + exfalso.
      match type of Hk with
      | ?m ?s = _ => kept Hk
      end.
      rewrite Hk, Hfr in Hzero. discriminate Hzero.
Qed.

Lemma keeps_frame_except e : keeps_frame (process_video_stream_except W e).
Proof. unfold process_video_stream_except. frame_steps. Qed.

Lemma keeps_frame_finally : keeps_frame (process_video_stream_finally W).
Proof. unfold process_video_stream_finally. frame_steps. Qed.

Lemma try_finally_inv {A} (m : M A) (f : M unit) st r st1 :
  try_finally m f st = (r, st1) ->
  exists r0 st' rf,
    m st = (r0, st') /\ f st' = (rf, st1)
    /\ r = match rf with Ok _ => r0 | Raise e => Raise e end.
Proof.
  unfold try_finally. destruct (m st) as [r0 st'].
  destruct (f st') as [[u|e] st''] eqn:E; intros [= <- <-];
    exists r0, st'; eexists; (split; [reflexivity|]); (split; [exact E|]); reflexivity.
Qed.

Lemma valid_id_nonempty vid :
  ObjectId_is_valid vid = true -> exists c v, vid = String c v.
Proof. destruct vid as [|c v]; [discriminate | eauto]. Qed.

(** The [except] block on the error of a run without segments, when the
    video id is a valid one. *)
Lemma except_zero_segments st vid :
  video_id (frame st) = Some vid -> ObjectId_is_valid vid = true ->
  let failed := [ ("status", JStr "failed");
                  ("error", JStr "No valid subtitles generated");
                  ("progress", JInt (-1)) ] in
  let message := [ ("step", JStr "Error"); ("progress", JInt (-1));
                   ("status", JStr "failed");
                   ("error", JStr "No valid subtitles generated") ] in
  process_video_stream_except W (Exn ValueError "No valid subtitles generated") st
  = match update_one W (history st) vid failed with
    | Ok _ =>
        (Raise (Exn ValueError "No valid subtitles generated"),
         {| self := self st;
            history := (history st ++ [EUpdateOne vid failed; EYield message])%list;
            frame := frame st |})
    | Raise e' =>
        (Raise e',
         {| self := self st;
            history := (history st ++ [EUpdateOne vid failed])%list;
            frame := frame st |})
    end.
Proof.
  intros Hvid Hvalid failed message.
  destruct (valid_id_nonempty vid Hvalid) as (c & v & ->).
  unfold process_video_stream_except, update_status.
  cbv beta iota delta [bind get_frame]. rewrite Hvid.
  cbn [truthy negb orb exn_str]. rewrite Hvalid. cbn [negb].
  cbv beta iota delta [try_except call call_total yield bind raise ret].
  cbn [history self frame jdict_set String.eqb Ascii.eqb Bool.eqb _send_progress
       jdict_update fold_left fst snd Z.eqb].
  subst failed message.
  destruct (update_one W (history st) (String c v) _) as [u|e']; [|reflexivity].
  cbn. now rewrite <- app_assoc.
Qed.

(** The [finally] block when [audio_path] has been assigned. *)
Lemma finally_with_audio st c p :
  audio_path (frame st) = Some (String c p) ->
  process_video_stream_finally W st
  = (Ok tt,
     {| self := self st;
        history := (history st
                    ++ EPathExists (String c p)
                       :: (if os_path_exists W (history st) (String c p)
                           then [ERemove (String c p)] else []))%list;
        frame := frame st |}).
Proof.
  intros Ha. unfold process_video_stream_finally.
  cbv beta iota delta [bind get_frame]. rewrite Ha.
  cbv beta iota delta [try_except call call_total bind ret].
  cbn [history self frame].
  destruct (os_path_exists W (history st) (String c p)); [|reflexivity].
  destruct (os_remove W _ (String c p)) as [[]|e]; cbn; now rewrite <- app_assoc.
Qed.

End ResolverFacts.



(** C1.  When source and target are the same language code (also after
    normalization) the resolver yields the no-op strategy: [translate_text]
    returns the text as it is, with no probe, no load, no remote call and
    no change of the cache. *)
Theorem resolve_same_language_noop :
  forall (W : World) (x : string) (st : State),
    resolve W x x st = (Ok NoOp, st)
    /\ forall text, translate_text W text x x st = (Ok text, st).
Proof.
  intros W x st. unfold resolve, translate_text.
  rewrite String.eqb_refl. split; [reflexivity | intros; reflexivity].
Qed.

(** C2.  The resolver never raises: for every pair of languages and in
    every state, against every behaviour of the model repository,
    [get_translation_model] returns [None] or a model entry, and [resolve]
    returns one of the four strategies, a direct one holding a single model
    and a pivot one a list; for [("ar", "en")] it is the remote fallback,
    with nothing probed. *)
Theorem resolve_never_raises :
  forall (W : World) (source target : string) (st : State),
    (exists r st', get_translation_model W source target st = (Ok r, st'))
    /\ (exists strategy st',
          resolve W source target st = (Ok strategy, st')
          /\ match strategy with
             | NoOp | RemoteFallback => True
             | Direct mi => exists m, mi_model mi = One m
             | Pivot mi => exists l, mi_model mi = Many l
             end)
    /\ resolve W "ar" "en" st = (Ok RemoteFallback, st)
    /\ get_translation_model W "ar" "en" st = (Ok None, st).
Proof.
  intros W source target st. repeat apply conj.
  - apply returns_get_translation_model.
  - unfold resolve, bind, ret.
    destruct (String.eqb _ _); [now exists NoOp, st|].
    destruct (_ && _); [now exists RemoteFallback, st|].
    destruct (returns_get_translation_model W
                (LanguageUtils.normalize_lang_code source)
                (LanguageUtils.normalize_lang_code target) st) as (r & st1 & ->).
    destruct r as [mi|]; [|now exists RemoteFallback, st1].
    exists (strategy_of mi), st1. split; [reflexivity|].
    unfold strategy_of. destruct (mi_model mi) as [m|l] eqn:E; cbn; eauto.
  - reflexivity.
  - reflexivity.
Qed.

(** C4.  [_process_subtitles] returns a list as long as its input; the
    output at each index comes from the input at that index, and when
    translating that segment raises, in the state the loop has reached, the
    output is the input segment itself, text included; when it succeeds the
    output carries the translated text. *)
Theorem process_subtitles_keeps_failed_segments :
  forall (W : World) (subs : list Segment) (source target : string) (st : State),
  exists out st',
    _process_subtitles W subs source target st = (Ok out, st')
    /\ length out = length subs
    /\ forall i sub, nth_error subs i = Some sub ->
         exists o, nth_error out i = Some o
           /\ match translate_text W (seg_text sub) source target
                      (state_before W i subs source target st) with
              | (Raise _, _) => o = sub /\ seg_text o = seg_text sub
              | (Ok translated, _) =>
                  o = {| seg_start := seg_start sub; seg_end := seg_end sub;
                         seg_text := translated |}
              end.
Proof.
  intros W subs s t st.
  destruct (returns_process_subtitles W subs s t st) as (out & st' & E).
  exists out, st'. split; [exact E|].
  destruct (process_subtitles_nth W subs s t st out st' E) as (Hlen & Hnth).
  split; [exact Hlen|]. intros i sub Hi.
  eexists. split; [apply Hnth, Hi|].
  unfold translate_segment.
  now destruct (translate_text W (seg_text sub) s t _) as [[tr|e] st1].
Qed.

Lemma process_subtitles_keeps_failed_segments_witness :
  let hola := {| seg_start := 0%float; seg_end := 2%float; seg_text := "Hola" |} in
  let mundo := {| seg_start := 2%float; seg_end := 4%float; seg_text := "Mundo" |} in
  fst (translate_text Fixtures.offline "Mundo" "es" "en"
         (state_before Fixtures.offline 1 [hola; mundo] "es" "en" Fixtures.fresh))
  = Raise (Exn ValueError "GROQ_API_KEY not found")
  /\ exists out st',
       _process_subtitles Fixtures.offline [hola; mundo] "es" "en" Fixtures.fresh
       = (Ok out, st')
       /\ nth_error out 1 = Some mundo.
Proof.
  intros hola mundo. split; [vm_compute; reflexivity|].
  destruct (process_subtitles_keeps_failed_segments
              Fixtures.offline [hola; mundo] "es" "en" Fixtures.fresh)
    as (out & st' & E & _ & H).
  exists out, st'. split; [exact E|].
  destruct (H 1%nat mundo eq_refl) as (o & Ho & Hm).
  rewrite Ho. f_equal.
  assert (Hr : fst (translate_text Fixtures.offline (seg_text mundo) "es" "en"
                      (state_before Fixtures.offline 1 [hola; mundo] "es" "en"
                         Fixtures.fresh))
               = Raise (Exn ValueError "GROQ_API_KEY not found"))
    by (vm_compute; reflexivity).
  destruct (translate_text Fixtures.offline (seg_text mundo) "es" "en" _) as [[tr|e] st1].
  - discriminate Hr.
  - exact (proj1 Hm).
Defined.

(** C10.  [_process_subtitles] keeps the timing of every segment: the
    start times of the output are those of the input, in order, and so are
    the end times, whether a translation succeeds or fails. *)
Theorem process_subtitles_preserves_timing :
  forall (W : World) (subs : list Segment) (source target : string) (st : State),
  exists out st',
    _process_subtitles W subs source target st = (Ok out, st')
    /\ map seg_start out = map seg_start subs
    /\ map seg_end out = map seg_end subs.
Proof.
  intros W subs s t st.
  destruct (returns_process_subtitles W subs s t st) as (out & st' & E).
  exists out, st'. split; [exact E|].
  exact (process_subtitles_timing W subs s t st out st' E).
Qed.

(** C5, as the code has it.  [_translate_with_groq_fallback] raises exactly
    when [ensure_initialized] does (no API key, or the client cannot be
    built), with that exception.  With a client, it never raises: it asks
    the remote service once and returns the first choice's content
    stripped, or the input text unchanged when the call raises or has no
    usable answer. *)
Theorem groq_fallback_self_healing :
  forall (W : World) (text source target : string) (st : State),
    match ensure_initialized W st with
    | (Raise e, st1) =>
        _translate_with_groq_fallback W text source target st = (Raise e, st1)
    | (Ok _, st1) =>
        exists c, client (self st1) = Some c
          /\ _translate_with_groq_fallback W text source target st
             = (Ok match chat_completions_create W (history st1) c
                           (groq_system_prompt source target) text with
                   | Ok (Some content :: _) => PyStr.strip content
                   | _ => text
                   end,
                {| self := self st1;
                   history := (history st1
                               ++ [EChatCreate (groq_system_prompt source target) text])%list;
                   frame := frame st1 |})
    end.
Proof.
  intros W text s t st.
  destruct (ensure_initialized W st) as [[[]|e] st1] eqn:E;
    unfold _translate_with_groq_fallback;
    rewrite (bind_eq (ensure_initialized W)), E; [|reflexivity].
  destruct (ensure_initialized_client W st st1 E) as (c & Hc).
  exists c. split; [exact Hc|].
  cbv beta iota delta [try_except bind the_client get_self call index0 ret raise].
  rewrite Hc. cbn [history self frame].
  destruct (chat_completions_create W (history st1) c _ text) as [[|[content|] rest]|e];
    reflexivity.
Qed.

(** C5 as stated fails: with no client yet and no API key, the fallback
    raises instead of returning the text. *)
Lemma groq_fallback_raises_without_key :
  _translate_with_groq_fallback Fixtures.offline "Hola" "es" "en" Fixtures.fresh
  = (Raise (Exn ValueError "GROQ_API_KEY not found"), Fixtures.fresh).
Proof. reflexivity. Qed.




(** C9, as the code has it.  A run of [process_video_stream] in which the
    transcription stage yields no segment (the local [segments] is the
    empty list) ends in failure.  With [h] the history up to the error:
    the orchestrator sends the status ["failed"], the error message and the
    progress [-1] to the record store.  When the store takes the write,
    the run yields the ["Error"] event with progress [-1] and raises the
    [ValueError] again.  When the write itself raises, that exception is
    the one that leaves, and no event with progress [-1] is yielded.  In
    both cases the [finally] block then checks the audio file, which has
    been created, and removes it if it is there. *)
Theorem zero_segments_fail_the_run :
  forall (W : World) (video_path target_lang : string) (user_font_size : option Z)
         (st : State) (r : res unit) (st1 : State) (vid : string),
    process_video_stream W video_path target_lang user_font_size st = (r, st1) ->
    segments (frame st1) = Some [] ->
    video_id (frame st1) = Some vid ->
    ObjectId_is_valid vid = true ->
    let error := Exn ValueError "No valid subtitles generated" in
    let failed := [ ("status", JStr "failed");
                    ("error", JStr "No valid subtitles generated");
                    ("progress", JInt (-1)) ] in
    let message := [ ("step", JStr "Error"); ("progress", JInt (-1));
                     ("status", JStr "failed");
                     ("error", JStr "No valid subtitles generated") ] in
    exists path h,
      audio_path (frame st1) = Some path
      /\ match update_one W h vid failed with
         | Ok _ =>
             r = Raise error
             /\ history st1 =
                  (h ++ [EUpdateOne vid failed; EYield message; EPathExists path]
                     ++ (if os_path_exists W
                              (h ++ [EUpdateOne vid failed; EYield message]) path
                         then [ERemove path] else []))%list
         | Raise e' =>
             r = Raise e'
             /\ history st1 =
                  (h ++ [EUpdateOne vid failed; EPathExists path]
                     ++ (if os_path_exists W (h ++ [EUpdateOne vid failed]) path
                         then [ERemove path] else []))%list
         end.
Proof.
  intros W video_path target_lang ufs st r st1 vid H Hzero Hvid Hvalid error failed message.
  unfold process_video_stream in H.
  apply bind_inv in H. destruct H as [(u & st0 & Hp & H) | (e & Hp & _)];
    [|apply put_frame_inv in Hp; now destruct Hp].
  apply put_frame_inv in Hp. destruct Hp as (_ & _ & Hf0 & _).
  apply try_finally_inv in H. destruct H as (r0 & st' & rf & Hte & Hfin & ->).
  assert (Hf1 : frame st1 = frame st').
  { revert Hfin. apply keeps_frame_finally. }
  rewrite Hf1 in Hzero, Hvid.
  apply try_except_inv in Hte. destruct Hte as [(a & Hbody & ->) | (e & stm & Hbody & Hh)].
  - exfalso.
    destruct (process_video_stream_try_zero W _ _ _ _ _ _ Hbody) as (E & _);
      [now rewrite Hf0 | exact Hzero | discriminate E].
  - assert (Hfm : frame st' = frame stm).
    { revert Hh. apply keeps_frame_except. }
    rewrite Hfm in Hzero, Hvid.
    destruct (process_video_stream_try_zero W _ _ _ _ _ _ Hbody)
      as (E & _ & c & p & Ha); [now rewrite Hf0 | exact Hzero |].
    injection E as ->.
    rewrite (except_zero_segments W stm vid Hvid Hvalid) in Hh.
    exists (String c p), (history stm).
    split; [now rewrite Hf1, Hfm|].
    fold failed in Hh |- *. fold message in Hh |- *.
    destruct (update_one W (history stm) vid failed) as [u'|e'];
      injection Hh as <- <-;
      rewrite (finally_with_audio W _ c p) in Hfin by exact Ha;
      injection Hfin as <- <-; cbn [history];
      (split; [reflexivity|]); rewrite <- app_assoc; reflexivity.
Qed.

Lemma zero_segments_fail_the_run_witness :
  let run := process_video_stream Fixtures.silent "/app/uploads/clip.mp4" "fr"
               (Some 20%Z) Fixtures.fresh in
  let failed := [ ("status", JStr "failed");
                  ("error", JStr "No valid subtitles generated");
                  ("progress", JInt (-1)) ] in
  let message := [ ("step", JStr "Error"); ("progress", JInt (-1));
                   ("status", JStr "failed");
                   ("error", JStr "No valid subtitles generated") ] in
  let path := "/app/uploads/output/00000000-0000-4000-8000-000000000000.wav" in
  fst run = Raise (Exn ValueError "No valid subtitles generated")
  /\ exists h,
       history (snd run)
       = (h ++ [ EUpdateOne "65f0c0ffee0123456789abcd" failed; EYield message;
                 EPathExists path; ERemove path ])%list.
Proof.
  intros run failed message path.
  destruct (zero_segments_fail_the_run Fixtures.silent "/app/uploads/clip.mp4" "fr"
              (Some 20%Z) Fixtures.fresh (fst run) (snd run)
              "65f0c0ffee0123456789abcd")
    as (path' & h & Ha & Hm).
  - apply surjective_pairing.
  - vm_compute. reflexivity.
  - vm_compute. reflexivity.
  - reflexivity.
  - assert (Hp : audio_path (frame (snd run)) = Some path) by (vm_compute; reflexivity).
    rewrite Hp in Ha. injection Ha as <-.
    cbn [Fixtures.silent Fixtures.speech update_one os_path_exists] in Hm.
    destruct Hm as [Hr Hh]. split; [exact Hr|]. exists h. exact Hh.
Defined.

(** C9 as stated fails when the record store does not take the write.
    The speech service hears nothing, so the run finds no segment and
    goes to its [except] block; there [update_status] raises the
    exception of the store, which leaves the block before the message of
    the error is yielded.  The run ends with the exception of the store,
    not with the [ValueError]; no status has been persisted; and no
    message with the progress [-1] is in the history.  The audio file is
    removed all the same. *)
Lemma zero_segments_store_down :
  let run := process_video_stream Fixtures.store_down "/app/uploads/clip.mp4" "fr"
               None Fixtures.fresh in
  let failed := [ ("status", JStr "failed");
                  ("error", JStr "No valid subtitles generated");
                  ("progress", JInt (-1)) ] in
  let path := "/app/uploads/output/00000000-0000-4000-8000-000000000000.wav" in
  segments (frame (snd run)) = Some []
  /\ fst run = Raise (Exn ExternalError "connection refused")
  /\ (exists h,
        history (snd run)
        = (h ++ [ EUpdateOne "65f0c0ffee0123456789abcd" failed;
                  EPathExists path; ERemove path ])%list
        /\ update_one Fixtures.store_down h "65f0c0ffee0123456789abcd" failed
           = Raise (Exn ExternalError "connection refused"))
  /\ forall message,
       In (EYield message) (history (snd run)) ->
       jdict_get message "progress" <> Some (JInt (-1)).
Proof.
  intros run failed path.
  split; [vm_compute; reflexivity|]. split; [vm_compute; reflexivity|]. split.
  - exists (List.firstn 15 (history (snd run))). split; vm_compute; reflexivity.
  - intros message Hin. vm_compute in Hin.
    repeat (destruct Hin as [Hin | Hin];
            [try discriminate Hin; injection Hin as <-; vm_compute; discriminate|]).
    destruct Hin.
Qed.

(** C3, where the code departs from it.  With a repository that has only
    the two pivot models for Hebrew to French, the first call resolves a
    pivot entry and stores it under ["he-fr_pivot"]; the second call does
    not read that key: it probes the repository five times again, loads
    the four objects again and returns the new entry. *)
Theorem pivot_strategy_resolved_again :
  exists mi1 mi2 st1 st2,
    get_translation_model Fixtures.pivot_hub "he" "fr" Fixtures.fresh = (Ok (Some mi1), st1)
    /\ strategy_of mi1 = Pivot mi1
    /\ translation_models (self st1) !! "he-fr_pivot" = Some mi1
    /\ get_translation_model Fixtures.pivot_hub "he" "fr" st1 = (Ok (Some mi2), st2)
    /\ history st2 =
         (history st1 ++
          [ ERequestsGet "https://huggingface.co/api/models/Helsinki-NLP/opus-mt-he-fr";
            ERequestsGet "https://huggingface.co/api/models/Helsinki-NLP/opus-mt-tc-big-he-fr";
            ERequestsGet "https://huggingface.co/api/models/Helsinki-NLP/opus-mt-he-fr-big";
            ERequestsGet "https://huggingface.co/api/models/Helsinki-NLP/opus-mt-he-en";
            ERequestsGet "https://huggingface.co/api/models/Helsinki-NLP/opus-mt-en-fr";
            EModelFromPretrained "Helsinki-NLP/opus-mt-he-en";
            EModelFromPretrained "Helsinki-NLP/opus-mt-en-fr";
            ETokenizerFromPretrained "Helsinki-NLP/opus-mt-he-en";
            ETokenizerFromPretrained "Helsinki-NLP/opus-mt-en-fr" ])%list
    /\ mi2 <> mi1.
Proof.
  do 4 eexists.
  split; [vm_compute; reflexivity|].
  split; [reflexivity|].
  split; [vm_compute; reflexivity|].
  split; [vm_compute; reflexivity|].
  split; [vm_compute; reflexivity|].
  discriminate.
Qed.

(** ** Properties of the language utilities *)
Section NormalizeFacts.
Import PyStr LanguageUtils.

Ltac each_char c := destruct c as [[] [] [] [] [] [] [] []].

Lemma isspace_lower_char c : isspace (lower_char c) = isspace c.
Proof. each_char c; reflexivity. Qed.

Lemma lower_char_idem c : lower_char (lower_char c) = lower_char c.
Proof. each_char c; reflexivity. Qed.

Lemma dash_not_space c : Ascii.eqb "-" c = true -> isspace c = false.
Proof. intros H. apply Ascii.eqb_eq in H. subst c. reflexivity. Qed.

Lemma lower_idem s : lower (lower s) = lower s.
Proof. induction s as [|c s IH]; simpl; [reflexivity|]. now rewrite lower_char_idem, IH. Qed.

Lemma starts_with_space_lower s : starts_with_space (lower s) = starts_with_space s.
Proof. destruct s; simpl; [reflexivity | apply isspace_lower_char]. Qed.

Lemma ends_with_space_lower s : ends_with_space (lower s) = ends_with_space s.
Proof.
  induction s as [|c s IH]; [reflexivity|].
  destruct s as [|d s]; simpl in *; [apply isspace_lower_char | exact IH].
Qed.

Lemma starts_with_space_lstrip s : starts_with_space (lstrip s) = false.
Proof.
  induction s as [|c s IH]; simpl; [reflexivity|].
  destruct (isspace c) eqn:E; [exact IH | simpl; exact E].
Qed.

Lemma lstrip_id s : starts_with_space s = false -> lstrip s = s.
Proof. destruct s; simpl; [reflexivity|]. now intros ->. Qed.

Lemma rstrip_id s : ends_with_space s = false -> rstrip s = s.
Proof.
  induction s as [|c s IH]; [reflexivity|].
  destruct s as [|d s].
  - simpl. now intros ->.
  - intros H. change (rstrip (String c (String d s)))
      with (match rstrip (String d s) with
            | EmptyString => if isspace c then EmptyString else String c EmptyString
            | r => String c r end).
    now rewrite (IH H).
Qed.

Lemma ends_with_space_rstrip s : ends_with_space (rstrip s) = false.
Proof.
  induction s as [|c s IH]; [reflexivity|].
  simpl. destruct (rstrip s) as [|d r] eqn:E.
  - destruct (isspace c) eqn:Ec; simpl; [reflexivity | exact Ec].
  - exact IH.
Qed.

Lemma starts_with_space_rstrip s :
  starts_with_space s = false -> starts_with_space (rstrip s) = false.
Proof.
  destruct s as [|c s]; [reflexivity|]. simpl. intros Hc.
  destruct (rstrip s); [rewrite Hc|]; simpl; exact Hc.
Qed.

(** What [lang.strip().lower()] leaves: no white space at either end, and
    nothing left to lower-case. *)
Definition clean (s : string) : Prop :=
  starts_with_space s = false /\ ends_with_space s = false /\ lower s = s.

Lemma clean_lower_strip x : clean (lower (strip x)).
Proof.
  unfold clean, strip.
  rewrite starts_with_space_lower, ends_with_space_lower, lower_idem.
  repeat split.
  - apply starts_with_space_rstrip, starts_with_space_lstrip.
  - apply ends_with_space_rstrip.
Qed.

Lemma lower_strip_clean s : clean s -> lower (strip s) = s.
Proof.
  intros (Hs & He & Hl). unfold strip.
  now rewrite (lstrip_id _ Hs), (rstrip_id _ He).
Qed.

Lemma split_head_absent c s : contains c s = false -> split_head c s = s.
Proof.
  induction s as [|d s IH]; simpl; [reflexivity|].
  destruct (Ascii.eqb c d); simpl; [discriminate|]. intros H. now rewrite IH.
Qed.

Lemma contains_split_head c s : contains c (split_head c s) = false.
Proof.
  induction s as [|d s IH]; simpl; [reflexivity|].
  destruct (Ascii.eqb c d) eqn:E; simpl; [reflexivity|]. now rewrite E.
Qed.

Lemma lower_split_head s : lower s = s -> lower (split_head "-" s) = split_head "-" s.
Proof.
  induction s as [|d s IH]; [reflexivity|].
  cbn [lower split_head]. intros H. injection H as Hd Hs.
  destruct (Ascii.eqb "-" d); cbn [lower]; [reflexivity|]. now rewrite Hd, IH.
Qed.

Lemma starts_with_space_split_head s :
  starts_with_space s = false -> starts_with_space (split_head "-" s) = false.
Proof.
  destruct s as [|d s]; [reflexivity|]. cbn [split_head starts_with_space].
  destruct (Ascii.eqb "-" d); cbn [starts_with_space]; [reflexivity | tauto].
Qed.

Lemma clean_split_head s :
  clean s -> ends_with_space (split_head "-" s) = false -> clean (split_head "-" s).
Proof.
  intros (Hs & _ & Hl) He. repeat split;
    [now apply starts_with_space_split_head | exact He | now apply lower_split_head].
Qed.

Lemma dict_get_values d k v : dict_get d k = Some v -> In v (dict_values d).
Proof.
  induction d as [|[k' v'] d IH]; simpl; [discriminate|].
  destruct (String.eqb k k'); [intros [= ->]; now left | right; auto].
Qed.

Lemma str_in_In x l : str_in x l = true -> In x l.
Proof.
  unfold str_in. rewrite existsb_exists. intros (y & Hy & E).
  apply String.eqb_eq in E. now subst.
Qed.

(** The codes of the table are fixed points. *)
Lemma normalize_code c :
  In c (dict_values LANGUAGE_NAME_MAP) -> normalize_lang_code c = c.
Proof.
  simpl. intros H.
  repeat (destruct H as [<- | H]; [reflexivity|]). destruct H.
Qed.

(** A string as [strip] and [lower] leave it, without ["-"], that is not a
    name of the table is a fixed point. *)
Lemma normalize_clean s :
  clean s -> contains "-" s = false -> dict_get LANGUAGE_NAME_MAP s = None ->
  normalize_lang_code s = s.
Proof.
  intros Hc Hd Hg. unfold normalize_lang_code.
  rewrite (lower_strip_clean _ Hc), Hd, Hg.
  now destruct (_ && _).
Qed.

(** The string that [normalize_lang_code] looks up in the table. *)
Definition lookup_key (x : string) : string :=
  split_head "-" (lower (strip x)).

Lemma normalize_unfold x :
  normalize_lang_code x =
    if (String.length (lower (strip x)) =? 2)%nat
       && str_in (lower (strip x)) (dict_values LANGUAGE_NAME_MAP)
    then lower (strip x)
    else match dict_get LANGUAGE_NAME_MAP (lookup_key x) with
         | Some code => code
         | None => lookup_key x
         end.
Proof.
  unfold normalize_lang_code, lookup_key.
  destruct (_ && _); [reflexivity|].
  destruct (contains "-" (lower (strip x))) eqn:E; [reflexivity|].
  now rewrite (split_head_absent _ _ E).
Qed.

Lemma normalize_idem_at x :
  ends_with_space (lookup_key x) = false ->
  normalize_lang_code (normalize_lang_code x) = normalize_lang_code x.
Proof.
  intros He. rewrite (normalize_unfold x).
  destruct (_ && _) eqn:EA.
  - apply andb_prop in EA as [_ Hin]. apply normalize_code, str_in_In, Hin.
  - destruct (dict_get LANGUAGE_NAME_MAP (lookup_key x)) as [code|] eqn:Eg.
    + apply normalize_code. eapply dict_get_values, Eg.
    + apply normalize_clean.
      * apply clean_split_head; [apply clean_lower_strip | exact He].
      * apply contains_split_head.
      * exact Eg.
Qed.

Lemma normalize_pass_through x :
  dict_get LANGUAGE_NAME_MAP (lookup_key x) = None ->
  normalize_lang_code x = lookup_key x.
Proof.
  intros Hg. rewrite normalize_unfold, Hg.
  destruct (_ && _) eqn:EA; [|reflexivity].
  apply andb_prop in EA as [_ Hin]. apply str_in_In in Hin.
  unfold lookup_key. simpl in Hin.
  repeat (destruct Hin as [<- | Hin]; [reflexivity|]). destruct Hin.
Qed.

End NormalizeFacts.

(** Away from white space before the first ["-"], what C7 says holds:
    [normalize_lang_code] is idempotent on every input whose stripped,
    lower-cased form has no white space right before its first ["-"];
    ["en-US"] and ["EN"] both give ["en"]; and an input without ["-"]
    whose stripped, lower-cased form is not a name of the table is
    returned as that form. *)
Lemma normalize_lang_code_idempotent_clean :
  (forall x, PyStr.ends_with_space (lookup_key x) = false ->
     LanguageUtils.normalize_lang_code (LanguageUtils.normalize_lang_code x)
     = LanguageUtils.normalize_lang_code x)
  /\ LanguageUtils.normalize_lang_code "en-US" = "en"
  /\ LanguageUtils.normalize_lang_code "EN" = "en"
  /\ (forall x,
        PyStr.contains "-" (PyStr.lower (PyStr.strip x)) = false ->
        LanguageUtils.dict_get LanguageUtils.LANGUAGE_NAME_MAP
          (PyStr.lower (PyStr.strip x)) = None ->
        LanguageUtils.normalize_lang_code x = PyStr.lower (PyStr.strip x)).
Proof.
  split; [exact normalize_idem_at|].
  split; [reflexivity|]. split; [reflexivity|].
  intros x Hd Hg.
  assert (Hk : lookup_key x = PyStr.lower (PyStr.strip x))
    by (apply split_head_absent, Hd).
  rewrite <- Hk in Hg |- *. now apply normalize_pass_through.
Qed.

(** C7 fails in the code, by a slip of [normalize_lang_code]: it strips
    its argument only before it cuts a locale tag at the first ["-"], and
    does not strip what is left.  So white space before the ["-"] stays in
    the result: ["en -US"] gives ["en "], which is no language code and no
    fixed point (a second call gives ["en"]), and ["german -AT"] gives
    ["german "], because the name with its trailing blank is not found in
    the table, where ["german"] and ["german-AT"] give ["de"].  The
    function is therefore not idempotent. *)
Theorem normalize_lang_code_not_idempotent :
  LanguageUtils.normalize_lang_code "en -US" = "en "
  /\ LanguageUtils.normalize_lang_code (LanguageUtils.normalize_lang_code "en -US") = "en"
  /\ LanguageUtils.normalize_lang_code "german -AT" = "german "
  /\ LanguageUtils.normalize_lang_code "german-AT" = "de"
  /\ LanguageUtils.normalize_lang_code "german" = "de"
  /\ ~ (forall x,
          LanguageUtils.normalize_lang_code (LanguageUtils.normalize_lang_code x)
          = LanguageUtils.normalize_lang_code x).
Proof.
  repeat (split; [reflexivity|]).
  intros H. specialize (H "en -US"). discriminate H.
Qed.

(** ** Properties of the subtitle layout *)
Section LayoutFacts.
Import Layout.

(** the binds and case distinctions of a layout that ended well *)
Ltac layout_inv H :=
  repeat match type of H with
         | res_bind ?m _ = Ok _ =>
             let E := fresh "E" in
             destruct m eqn:E; cbn [res_bind] in H; [|discriminate H]
         | match ?x with _ => _ end = Ok _ => destruct x
         end.

Lemma vertical_max_lines width height size d :
  vertical_layout width height size = Ok d -> max_lines_of d = 1%Z.
Proof.
  unfold vertical_layout. intros H. layout_inv H.
  all: injection H as <-; reflexivity.
Qed.

Lemma standard_max_lines width height size d :
  standard_layout width height size = Ok d -> max_lines_of d = 2%Z.
Proof.
  unfold standard_layout. intros H. layout_inv H.
  all: injection H as <-; reflexivity.
Qed.

(** [min(max(size, lo), hi)] on [int]s *)
Lemma clamp_int size lo hi :
  (lo <= hi)%Z ->
  exists c, py_min (py_max (Int size) (Int lo)) (Int hi) = Int c /\ (lo <= c <= hi)%Z.
Proof.
  intros Hle. unfold py_min, py_max. cbn [lt].
  destruct (size <? lo)%Z eqn:E1; cbn [lt].
  - destruct (hi <? lo)%Z eqn:E2; [lia|]. exists lo. split; [reflexivity|lia].
  - destruct (hi <? size)%Z eqn:E2; eexists; (split; [reflexivity|lia]).
Qed.

Lemma portrait_1080_1920 size :
  exists d, calculate 1080 1920 size = Ok d /\ max_lines_of d = 1%Z.
Proof.
  assert (Hr : int_truediv 1080 1920 = Ok 0.5625%float) by (vm_compute; reflexivity).
  unfold calculate. rewrite Hr. cbn [res_bind].
  change (0.5625 <? 0.6)%float with true. cbv iota.
  unfold vertical_layout.
  destruct (font_size_given size) as [z|].
  - destruct (clamp_int z 12 20) as (c & -> & Hc); [lia|].
    assert (Hcases : (c = 12 \/ c = 13 \/ c = 14 \/ c = 15 \/ c = 16 \/ c = 17
                      \/ c = 18 \/ c = 19 \/ c = 20)%Z) by lia.
    repeat (destruct Hcases as [-> | Hcases]; [vm_compute; eauto|]).
    subst c. vm_compute. eauto.
  - vm_compute. eauto.
Qed.

Lemma landscape_1920_1080 size :
  exists d, calculate 1920 1080 size = Ok d /\ max_lines_of d = 2%Z.
Proof.
  assert (Hr : exists r, int_truediv 1920 1080 = Ok r /\ (r <? 0.6)%float = false)
    by (vm_compute; eauto).
  destruct Hr as (r & Hr & Hlt).
  unfold calculate. rewrite Hr. cbn [res_bind]. rewrite Hlt.
  unfold standard_layout.
  destruct (font_size_given size) as [z|].
  - destruct (clamp_int z 22 44) as (c & -> & Hc); [lia|].
    assert (Hcases : (c = 22 \/ c = 23 \/ c = 24 \/ c = 25 \/ c = 26 \/ c = 27
                      \/ c = 28 \/ c = 29 \/ c = 30 \/ c = 31 \/ c = 32 \/ c = 33
                      \/ c = 34 \/ c = 35 \/ c = 36 \/ c = 37 \/ c = 38 \/ c = 39
                      \/ c = 40 \/ c = 41 \/ c = 42 \/ c = 43 \/ c = 44)%Z) by lia.
    repeat (destruct Hcases as [-> | Hcases]; [vm_compute; eauto|]).
    subst c. vm_compute. eauto.
  - vm_compute. eauto.
Qed.

End LayoutFacts.

(** C8.  [_calculate_subtitle_properties] never raises.  When its
    computation goes through, the video counts as vertical exactly when the
    float [width / height] is below [0.6], and the result then has
    [max_lines = 1], and [max_lines = 2] otherwise; when the computation
    raises, as it does for [height = 0], the result is the default
    [(24, 2, 20, 28, 50, 40)].  For 1080 by 1920 the result has
    [max_lines = 1] and for 1920 by 1080 it has [max_lines = 2], whatever
    the font size asked for. *)
Theorem layout_max_lines_by_orientation :
  (forall (width height : Z) (size : option Z),
     match Layout.calculate width height size with
     | Ok d =>
         Layout._calculate_subtitle_properties width height size = d
         /\ exists aspect_ratio,
              Layout.int_truediv width height = Ok aspect_ratio
              /\ Layout.max_lines_of d = if (aspect_ratio <? 0.6)%float then 1%Z else 2%Z
     | Raise _ =>
         Layout._calculate_subtitle_properties width height size
         = (24, 2, 20, 28, 50, 40)%Z
     end)
  /\ (forall (width : Z) (size : option Z),
        Layout._calculate_subtitle_properties width 0 size = (24, 2, 20, 28, 50, 40)%Z)
  /\ (forall size : option Z,
        Layout.max_lines_of (Layout._calculate_subtitle_properties 1080 1920 size) = 1%Z)
  /\ (forall size : option Z,
        Layout.max_lines_of (Layout._calculate_subtitle_properties 1920 1080 size) = 2%Z).
Proof.
  repeat apply conj.
  - intros width height size. unfold Layout._calculate_subtitle_properties.
    destruct (Layout.calculate width height size) as [d|e] eqn:E; [|reflexivity].
    split; [reflexivity|].
    unfold Layout.calculate in E.
    destruct (Layout.int_truediv width height) as [ratio|e]; [|discriminate E].
    cbn [Layout.res_bind] in E. exists ratio. split; [reflexivity|].
    destruct (ratio <? 0.6)%float.
    + exact (vertical_max_lines _ _ _ _ E).
    + exact (standard_max_lines _ _ _ _ E).
  - reflexivity.
  - intros size. unfold Layout._calculate_subtitle_properties.
    destruct (portrait_1080_1920 size) as (d & -> & Hd). exact Hd.
  - intros size. unfold Layout._calculate_subtitle_properties.
    destruct (landscape_1920_1080 size) as (d & -> & Hd). exact Hd.
Qed.

Example vertical_1080_1920 :
  Layout._calculate_subtitle_properties 1080 1920 None = (20, 1, 153, 25, 64, 42)%Z.
Proof. vm_compute. reflexivity. Qed.

Example standard_1920_1080 :
  Layout._calculate_subtitle_properties 1920 1080 (Some 20%Z) = (22, 2, 64, 28, 230, 50)%Z.
Proof. vm_compute. reflexivity. Qed.

Example standard_1920_1080_auto :
  Layout._calculate_subtitle_properties 1920 1080 None = (44, 2, 64, 57, 230, 50)%Z.
Proof. vm_compute. reflexivity. Qed.

(** Beyond the sizes a video has: the ratio of these two [int]s is [0.1],
    but [width * 0.06] cannot be converted to a float, and the handler
    answers with the default. *)
Example oversized_frame_defaults :
  Layout.int_truediv (10 ^ 400) (10 ^ 401) = Ok 0.1%float
  /\ Layout._calculate_subtitle_properties (10 ^ 400) (10 ^ 401) None
     = (24, 2, 20, 28, 50, 40)%Z.
Proof. split; vm_compute; reflexivity. Qed.

(** * Further properties of the code *)

(** ** Language codes *)
Section LanguageFacts.
Import PyStr LanguageUtils Fonts.

Lemma lstrip_lower s : lstrip (lower s) = lower (lstrip s).
Proof.
  induction s as [|c s IH]; [reflexivity|].
  cbn [lower lstrip]. rewrite isspace_lower_char.
  destruct (isspace c); [exact IH | reflexivity].
Qed.

Lemma rstrip_lower s : rstrip (lower s) = lower (rstrip s).
Proof.
  induction s as [|c s IH]; [reflexivity|].
  cbn [lower rstrip]. rewrite IH, isspace_lower_char.
  destruct (rstrip s); cbn [lower]; [destruct (isspace c)|]; reflexivity.
Qed.

Lemma strip_lower s : strip (lower s) = lower (strip s).
Proof. unfold strip. now rewrite lstrip_lower, rstrip_lower. Qed.

Lemma strip_idem s : strip (strip s) = strip s.
Proof.
  unfold strip at 1.
  rewrite lstrip_id, rstrip_id; [reflexivity | apply ends_with_space_rstrip |].
  apply starts_with_space_rstrip, starts_with_space_lstrip.
Qed.

(** [normalize_lang_code] reads its argument only through
    [lang.strip().lower()]. *)
Lemma normalize_through x y :
  lower (strip x) = lower (strip y) -> normalize_lang_code x = normalize_lang_code y.
Proof. unfold normalize_lang_code. now intros ->. Qed.

Lemma rstrip_cons c s : isspace c = false -> rstrip (String c s) = String c (rstrip s).
Proof. intros H. cbn [rstrip]. destruct (rstrip s); [now rewrite H | reflexivity]. Qed.

(** strings without white space *)
Definition no_space (s : string) : bool :=
  forallb (fun c => negb (isspace c)) (list_ascii_of_string s).

Lemma app_String c a s : String c a ++ s = String c (a ++ s).
Proof. reflexivity. Qed.

Lemma rstrip_app a s : no_space a = true -> rstrip (a ++ s) = a ++ rstrip s.
Proof.
  induction a as [|c a IH]; [reflexivity|].
  unfold no_space. cbn [list_ascii_of_string forallb]. intros H.
  apply andb_prop in H as [Hc Ha]. apply negb_true_iff in Hc.
  rewrite !app_String, rstrip_cons by exact Hc. now rewrite IH.
Qed.

Lemma lstrip_app a s :
  no_space a = true -> a <> "" -> lstrip (a ++ s) = a ++ s.
Proof.
  destruct a as [|c a]; [congruence|].
  unfold no_space. cbn [list_ascii_of_string forallb]. intros H _.
  apply andb_prop in H as [Hc _]. apply negb_true_iff in Hc.
  rewrite app_String. cbn [lstrip]. now rewrite Hc.
Qed.

Lemma lower_app a s : lower (a ++ s) = lower a ++ lower s.
Proof.
  induction a as [|c a IH]; [reflexivity|].
  rewrite app_String. cbn [lower]. now rewrite IH, app_String.
Qed.

Lemma split_head_app a s :
  contains "-" a = false -> split_head "-" (a ++ String "-" s) = a.
Proof.
  induction a as [|c a IH]; [reflexivity|].
  rewrite app_String. cbn [contains split_head].
  destruct (Ascii.eqb "-" c); [discriminate|].
  cbn [orb]. intros H. now rewrite IH.
Qed.

Lemma contains_app c a s : contains c (a ++ s) = contains c a || contains c s.
Proof.
  induction a as [|d a IH]; [reflexivity|].
  rewrite app_String. cbn [contains]. rewrite IH. now rewrite orb_assoc.
Qed.

Lemma values_without_dash v :
  In v (dict_values LANGUAGE_NAME_MAP) -> contains "-" v = false.
Proof.
  cbn. intros H. repeat (destruct H as [<- | H]; [reflexivity|]). destruct H.
Qed.

(** A tag [a-region] whose head [a] is lower case, free of white space and
    of ["-"], is looked up by its head. *)
Lemma normalize_tag a region :
  a <> "" -> no_space a = true -> lower a = a -> contains "-" a = false ->
  normalize_lang_code (a ++ "-" ++ region)
  = match dict_get LANGUAGE_NAME_MAP a with Some code => code | None => a end.
Proof.
  intros Hne Hsp Hlow Hdash.
  assert (El : lower (strip (a ++ "-" ++ region))
               = a ++ String "-" (lower (rstrip region))).
  { unfold strip. rewrite lstrip_app by assumption.
    rewrite rstrip_app by assumption.
    change ("-" ++ region) with (String "-" region).
    rewrite rstrip_cons by reflexivity.
    rewrite lower_app, Hlow. reflexivity. }
  unfold normalize_lang_code. rewrite El.
  assert (Hc : contains "-" (a ++ String "-" (lower (rstrip region))) = true).
  { rewrite contains_app. cbn [contains]. rewrite Ascii.eqb_refl.
    now rewrite orb_true_r. }
  destruct (_ && _) eqn:EA.
  - apply andb_prop in EA as [_ Hin]. apply str_in_In, values_without_dash in Hin.
    congruence.
  - rewrite Hc, split_head_app by exact Hdash. reflexivity.
Qed.

Lemma normalize_no_dash_lower x :
  contains "-" (normalize_lang_code x) = false
  /\ lower (normalize_lang_code x) = normalize_lang_code x
  /\ starts_with_space (normalize_lang_code x) = false.
Proof.
  rewrite normalize_unfold.
  assert (Hv : forall v, In v (dict_values LANGUAGE_NAME_MAP) ->
                 contains "-" v = false /\ lower v = v /\ starts_with_space v = false).
  { cbn. intros v H. repeat (destruct H as [<- | H]; [now repeat split|]). destruct H. }
  destruct (_ && _) eqn:EA.
  - apply andb_prop in EA as [_ Hin]. apply Hv, str_in_In, Hin.
  - destruct (dict_get LANGUAGE_NAME_MAP (lookup_key x)) as [code|] eqn:Eg.
    + eapply Hv, dict_get_values, Eg.
    + destruct (clean_lower_strip x) as (Hs & _ & Hl). unfold lookup_key.
      split; [apply contains_split_head|].
      split; [now apply lower_split_head | now apply starts_with_space_split_head].
Qed.

End LanguageFacts.

(** [normalize_lang_code] does not see the case of the letters or the white
    space around its argument. *)
Theorem normalize_ignores_case_and_padding :
  forall x : string,
    LanguageUtils.normalize_lang_code (PyStr.lower x) = LanguageUtils.normalize_lang_code x
    /\ LanguageUtils.normalize_lang_code (PyStr.strip x) = LanguageUtils.normalize_lang_code x
    /\ Fonts.is_rtl_language (PyStr.lower (PyStr.strip x)) = Fonts.is_rtl_language x.
Proof.
  intros x. repeat apply conj.
  - apply normalize_through. now rewrite strip_lower, lower_idem.
  - apply normalize_through. now rewrite strip_idem.
  - unfold Fonts.is_rtl_language. f_equal. apply normalize_through.
    destruct (clean_lower_strip x) as (Hs & He & Hl).
    now rewrite (lower_strip_clean _ (conj Hs (conj He Hl))).
Qed.

(** Every name and every code of the table, followed by ["-"] and any
    region, normalizes to the code: a locale tag is reduced to its
    language whatever follows the separator. *)
Theorem normalize_locale_tag :
  Forall (fun entry : string * string =>
            forall region : string,
              LanguageUtils.normalize_lang_code (fst entry ++ "-" ++ region) = snd entry
              /\ LanguageUtils.normalize_lang_code (snd entry ++ "-" ++ region) = snd entry)
         LanguageUtils.LANGUAGE_NAME_MAP.
Proof.
  unfold LanguageUtils.LANGUAGE_NAME_MAP.
  repeat (constructor;
          [intros region; cbn [fst snd]; split;
           rewrite normalize_tag by (reflexivity || discriminate); reflexivity|]).
  constructor.
Qed.

(** What [normalize_lang_code] returns holds no ["-"], no upper-case letter
    and no leading white space, whatever the input. *)
Theorem normalize_result_shape :
  forall x : string,
    PyStr.contains "-" (LanguageUtils.normalize_lang_code x) = false
    /\ PyStr.lower (LanguageUtils.normalize_lang_code x) = LanguageUtils.normalize_lang_code x
    /\ PyStr.starts_with_space (LanguageUtils.normalize_lang_code x) = false.
Proof.
  intros x. destruct (normalize_no_dash_lower x) as (Hdash & Hlower & Hspace).
  repeat split; assumption.
Qed.

(** The four right-to-left codes are recognized in any locale tag, and so
    are the names of Hebrew and Arabic; the table has no name for Persian
    or Urdu, so their names are not. *)
Theorem rtl_codes_recognized :
  (forall region : string,
     Forall (fun code => Fonts.is_rtl_language (code ++ "-" ++ region) = true)
            Fonts.RTL_LANGUAGES)
  /\ (forall region : string,
        Fonts.is_rtl_language ("hebrew" ++ "-" ++ region) = true
        /\ Fonts.is_rtl_language ("arabic" ++ "-" ++ region) = true)
  /\ Fonts.is_rtl_language "Persian" = false
  /\ Fonts.is_rtl_language "Urdu" = false.
Proof.
  repeat apply conj; try reflexivity.
  - intros region. unfold Fonts.RTL_LANGUAGES, Fonts.is_rtl_language.
    repeat (constructor;
            [rewrite normalize_tag by (reflexivity || discriminate); reflexivity|]).
    constructor.
  - intros region. unfold Fonts.is_rtl_language.
    split; rewrite normalize_tag by (reflexivity || discriminate); reflexivity.
Qed.

(** ** Fonts *)
Section FontFacts.
Import PyStr LanguageUtils Fonts.

Lemma font_file_required code : In (font_file code) required_fonts.
Proof.
  unfold font_file, font_map. cbn [dict_get].
  repeat (destruct (String.eqb code _); [cbn; tauto|]). cbn. tauto.
Qed.

Lemma verified_font_exists here path_exists font :
  verify_fonts_exist here path_exists = true ->
  In font required_fonts ->
  path_exists (path_join (fonts_dir here) font) = true.
Proof.
  unfold verify_fonts_exist, missing_fonts. intros Hv Hin.
  destruct (path_exists (path_join (fonts_dir here) font)) eqn:E; [reflexivity|].
  assert (Hm : In font (List.filter
                          (fun f => negb (path_exists (path_join (fonts_dir here) f)))
                          required_fonts)).
  { apply List.filter_In. split; [exact Hin | now rewrite E]. }
  destruct (List.filter _ required_fonts); [destruct Hm | discriminate Hv].
Qed.

End FontFacts.

(** When [verify_fonts_exist] answers [True] and the fonts directory is
    there, [get_font_path] never raises and never falls back: for every
    language it returns the file of that language's script, which exists. *)
Theorem verified_fonts_are_found :
  forall (here : string) (path_exists : string -> bool) (lang : string),
    Fonts.verify_fonts_exist here path_exists = true ->
    path_exists (Fonts.fonts_dir here) = true ->
    Fonts.get_font_path here path_exists lang
    = Ok (Fonts.path_join (Fonts.fonts_dir here)
            (Fonts.font_file (LanguageUtils.normalize_lang_code lang)))
    /\ path_exists (Fonts.path_join (Fonts.fonts_dir here)
                      (Fonts.font_file (LanguageUtils.normalize_lang_code lang))) = true.
Proof.
  intros here path_exists lang Hv Hdir.
  assert (Hf : path_exists (Fonts.path_join (Fonts.fonts_dir here)
                              (Fonts.font_file (LanguageUtils.normalize_lang_code lang)))
               = true)
    by (apply verified_font_exists; [exact Hv | apply font_file_required]).
  split; [|exact Hf].
  unfold Fonts.get_font_path. rewrite Hdir. cbn [negb]. now rewrite Hf.
Qed.

Lemma verified_fonts_are_found_witness :
  Fonts.get_font_path "/app/utils" (fun _ => true) "ar-EG"
  = Ok "/app/utils/../assets/fonts/NotoSansArabic-Regular.ttf".
Proof.
  exact (proj1 (verified_fonts_are_found "/app/utils" (fun _ => true) "ar-EG"
                  eq_refl eq_refl)).
Defined.

(** [get_font_path] answers only with a file that exists: the file of the
    language, or [NotoSans-Regular.ttf] when that one is missing; it raises
    [FileNotFoundError], and nothing else, exactly when the fonts directory
    is missing or both files are. *)
Theorem font_path_exists_or_raises :
  forall (here : string) (path_exists : string -> bool) (lang : string),
    let dir := Fonts.fonts_dir here in
    let own := Fonts.path_join dir
                 (Fonts.font_file (LanguageUtils.normalize_lang_code lang)) in
    let fallback := Fonts.path_join dir "NotoSans-Regular.ttf" in
    match Fonts.get_font_path here path_exists lang with
    | Ok p =>
        path_exists p = true /\ path_exists dir = true
        /\ (p = own \/ (p = fallback /\ path_exists own = false))
    | Raise e =>
        exn_class e = FileNotFoundError
        /\ (path_exists dir = false
            \/ (path_exists own = false /\ path_exists fallback = false))
    end.
Proof.
  intros here path_exists lang dir own fallback.
  unfold Fonts.get_font_path. fold dir. fold own. fold fallback.
  destruct (path_exists dir) eqn:Ed; cbn [negb]; [|auto].
  destruct (path_exists own) eqn:Eo; cbn [negb]; [auto|].
  destruct (path_exists fallback) eqn:Ef; auto 6.
Qed.

(** ** The keys of the model cache *)
Section KeyFacts.
Import PyStr LanguageUtils.

Lemma app_cancel_l p x y : p ++ x = p ++ y -> x = y.
Proof.
  induction p as [|c p IH]; [now intros|].
  rewrite !app_String. intros [= H]. auto.
Qed.

Lemma app_length a b : String.length (a ++ b) = (String.length a + String.length b)%nat.
Proof.
  induction a as [|c a IH]; [reflexivity|].
  rewrite app_String. cbn [String.length]. now rewrite IH.
Qed.

Lemma app_cancel_r x y q : x ++ q = y ++ q -> x = y.
Proof.
  revert y. induction x as [|c x IH]; intros [|d y] H.
  - reflexivity.
  - exfalso. change ("" ++ q) with q in H. apply (f_equal String.length) in H.
    rewrite app_String in H. cbn [String.length] in H. rewrite app_length in H. lia.
  - exfalso. change ("" ++ q) with q in H. apply (f_equal String.length) in H.
    rewrite app_String in H. cbn [String.length] in H. rewrite app_length in H. lia.
  - rewrite !app_String in H. injection H as -> H. f_equal. auto.
Qed.

(** two strings cut at their first ["-"] *)
Lemma dash_split a r a' r' :
  contains "-" a = false -> contains "-" a' = false ->
  a ++ String "-" r = a' ++ String "-" r' -> a = a' /\ r = r'.
Proof.
  intros Ha Ha' H.
  assert (E : a = a').
  { rewrite <- (split_head_app a r Ha), <- (split_head_app a' r' Ha'). now rewrite H. }
  subst a'. apply app_cancel_l in H. injection H as ->. auto.
Qed.

Lemma contains_dash_app a r : contains "-" (a ++ String "-" r) = true.
Proof. rewrite contains_app. cbn [contains]. rewrite Ascii.eqb_refl. apply orb_true_r. Qed.

Lemma app_assoc_str a b c : (a ++ b) ++ c = a ++ (b ++ c).
Proof.
  induction a as [|x a IH]; [reflexivity|]. rewrite !app_String. now rewrite IH.
Qed.

(** The three names probed for a pair of codes, written from their common
    beginning. *)
Lemma model_variants_shape s t :
  model_variants s t
  = [ "Helsinki-NLP/opus-mt-" ++ (s ++ String "-" t);
      "Helsinki-NLP/opus-mt-" ++ ("tc" ++ String "-" ("big" ++ String "-" (s ++ String "-" t)));
      "Helsinki-NLP/opus-mt-" ++ (s ++ String "-" (t ++ String "-" "big")) ].
Proof. reflexivity. Qed.

Lemma variants_identify_pair s t s' t' i j name :
  contains "-" s = false -> contains "-" t = false ->
  contains "-" s' = false -> contains "-" t' = false ->
  nth_error (model_variants s t) i = Some name ->
  nth_error (model_variants s' t') j = Some name ->
  i = j /\ s = s' /\ t = t'.
Proof.
  intros Hs Ht Hs' Ht'. rewrite !model_variants_shape. intros Hi Hj.
  assert (Hbig : contains "-" "big" = false) by reflexivity.
  assert (Htc : contains "-" "tc" = false) by reflexivity.
  destruct i as [|[|[|i]]]; cbn [nth_error] in Hi; try (destruct i; discriminate Hi);
    destruct j as [|[|[|j]]]; cbn [nth_error] in Hj; try (destruct j; discriminate Hj);
    injection Hi as <-; injection Hj as Hj; symmetry in Hj;
    apply dash_split in Hj; try assumption; destruct Hj as [E1 E2].
  all: try (subst; solve [auto]).
  all: try (exfalso; subst;
            match goal with
            | H : contains "-" (_ ++ String "-" _) = false |- _ =>
                now rewrite contains_dash_app in H
            | H : contains "-" (String _ _ ++ String "-" _) = false |- _ =>
                now rewrite contains_dash_app in H
            end).
  - exfalso. change (t' ++ "-big") with (t' ++ String "-" "big") in E2.
    apply dash_split in E2; try assumption. destruct E2 as [_ E2].
    assert (C : contains "-" (s ++ String "-" t) = true) by apply contains_dash_app.
    now rewrite E2 in C.
  - exfalso. change (t ++ "-big") with (t ++ String "-" "big") in E2.
    apply dash_split in E2; try assumption. destruct E2 as [_ E2].
    assert (C : contains "-" (s' ++ String "-" t') = true) by apply contains_dash_app.
    now rewrite <- E2 in C.
  - apply app_cancel_r in E2. subst. auto.
Qed.

End KeyFacts.

(** The names under which direct models are cached tell the language pair:
    two pairs of normalized codes never share one of their three model
    names, and the three names of one pair differ.  The same holds for the
    key under which a pivot entry is stored. *)
Theorem cache_keys_identify_pair :
  forall (a b a' b' : string),
    let s := LanguageUtils.normalize_lang_code a in
    let t := LanguageUtils.normalize_lang_code b in
    let s' := LanguageUtils.normalize_lang_code a' in
    let t' := LanguageUtils.normalize_lang_code b' in
    (forall (i j : nat) (name : string),
       nth_error (model_variants s t) i = Some name ->
       nth_error (model_variants s' t') j = Some name ->
       i = j /\ s = s' /\ t = t')
    /\ (s ++ "-" ++ t ++ "_pivot" = s' ++ "-" ++ t' ++ "_pivot" -> s = s' /\ t = t').
Proof.
  intros a b a' b' s t s' t'.
  assert (Hs : PyStr.contains "-" s = false) by apply normalize_no_dash_lower.
  assert (Ht : PyStr.contains "-" t = false) by apply normalize_no_dash_lower.
  assert (Hs' : PyStr.contains "-" s' = false) by apply normalize_no_dash_lower.
  assert (Ht' : PyStr.contains "-" t' = false) by apply normalize_no_dash_lower.
  split.
  - intros i j name. now apply variants_identify_pair.
  - intros H. change ("-" ++ t ++ "_pivot") with (String "-" (t ++ "_pivot")) in H.
    change ("-" ++ t' ++ "_pivot") with (String "-" (t' ++ "_pivot")) in H.
    apply dash_split in H; try assumption. destruct H as [-> H].
    apply app_cancel_r in H. auto.
Qed.

Lemma cache_keys_identify_pair_witness :
  LanguageUtils.normalize_lang_code "Spanish" = LanguageUtils.normalize_lang_code "es-MX"
  /\ LanguageUtils.normalize_lang_code "en" = LanguageUtils.normalize_lang_code "EN".
Proof.
  exact (proj2 (proj1 (cache_keys_identify_pair "Spanish" "en" "es-MX" "EN")
                  2%nat 2%nat "Helsinki-NLP/opus-mt-es-en-big" eq_refl eq_refl)).
Defined.

(** ** The model cache and the client *)
Section CacheFacts.
Variable W : World.
Import PyStr LanguageUtils.

Ltac minv1 :=
  match goal with
  | H : _model_exists_on_hf W _ _ = (_, _) |- _ =>
      apply model_exists_inv in H; destruct H as ((? & ?) & ? & ?)
  | H : cache_store _ _ _ = (_, _) |- _ =>
      apply cache_store_inv in H; destruct H as (? & ? & ? & ?)
  | H : cache_load _ _ = (_, _) |- _ =>
      apply cache_load_inv in H; destruct H as [? [(? & ? & ?) | (? & ?)]]
  | H : bind _ _ _ = (_, _) |- _ =>
      apply bind_inv in H; destruct H as [(? & ? & ? & H) | (? & H & ?)]
  | H : try_except _ _ _ = (_, _) |- _ =>
      apply try_except_inv in H; destruct H as [(? & H & ?) | (? & ? & ? & H)]
  | H : call _ _ _ = (_, _) |- _ =>
      apply call_inv in H; destruct H as (? & ? & ? & ?)
  | H : call_total _ _ _ = (_, _) |- _ =>
      apply call_inv in H; destruct H as (? & ? & ? & ?)
  | H : ret _ _ = (_, _) |- _ => apply ret_inv in H; destruct H as [? ?]
  | H : raise _ _ = (_, _) |- _ => apply raise_inv in H; destruct H as [? ?]
  | H : lift _ _ = (_, _) |- _ => apply lift_inv in H; destruct H as [? ?]
  | H : get_self _ = (_, _) |- _ => apply get_self_inv in H; destruct H as [? ?]
  | H : put_self _ _ = (_, _) |- _ =>
      apply put_self_inv in H; destruct H as (? & ? & ? & ?)
  | H : Ok _ = Ok _ |- _ => injection H as H
  | H : Ok _ = Raise _ |- _ => discriminate H
  | H : Raise _ = Ok _ |- _ => discriminate H
  | H : Raise _ = Raise _ |- _ => injection H as H
  | H : Some _ = None |- _ => discriminate H
  | H : None = Some _ |- _ => discriminate H
  | H : Some _ = Some _ |- _ => injection H as H
  | H : (if ?b then _ else _) _ = (_, _) |- _ => destruct b eqn:?
  end.
Ltac minv := repeat (minv1; subst).

Ltac cache_hit :=
  match goal with
  | Hs : self ?x = {| client := _; translation_models := <[ ?k := _ ]> _ |},
    Hl : translation_models (self ?x) !! ?k = _ |- _ =>
      rewrite Hs in Hl; cbn [translation_models] in Hl;
      rewrite lookup_insert_eq in Hl
  end.

(** What the pivot block leaves: an entry of two models and two tokenizers
    under the pivot key when it returns one, and the service as it was
    otherwise. *)
Lemma load_pivot_spec s t st r st1 :
  load_pivot W s t st = (r, st1) ->
  match r with
  | Ok (Some (Some v)) =>
      (exists m1 m2 t1 t2,
         v = {| mi_model := Many [m1; m2]; mi_tokenizer := Many [t1; t2] |})
      /\ self st1 = {| client := client (self st);
                       translation_models :=
                         <[s ++ "-" ++ t ++ "_pivot" := v]> (translation_models (self st)) |}
  | Raise _ => False
  | _ => self st1 = self st
  end.
Proof.
  unfold load_pivot. intros H. minv; try congruence.
  all: cache_hit; minv.
  split; [eauto 6 | congruence].
Qed.

(** A key is the name of a direct model when it begins like one. *)
Definition is_model_name (k : string) : bool := Fonts.starts_with "H" k.

(** What one resolution does to the service: nothing, or one new entry
    under a model name that was not a key before, or one entry under the
    pivot key of the pair. *)
Lemma get_translation_model_effect source target st r st1 :
  get_translation_model W source target st = (r, st1) ->
  let s := normalize_lang_code source in
  let t := normalize_lang_code target in
  (exists o, r = Ok o)
  /\ frame st1 = frame st
  /\ (self st1 = self st /\ (forall v, r = Ok (Some v) ->
                              cached_variant (model_variants s t)
                                (translation_models (self st)) = Some v)
      \/ (exists k v,
            r = Ok (Some v)
            /\ self st1 = {| client := client (self st);
                             translation_models := <[k := v]> (translation_models (self st)) |}
            /\ ((In k (model_variants s t)
                 /\ cached_variant (model_variants s t) (translation_models (self st)) = None
                 /\ exists m tk, v = {| mi_model := One m; mi_tokenizer := One tk |})
                \/ (k = s ++ "-" ++ t ++ "_pivot"
                    /\ exists m1 m2 t1 t2,
                         v = {| mi_model := Many [m1; m2];
                                mi_tokenizer := Many [t1; t2] |})))).
Proof.
  intros H s t. unfold get_translation_model in H. fold s t in H.
  destruct (_ && _).
  { minv. split; [eauto|]. split; [reflexivity|]. left. split; [reflexivity|discriminate]. }
  apply bind_inv in H. destruct H as [(sv & st' & Hg & H) | (? & Hg & ?)]; [|now minv].
  apply get_self_inv in Hg. destruct Hg as [[= ->] ->].
  destruct (cached_variant _ _) as [v0|] eqn:Ec.
  { minv. split; [eauto|]. split; [reflexivity|]. left.
    split; [reflexivity|]. now intros v [= ->]. }
  apply bind_inv in H. destruct H as [(d & st2 & Hd & H) | (e & Hd & ->)].
  2:{ exfalso. destruct (returns_load_direct W (model_variants s t) st) as (a & sa & E).
      congruence. }
  apply load_direct_spec in Hd. destruct Hd as (Hf & Hd).
  destruct d as [v1|].
  { minv. split; [eauto|]. split; [exact Hf|]. right.
    destruct Hd as (k & m & tk & Hin & -> & Hs).
    exists k. eexists. split; [reflexivity|]. split; [exact Hs|]. left. eauto 6. }
  destruct (negb _).
  2:{ minv. split; [eauto|]. split; [exact Hf|]. left. split; [exact Hd|discriminate]. }
  apply bind_inv in H. destruct H as [(p & st3 & Hp & H) | (e & Hp & ->)].
  2:{ exfalso. apply load_pivot_spec in Hp. exact Hp. }
  assert (Hf3 : frame st3 = frame st2) by (revert Hp; apply keeps_frame_load_pivot).
  apply load_pivot_spec in Hp.
  destruct p as [[v|]|]; minv.
  - destruct Hp as (Hv & Hs). split; [eauto|]. split; [congruence|]. right.
    exists (s ++ "-" ++ t ++ "_pivot"), v. split; [reflexivity|].
    split; [rewrite Hs, Hd; reflexivity|]. right. auto.
  - split; [eauto|]. split; [congruence|]. left. split; [congruence|discriminate].
  - split; [eauto|]. split; [congruence|]. left. split; [congruence|discriminate].
Qed.

Lemma cached_variant_none names (c : gmap string ModelInfo) k :
  cached_variant names c = None -> In k names -> c !! k = None.
Proof.
  induction names as [|n rest IH]; [intros _ []|].
  cbn [cached_variant]. destruct (c !! n) eqn:E; [discriminate|].
  intros Hn [<- | Hin]; auto.
Qed.

Lemma cached_variant_insert_other names (c : gmap string ModelInfo) k v :
  ~ In k names -> cached_variant names (<[k := v]> c) = cached_variant names c.
Proof.
  induction names as [|n rest IH]; [reflexivity|].
  intros Hn. cbn [cached_variant].
  rewrite lookup_insert_ne by (intros ->; apply Hn; now left).
  rewrite IH; [reflexivity|]. intros Hin. apply Hn. now right.
Qed.

Lemma variants_are_model_names s t k :
  In k (model_variants s t) -> is_model_name k = true.
Proof.
  rewrite model_variants_shape.
  intros [<- | [<- | [<- | []]]]; reflexivity.
Qed.

Lemma pivot_key_no_model_name s x :
  lower s = s -> is_model_name (s ++ String "-" x) = false.
Proof.
  destruct s as [|c s]; [reflexivity|].
  rewrite app_String. cbn [lower]. intros [= Hc _].
  unfold is_model_name, Fonts.starts_with.
  destruct (Ascii.eqb "H" c) eqn:E; [|reflexivity].
  apply Ascii.eqb_eq in E. subst c. discriminate Hc.
Qed.

(** A resolution keeps what is stored under a model name. *)
Lemma model_entries_kept source target st r st1 k v :
  get_translation_model W source target st = (r, st1) ->
  is_model_name k = true ->
  translation_models (self st) !! k = Some v ->
  translation_models (self st1) !! k = Some v.
Proof.
  intros H Hk Hv. apply get_translation_model_effect in H.
  destruct H as (_ & _ & [[-> _] | (k' & v' & _ & -> & Hcase)]); [exact Hv|].
  cbn [translation_models]. rewrite lookup_insert_ne; [exact Hv|].
  intros ->. destruct Hcase as [(Hin & Hnone & _) | (-> & _)].
  - rewrite (cached_variant_none _ _ _ Hnone Hin) in Hv. discriminate Hv.
  - change ("-" ++ ?x) with (String "-" x) in Hk.
    rewrite pivot_key_no_model_name in Hk; [discriminate|].
    apply normalize_no_dash_lower.
Qed.

(** The first hit among the names of one pair survives a resolution of any
    pair. *)
Lemma cached_hit_kept source target st r st1 a b v :
  get_translation_model W source target st = (r, st1) ->
  let names := model_variants (normalize_lang_code a) (normalize_lang_code b) in
  cached_variant names (translation_models (self st)) = Some v ->
  cached_variant names (translation_models (self st1)) = Some v.
Proof.
  intros H names Hhit. apply get_translation_model_effect in H.
  destruct H as (_ & _ & [[-> _] | (k' & v' & _ & -> & Hcase)]); [exact Hhit|].
  cbn [translation_models]. rewrite cached_variant_insert_other; [exact Hhit|].
  intros Hin. destruct Hcase as [(Hin' & Hnone & _) | (-> & _)].
  - destruct (In_nth_error _ _ Hin) as (i & Hi).
    destruct (In_nth_error _ _ Hin') as (j & Hj).
    destruct (variants_identify_pair _ _ _ _ _ _ _
                (proj1 (normalize_no_dash_lower a)) (proj1 (normalize_no_dash_lower b))
                (proj1 (normalize_no_dash_lower source))
                (proj1 (normalize_no_dash_lower target)) Hi Hj) as (_ & Ea & Eb).
    subst names. rewrite Ea, Eb, Hnone in Hhit. discriminate Hhit.
  - apply variants_are_model_names in Hin.
    change ("-" ++ ?x) with (String "-" x) in Hin.
    rewrite pivot_key_no_model_name in Hin; [discriminate|].
    apply normalize_no_dash_lower.
Qed.

(** The state after a series of resolutions. *)
Fixpoint after_resolutions (pairs : list (string * string)) (st : State) : State :=
  match pairs with
  | [] => st
  | (a, b) :: rest => after_resolutions rest (snd (get_translation_model W a b st))
  end.

Lemma cached_hit_kept_all pairs : forall st a b v,
  cached_variant (model_variants (normalize_lang_code a) (normalize_lang_code b))
    (translation_models (self st)) = Some v ->
  cached_variant (model_variants (normalize_lang_code a) (normalize_lang_code b))
    (translation_models (self (after_resolutions pairs st))) = Some v.
Proof.
  induction pairs as [|[x y] rest IH]; intros st a b v Hhit; [exact Hhit|].
  cbn [after_resolutions]. apply IH.
  destruct (get_translation_model W x y st) as [r st'] eqn:E.
  exact (cached_hit_kept _ _ _ _ _ a b v E Hhit).
Qed.

Lemma first_direct_hit source target st v st1 :
  get_translation_model W source target st = (Ok (Some v), st1) ->
  (exists m, mi_model v = One m) ->
  cached_variant (model_variants (normalize_lang_code source) (normalize_lang_code target))
    (translation_models (self st1)) = Some v.
Proof.
  intros H (m & Hm). apply get_translation_model_effect in H.
  destruct H as (_ & _ & [[-> Hhit] | (k & v' & [= <-] & -> & Hcase)]); [now apply Hhit|].
  cbn [translation_models].
  destruct Hcase as [(Hin & Hnone & _) | (_ & m1 & m2 & t1 & t2 & ->)].
  - now apply cached_variant_insert.
  - discriminate Hm.
Qed.

Lemma served_from_cache source target st0 v0 st1 st v :
  get_translation_model W source target st0 = (Ok (Some v0), st1) ->
  cached_variant (model_variants (normalize_lang_code source) (normalize_lang_code target))
    (translation_models (self st)) = Some v ->
  get_translation_model W source target st = (Ok (Some v), st).
Proof.
  unfold get_translation_model. destruct (_ && _); [intros H; now minv|].
  intros _ Hhit. unfold bind, get_self. now rewrite Hhit.
Qed.

(** *** Steps that leave the service object alone *)

Definition keeps_self {A} (m : M A) : Prop :=
  forall st r st1, m st = (r, st1) -> self st1 = self st.

Lemma keeps_self_ret {A} (a : A) : keeps_self (ret a).
Proof. intros st r st1 H. now minv. Qed.

Lemma keeps_self_raise {A} e : keeps_self (@raise A e).
Proof. intros st r st1 H. now minv. Qed.

Lemma keeps_self_lift {A} (x : res A) : keeps_self (lift x).
Proof. intros st r st1 H. now minv. Qed.

Lemma keeps_self_call {A} ev (f : History -> res A) : keeps_self (call ev f).
Proof. intros st r st1 H. now minv. Qed.

Lemma keeps_self_get_self : keeps_self get_self.
Proof. intros st r st1 H. now minv. Qed.

Lemma keeps_self_bind {A B} (m : M A) (k : A -> M B) :
  keeps_self m -> (forall a, keeps_self (k a)) -> keeps_self (bind m k).
Proof.
  intros Hm Hk st r st1 H. apply bind_inv in H.
  destruct H as [(a & st' & H1 & H2) | (e & H1 & _)].
  - rewrite (Hk a _ _ _ H2). eapply Hm, H1.
  - eapply Hm, H1.
Qed.

Lemma keeps_self_try_except {A} (m : M A) (h : exn -> M A) :
  keeps_self m -> (forall e, keeps_self (h e)) -> keeps_self (try_except m h).
Proof.
  intros Hm Hh st r st1 H. apply try_except_inv in H.
  destruct H as [(a & H1 & _) | (e & st' & H1 & H2)].
  - eapply Hm, H1.
  - rewrite (Hh e _ _ _ H2). eapply Hm, H1.
Qed.

Ltac self_steps :=
  repeat first
    [ apply keeps_self_ret | apply keeps_self_raise | apply keeps_self_lift
    | apply keeps_self_call
    | apply keeps_self_get_self
    | match goal with
      | |- keeps_self (bind _ _) => apply keeps_self_bind; [|intros ?]
      | |- keeps_self (try_except _ _) => apply keeps_self_try_except; [|intros ?]
      | |- keeps_self (match ?x with _ => _ end) => destruct x
      | |- keeps_self (if ?x then _ else _) => destruct x
      | |- keeps_self (let _ := _ in _) => cbv zeta
      end ].

Lemma keeps_self_run_model m t text : keeps_self (run_model W m t text).
Proof. unfold run_model, apply_tokenizer, apply_decode, index0. self_steps. Qed.

(** With a client, [ensure_initialized] does nothing. *)
Lemma ensure_initialized_ready st c :
  client (self st) = Some c -> ensure_initialized W st = (Ok tt, st).
Proof. intros Hc. unfold ensure_initialized, bind, get_self. now rewrite Hc. Qed.

Lemma groq_fallback_ready text s t st c :
  client (self st) = Some c ->
  exists out st1,
    _translate_with_groq_fallback W text s t st = (Ok out, st1) /\ self st1 = self st.
Proof.
  intros Hc. unfold _translate_with_groq_fallback.
  rewrite bind_eq, (ensure_initialized_ready st c Hc).
  match goal with
  | |- context [try_except ?m ?h st] =>
      assert (Hks : keeps_self (try_except m h))
        by (unfold the_client, index0; self_steps);
      destruct (returns_try_except m h (fun e => returns_ret text) st) as (out & st1 & E)
  end.
  exists out, st1. split; [exact E|]. exact (Hks _ _ _ E).
Qed.

Lemma translate_text_ready text s t st c :
  client (self st) = Some c ->
  exists out st1,
    translate_text W text s t st = (Ok out, st1) /\ client (self st1) = Some c.
Proof.
  intros Hc. unfold translate_text.
  destruct (String.eqb _ _); [exists text, st; now split|].
  destruct (_ && _).
  { destruct (groq_fallback_ready text (normalize_lang_code s) (normalize_lang_code t) st c Hc)
      as (out & st1 & E & Hs).
    exists out, st1. split; [exact E | now rewrite Hs]. }
  rewrite bind_eq.
  destruct (get_translation_model W (normalize_lang_code s) (normalize_lang_code t) st)
    as [r st1] eqn:Eg.
  assert (Hc1 : client (self st1) = Some c).
  { apply get_translation_model_effect in Eg.
    destruct Eg as (_ & _ & [[-> _] | (k & v & _ & -> & _)]); exact Hc. }
  apply get_translation_model_effect in Eg. destruct Eg as ((o & ->) & _).
  destruct o as [mi|].
  2:{ destruct (groq_fallback_ready text (normalize_lang_code s) (normalize_lang_code t) st1 c Hc1)
        as (out & st2 & E & Hs).
      exists out, st2. split; [exact E | now rewrite Hs]. }
  match goal with
  | |- context [try_except ?m ?h st1] =>
      assert (Hks : keeps_self m)
        by (unfold get_name_or_path, unpack2; self_steps; apply keeps_self_run_model);
      unfold try_except; destruct (m st1) as [[out|e] st2] eqn:Em
  end.
  - exists out, st2. split; [reflexivity|]. now rewrite (Hks _ _ _ Em).
  - assert (Hc2 : client (self st2) = Some c) by now rewrite (Hks _ _ _ Em).
    destruct (groq_fallback_ready text (normalize_lang_code s) (normalize_lang_code t) st2 c Hc2)
      as (out & st3 & E & Hs).
    exists out, st3. split; [exact E | now rewrite Hs].
Qed.

End CacheFacts.

(** More collaborators to run the functions on. *)
Module MoreFixtures.

(** A model repository that has every model; loading succeeds. *)
Definition full_hub : World :=
  {| env_GROQ_API_KEY := Some "gsk_test";
     config_GROQ_API_KEY := None;
     groq_Client := fun _ _ => Ok 7%nat;
     requests_get := fun _ _ => Ok 200%Z;
     MarianMTModel_from_pretrained := fun h name =>
       Ok {| model_name_or_path := name; model_obj := length h |};
     MarianTokenizer_from_pretrained := fun h name =>
       Ok {| name_or_path := name; tokenizer_obj := length h |};
     chat_completions_create := fun _ _ _ text => Ok [Some (" remote: " ++ text ++ " ")];
     tokenizer_call := fun _ _ _ => Ok [1%Z];
     model_generate := fun _ _ tokens => Ok [tokens];
     tokenizer_decode := fun _ t _ => Ok ("by " ++ name_or_path t);
     open_rb := fun _ _ => Ok tt;
     audio_translations_create := fun _ _ _ => Ok Fixtures.whisper_response;
     audio_transcriptions_create := fun _ _ _ _ => Ok Fixtures.whisper_response;
     validate_and_get_video_id := fun _ _ => "65f0c0ffee0123456789abcd";
     find_one := fun _ _ => Ok (Some {| rec_segments := None |});
     uuid4 := fun _ => "00000000-0000-4000-8000-000000000000";
     ffmpeg_extract := fun _ _ _ => Ok tt;
     add_subtitles := fun _ _ _ _ _ => Ok "/app/uploads/output/out.mp4";
     os_path_exists := fun _ _ => true;
     os_remove := fun _ _ => Ok tt;
     update_one := fun _ _ _ => Ok tt;
     output_folder := "/app/uploads/output";
     float_of_str := Fixtures.no_number |}.

End MoreFixtures.

(** A resolution never changes the client, leaves the service object as it
    was when it finds no model, and keeps every entry that is stored under
    a model name: nothing is removed from the cache of direct models and
    nothing in it is overwritten. *)
Theorem resolution_keeps_service :
  forall (W : World) (source target : string) (st : State)
         (r : res (option ModelInfo)) (st1 : State),
    get_translation_model W source target st = (r, st1) ->
    client (self st1) = client (self st)
    /\ (r = Ok None -> self st1 = self st)
    /\ (forall k v, is_model_name k = true ->
          translation_models (self st) !! k = Some v ->
          translation_models (self st1) !! k = Some v).
Proof.
  intros W source target st r st1 H. repeat apply conj.
  - apply get_translation_model_effect in H.
    now destruct H as (_ & _ & [[-> _] | (k & v & _ & -> & _)]).
  - intros ->. apply get_translation_model_effect in H.
    now destruct H as (_ & _ & [[-> _] | (k & v & [= ] & _)]).
  - intros k v. eapply model_entries_kept, H.
Qed.

Lemma resolution_keeps_service_witness :
  self (snd (get_translation_model Fixtures.offline "es" "en" Fixtures.fresh))
  = self Fixtures.fresh.
Proof.
  apply (resolution_keeps_service Fixtures.offline "es" "en" Fixtures.fresh
           (fst (get_translation_model Fixtures.offline "es" "en" Fixtures.fresh))).
  - apply surjective_pairing.
  - vm_compute. reflexivity.
Defined.

(** Once a call has resolved a direct model for a pair, the same call
    returns that entry from the cache, with no probe, no load and no change
    of state, after any series of resolutions of any pairs. *)
Theorem direct_model_served_from_cache :
  forall (W : World) (source target : string) (st : State) (v : ModelInfo)
         (st1 : State) (pairs : list (string * string)),
    get_translation_model W source target st = (Ok (Some v), st1) ->
    (exists m, mi_model v = One m) ->
    get_translation_model W source target (after_resolutions W pairs st1)
    = (Ok (Some v), after_resolutions W pairs st1).
Proof.
  intros W source target st v st1 pairs H Hone.
  eapply served_from_cache; [exact H|].
  apply cached_hit_kept_all. exact (first_direct_hit W _ _ _ _ _ H Hone).
Qed.

Lemma direct_model_served_from_cache_witness :
  let first := get_translation_model MoreFixtures.full_hub "Spanish" "en" Fixtures.fresh in
  let later := after_resolutions MoreFixtures.full_hub
                 [("he", "fr"); ("es-MX", "EN"); ("en", "de")] (snd first) in
  exists v, fst first = Ok (Some v)
            /\ get_translation_model MoreFixtures.full_hub "Spanish" "en" later
               = (Ok (Some v), later).
Proof.
  intros first later.
  assert (E : exists v, first = (Ok (Some v), snd first)
                        /\ exists m, mi_model v = One m)
    by (vm_compute; eauto).
  destruct E as (v & E & Hone). exists v. split; [now rewrite E|].
  exact (direct_model_served_from_cache MoreFixtures.full_hub "Spanish" "en"
           Fixtures.fresh v (snd first) _ E Hone).
Defined.

(** An entry whose tokenizer is a list, as every pivot entry is, is never
    applied: [translate_text] reads [name_or_path] on the list, which
    raises inside the [try], and the text goes to the remote fallback
    without any call to a tokenizer or a model. *)
Theorem pivot_entry_falls_back :
  forall (W : World) (text source target : string) (st : State)
         (mi : ModelInfo) (st1 : State) (l : list Tokenizer),
    LanguageUtils.normalize_lang_code source <> LanguageUtils.normalize_lang_code target ->
    get_translation_model W (LanguageUtils.normalize_lang_code source)
      (LanguageUtils.normalize_lang_code target) st = (Ok (Some mi), st1) ->
    mi_tokenizer mi = Many l ->
    translate_text W text source target st
    = _translate_with_groq_fallback W text (LanguageUtils.normalize_lang_code source)
        (LanguageUtils.normalize_lang_code target) st1.
Proof.
  intros W text source target st mi st1 l Hne Hg Hl.
  unfold translate_text.
  destruct (String.eqb _ _) eqn:E; [apply String.eqb_eq in E; contradiction|].
  destruct (_ && _) eqn:Ear.
  { exfalso. apply andb_prop in Ear as [E1 E2].
    apply String.eqb_eq in E1. apply String.eqb_eq in E2.
    rewrite E1, E2 in Hg. discriminate Hg. }
  rewrite bind_eq, Hg. unfold try_except. rewrite bind_eq.
  rewrite Hl. reflexivity.
Qed.

Lemma pivot_entry_falls_back_witness :
  let resolved := get_translation_model Fixtures.pivot_hub "he" "fr" Fixtures.fresh in
  translate_text Fixtures.pivot_hub "shalom" "Hebrew" "fr-FR" Fixtures.fresh
  = _translate_with_groq_fallback Fixtures.pivot_hub "shalom" "he" "fr" (snd resolved).
Proof.
  intros resolved.
  assert (E : exists mi l, resolved = (Ok (Some mi), snd resolved)
                           /\ mi_tokenizer mi = Many l)
    by (vm_compute; eauto).
  destruct E as (mi & l & E & Hl).
  exact (pivot_entry_falls_back Fixtures.pivot_hub "shalom" "Hebrew" "fr-FR"
           Fixtures.fresh mi (snd resolved) l ltac:(discriminate) E Hl).
Defined.

(** [ensure_initialized] builds the client at most once: with a client it
    returns at once and changes nothing; when it returns normally the
    client is there, so that a second call does nothing; it never touches
    the model cache. *)
Theorem ensure_initialized_once :
  forall (W : World) (st : State) (r : res unit) (st1 : State),
    ensure_initialized W st = (r, st1) ->
    (forall c, client (self st) = Some c -> r = Ok tt /\ st1 = st)
    /\ (r = Ok tt -> (exists c, client (self st1) = Some c)
                     /\ ensure_initialized W st1 = (Ok tt, st1))
    /\ translation_models (self st1) = translation_models (self st)
    /\ frame st1 = frame st.
Proof.
  intros W st r st1 H. repeat apply conj.
  - intros c Hc. rewrite (ensure_initialized_ready W st c Hc) in H.
    now injection H as <- <-.
  - intros ->. destruct (ensure_initialized_client W st st1 H) as (c & Hc).
    split; [eauto|]. exact (ensure_initialized_ready W st1 c Hc).
  - unfold ensure_initialized in H.
    apply bind_inv in H. destruct H as [(s & st' & Hg & H) | (e & Hg & _)];
      [|apply get_self_inv in Hg; now destruct Hg].
    apply get_self_inv in Hg. destruct Hg as [[= ->] ->].
    destruct (client (self st)); [apply ret_inv in H; now destruct H as [_ ->]|].
    destruct (if truthy _ then _ else _) as [[|a k]|];
      try (apply raise_inv in H; now destruct H as [_ ->]).
    apply try_except_inv in H. destruct H as [(u & H & _) | (e & st2 & H & Hh)].
    + apply bind_inv in H. destruct H as [(cl & st2 & Hc & H) | (e & Hc & _)].
      * apply call_inv in Hc. destruct Hc as (_ & Hs & _).
        apply bind_inv in H. destruct H as [(s2 & st3 & Hg & H) | (e & Hg & _)];
          [|apply get_self_inv in Hg; now destruct Hg].
        apply get_self_inv in Hg. destruct Hg as [[= ->] ->].
        apply put_self_inv in H. destruct H as (_ & -> & _). cbn. now rewrite Hs.
      * apply call_inv in Hc. destruct Hc as (_ & Hs & _). now rewrite Hs.
    + apply raise_inv in Hh. destruct Hh as [_ ->].
      apply bind_inv in H. destruct H as [(cl & st3 & Hc & H) | (e' & Hc & _)].
      * apply call_inv in Hc. destruct Hc as (_ & Hs & _).
        apply bind_inv in H. destruct H as [(s2 & st4 & Hg & H) | (e' & Hg & _)];
          [|apply get_self_inv in Hg; now destruct Hg].
        apply get_self_inv in Hg. destruct Hg as [[= ->] ->].
        apply put_self_inv in H. now destruct H.
      * apply call_inv in Hc. destruct Hc as (_ & Hs & _). now rewrite Hs.
  - revert H. apply keeps_frame_ensure_initialized.
Qed.

Lemma ensure_initialized_once_witness :
  let st1 := snd (ensure_initialized MoreFixtures.full_hub Fixtures.fresh) in
  client (self st1) = Some 7%nat
  /\ ensure_initialized MoreFixtures.full_hub st1 = (Ok tt, st1).
Proof.
  intros st1.
  destruct (ensure_initialized_once MoreFixtures.full_hub Fixtures.fresh
              (fst (ensure_initialized MoreFixtures.full_hub Fixtures.fresh)) st1
              (surjective_pairing _)) as (_ & H & _).
  destruct (H eq_refl) as (_ & E). split; [reflexivity | exact E].
Defined.

(** Once the client is there, [translate_text] never raises: whatever the
    model repository, the models and the remote service do, it returns a
    text, and the client is still there afterwards. *)
Theorem translate_text_returns_with_client :
  forall (W : World) (text source target : string) (st : State) (c : Client),
    client (self st) = Some c ->
    exists out st1,
      translate_text W text source target st = (Ok out, st1)
      /\ client (self st1) = Some c.
Proof.
  intros W text source target st c Hc.
  destruct (translate_text_ready W text source target st c Hc) as (out & st1 & E & Hc1).
  exists out, st1. split; assumption.
Qed.

Lemma translate_text_returns_with_client_witness :
  exists st1,
    translate_text Fixtures.offline "Hola" "es" "en" Fixtures.ready = (Ok "Hola", st1).
Proof.
  destruct (translate_text_returns_with_client Fixtures.offline "Hola" "es" "en"
              Fixtures.ready 1%nat eq_refl) as (out & st1 & E & _).
  exists st1. rewrite E. vm_compute in E. now injection E as <- _.
Defined.

(** ** What a run of the pipeline does to the outside *)
Section RunFacts.
Variable W : World.

(** Every event that the computation adds to the history satisfies [ok]. *)
Definition only {A} (ok : Event -> bool) (m : M A) : Prop :=
  forall st r st1, m st = (r, st1) ->
    exists evs, history st1 = (history st ++ evs)%list /\ forallb ok evs = true.

Lemma only_nothing {A} ok (m : M A) :
  (forall st r st1, m st = (r, st1) -> history st1 = history st) -> only ok m.
Proof.
  intros Hm st r st1 H. exists []. rewrite (Hm _ _ _ H), app_nil_r. now split.
Qed.

Lemma only_ret {A} ok (a : A) : only ok (ret a).
Proof. apply only_nothing. intros st r st1 H. apply ret_inv in H. now destruct H as [_ ->]. Qed.

Lemma only_raise {A} ok e : only ok (@raise A e).
Proof. apply only_nothing. intros st r st1 H. apply raise_inv in H. now destruct H as [_ ->]. Qed.

Lemma only_lift {A} ok (x : res A) : only ok (lift x).
Proof. apply only_nothing. intros st r st1 H. apply lift_inv in H. now destruct H as [_ ->]. Qed.

Lemma only_get_self ok : only ok get_self.
Proof. apply only_nothing. intros st r st1 H. apply get_self_inv in H. now destruct H as [_ ->]. Qed.

Lemma only_put_self ok s : only ok (put_self s).
Proof. apply only_nothing. intros st r st1 H. apply put_self_inv in H. apply H. Qed.

Lemma only_get_frame ok : only ok get_frame.
Proof. apply only_nothing. intros st r st1 H. apply get_frame_inv in H. now destruct H as [_ ->]. Qed.

Lemma only_put_frame ok f : only ok (put_frame f).
Proof. apply only_nothing. intros st r st1 H. apply put_frame_inv in H. now destruct H as (_ & _ & _ & E). Qed.

Lemma only_call {A} (ok : Event -> bool) ev (f : History -> res A) :
  ok ev = true -> only ok (call ev f).
Proof.
  intros Hev st r st1 H. apply call_inv in H. destruct H as (_ & _ & _ & ->).
  exists [ev]. split; [reflexivity|]. cbn. now rewrite Hev.
Qed.

Lemma only_call_total {A} (ok : Event -> bool) ev (f : History -> A) :
  ok ev = true -> only ok (call_total ev f).
Proof. apply only_call. Qed.

Lemma only_bind {A B} ok (m : M A) (k : A -> M B) :
  only ok m -> (forall a, only ok (k a)) -> only ok (bind m k).
Proof.
  intros Hm Hk st r st1 H. apply bind_inv in H.
  destruct H as [(a & st' & H1 & H2) | (e & H1 & _)].
  - destruct (Hm _ _ _ H1) as (e1 & E1 & F1). destruct (Hk a _ _ _ H2) as (e2 & E2 & F2).
    exists (e1 ++ e2)%list. rewrite E2, E1, <- app_assoc. split; [reflexivity|].
    rewrite forallb_app. now rewrite F1, F2.
  - eapply Hm, H1.
Qed.

Lemma only_try_except {A} ok (m : M A) (h : exn -> M A) :
  only ok m -> (forall e, only ok (h e)) -> only ok (try_except m h).
Proof.
  intros Hm Hh st r st1 H. apply try_except_inv in H.
  destruct H as [(a & H1 & _) | (e & st' & H1 & H2)].
  - eapply Hm, H1.
  - destruct (Hm _ _ _ H1) as (e1 & E1 & F1). destruct (Hh e _ _ _ H2) as (e2 & E2 & F2).
    exists (e1 ++ e2)%list. rewrite E2, E1, <- app_assoc. split; [reflexivity|].
    rewrite forallb_app. now rewrite F1, F2.
Qed.

Lemma only_weaken {A} (ok ok' : Event -> bool) (m : M A) :
  (forall ev, ok ev = true -> ok' ev = true) -> only ok m -> only ok' m.
Proof.
  intros Hw Hm st r st1 H. destruct (Hm _ _ _ H) as (evs & E & F).
  exists evs. split; [exact E|]. rewrite forallb_forall in F |- *. auto.
Qed.

(** The events of the stages: everything but a progress message and the
    removal of a file. *)
Definition is_stage_event (ev : Event) : bool :=
  match ev with
  | EYield _ | ERemove _ => false
  | _ => true
  end.

Create HintDb events discriminated.
#[local] Hint Resolve only_ret only_raise only_lift only_get_self only_put_self
  only_get_frame only_put_frame : events.

Ltac only_steps :=
  repeat first
    [ progress auto with events
    | match goal with
      | |- only _ (bind _ _) => apply only_bind; [|intros ?]
      | |- only _ (try_except _ _) => apply only_try_except; [|intros ?]
      | |- only _ (call _ _) => apply only_call; reflexivity
      | |- only _ (call_total _ _) => apply only_call; reflexivity
      | |- only _ (yield _) => apply only_call; reflexivity
      | |- only _ (match ?x with _ => _ end) => destruct x
      | |- only _ (if ?x then _ else _) => destruct x
      | |- only _ (let _ := _ in _) => cbv zeta
      | |- only _ _ =>
          apply (only_weaken is_stage_event);
          [ intros [] ?; solve [reflexivity | assumption] | solve [auto with events] ]
      end ].

Lemma staged_cache_store k v : only is_stage_event (cache_store k v).
Proof. unfold cache_store. only_steps. Qed.

Lemma staged_cache_load k : only is_stage_event (cache_load k).
Proof. unfold cache_load. only_steps. Qed.

Lemma staged_the_client : only is_stage_event the_client.
Proof. unfold the_client. only_steps. Qed.

Lemma staged_index0 {A} (l : list A) : only is_stage_event (index0 l).
Proof. unfold index0. only_steps. Qed.

Lemma staged_ensure_initialized : only is_stage_event (ensure_initialized W).
Proof. unfold ensure_initialized. only_steps. Qed.

Lemma staged_model_exists name : only is_stage_event (_model_exists_on_hf W name).
Proof. unfold _model_exists_on_hf. only_steps. Qed.

#[local] Hint Resolve staged_cache_store staged_cache_load staged_the_client
  staged_index0 staged_ensure_initialized staged_model_exists : events.

Lemma staged_load_direct names : only is_stage_event (load_direct W names).
Proof. induction names as [|n rest IH]; cbn [load_direct]; only_steps. Qed.

Lemma staged_load_pivot s t : only is_stage_event (load_pivot W s t).
Proof. unfold load_pivot. only_steps. Qed.

#[local] Hint Resolve staged_load_direct staged_load_pivot : events.

Lemma staged_get_translation_model s t : only is_stage_event (get_translation_model W s t).
Proof. unfold get_translation_model. only_steps. Qed.

Lemma staged_groq_fallback text s t : only is_stage_event (_translate_with_groq_fallback W text s t).
Proof. unfold _translate_with_groq_fallback. only_steps. Qed.

Lemma staged_run_model m t text : only is_stage_event (run_model W m t text).
Proof. unfold run_model, apply_tokenizer, apply_decode. only_steps. Qed.

#[local] Hint Resolve staged_get_translation_model staged_groq_fallback
  staged_run_model : events.

Lemma staged_translate_text text s t : only is_stage_event (translate_text W text s t).
Proof. unfold translate_text, get_name_or_path, unpack2. only_steps. Qed.

#[local] Hint Resolve staged_translate_text : events.

Lemma staged_process_subtitles subs s t : only is_stage_event (_process_subtitles W subs s t).
Proof. induction subs as [|sub rest IH]; cbn [_process_subtitles]; only_steps. Qed.

Lemma staged_speech_response a s t : only is_stage_event (speech_response W a s t).
Proof. unfold speech_response. only_steps. Qed.

#[local] Hint Resolve staged_process_subtitles staged_speech_response : events.

Lemma staged_transcribe a s t : only is_stage_event (_transcribe_with_groq W a s t).
Proof. unfold _transcribe_with_groq. only_steps. Qed.

Lemma staged_detect_language a : only is_stage_event (detect_language W a).
Proof. unfold detect_language. only_steps. Qed.

Lemma staged_extract_audio v : only is_stage_event (_extract_audio W v).
Proof. unfold _extract_audio. only_steps. Qed.

Lemma staged_get_video v : only is_stage_event (get_video W v).
Proof. unfold get_video. only_steps. Qed.

Lemma staged_update_status v s e p : only is_stage_event (update_status W v s e p).
Proof. unfold update_status. only_steps. Qed.

Lemma staged_update_output_path v o l : only is_stage_event (update_output_path W v o l).
Proof. unfold update_output_path. only_steps. Qed.

#[local] Hint Resolve staged_transcribe staged_detect_language staged_extract_audio
  staged_get_video staged_update_status staged_update_output_path : events.

(** *** The progress messages of a run *)

Definition progress_of (ev : Event) : option Z :=
  match ev with
  | EYield message =>
      match jdict_get message "progress" with
      | Some (JInt p) => Some p
      | _ => None
      end
  | _ => None
  end.

(** The progress values of the messages in a history, in order. *)
Fixpoint reports (h : History) : list Z :=
  match h with
  | [] => []
  | ev :: rest =>
      match progress_of ev with
      | Some p => p :: reports rest
      | None => reports rest
      end
  end.

Lemma reports_app h1 h2 : reports (h1 ++ h2)%list = (reports h1 ++ reports h2)%list.
Proof.
  induction h1 as [|ev h1 IH]; [reflexivity|].
  cbn [reports app]. rewrite IH. now destruct (progress_of ev).
Qed.

Definition not_yield (ev : Event) : bool :=
  match ev with EYield _ => false | _ => true end.

Lemma reports_quiet evs : forallb not_yield evs = true -> reports evs = [].
Proof.
  induction evs as [|ev evs IH]; [reflexivity|].
  cbn [forallb reports]. intros H. apply andb_prop in H as [H1 H2].
  destruct ev; try discriminate H1; cbn [progress_of]; auto.
Qed.

Lemma stage_not_yield ev : is_stage_event ev = true -> not_yield ev = true.
Proof. now destruct ev. Qed.

(** every sequence of [a] followed by one of [b] *)
Definition seqs (a b : list (list Z)) : list (list Z) :=
  flat_map (fun l1 => map (app l1) b) a.

Lemma in_seqs l1 l2 a b : In l1 a -> In l2 b -> In (l1 ++ l2)%list (seqs a b).
Proof.
  intros H1 H2. unfold seqs. apply in_flat_map. exists l1. split; [exact H1|].
  now apply in_map.
Qed.

(** The progress values that a computation reports are one of the
    sequences of [ok] when it returns and one of [bad] when it raises. *)
Definition traces {A} (m : M A) (ok bad : list (list Z)) : Prop :=
  forall st r st1, m st = (r, st1) ->
    exists evs, history st1 = (history st ++ evs)%list
      /\ match r with
         | Ok _ => In (reports evs) ok
         | Raise _ => In (reports evs) bad
         end.

Lemma traces_quiet {A} (m : M A) : only not_yield m -> traces m [[]] [[]].
Proof.
  intros Hm st r st1 H. destruct (Hm _ _ _ H) as (evs & E & F).
  exists evs. split; [exact E|]. rewrite (reports_quiet _ F). destruct r; now left.
Qed.

Lemma traces_staged {A} (m : M A) : only is_stage_event m -> traces m [[]] [[]].
Proof. intros H. apply traces_quiet. revert H. apply only_weaken, stage_not_yield. Qed.

Lemma traces_total {A} (m : M A) :
  only not_yield m -> (forall st, exists a st', m st = (Ok a, st')) -> traces m [[]] [].
Proof.
  intros Hm Hret st r st1 H. destruct (Hm _ _ _ H) as (evs & E & F).
  exists evs. split; [exact E|]. rewrite (reports_quiet _ F).
  destruct (Hret st) as (a & st' & E'). rewrite E' in H. injection H as <- _. now left.
Qed.

Lemma traces_call_total {A} ev (f : History -> A) :
  not_yield ev = true -> traces (call_total ev f) [[]] [].
Proof.
  intros Hev. apply traces_total; [now apply only_call|].
  intros st. eexists _, _. reflexivity.
Qed.

Lemma traces_get_frame : traces get_frame [[]] [].
Proof. apply traces_total; [apply only_get_frame|]. intros st. eexists _, _. reflexivity. Qed.

Lemma traces_put_frame f : traces (put_frame f) [[]] [].
Proof. apply traces_total; [apply only_put_frame|]. intros st. eexists _, _. reflexivity. Qed.

Lemma traces_yield message p :
  progress_of (EYield message) = Some p -> traces (yield message) [[p]] [].
Proof.
  intros Hp st r st1 H. apply call_inv in H. destruct H as (-> & _ & _ & ->).
  exists [EYield message]. split; [reflexivity|].
  cbn [reports]. rewrite Hp. now left.
Qed.

Lemma traces_ret {A} (a : A) : traces (ret a) [[]] [].
Proof.
  intros st r st1 H. apply ret_inv in H. destruct H as [-> ->].
  exists []. rewrite app_nil_r. split; [reflexivity | now left].
Qed.

Lemma traces_raise {A} e : traces (@raise A e) [] [[]].
Proof.
  intros st r st1 H. apply raise_inv in H. destruct H as [-> ->].
  exists []. rewrite app_nil_r. split; [reflexivity | now left].
Qed.

Lemma traces_bind {A B} (m : M A) (k : A -> M B) ok1 bad1 ok2 bad2 :
  traces m ok1 bad1 -> (forall a, traces (k a) ok2 bad2) ->
  traces (bind m k) (seqs ok1 ok2) (bad1 ++ seqs ok1 bad2).
Proof.
  intros Hm Hk st r st1 H. apply bind_inv in H.
  destruct H as [(a & st' & H1 & H2) | (e & H1 & ->)].
  - destruct (Hm _ _ _ H1) as (e1 & E1 & F1). destruct (Hk a _ _ _ H2) as (e2 & E2 & F2).
    exists (e1 ++ e2)%list. rewrite E2, E1, <- app_assoc. split; [reflexivity|].
    rewrite reports_app. destruct r.
    + now apply in_seqs.
    + apply in_or_app. right. now apply in_seqs.
  - destruct (Hm _ _ _ H1) as (e1 & E1 & F1). exists e1. split; [exact E1|].
    apply in_or_app. now left.
Qed.

Lemma traces_try_except {A} (m : M A) (h : exn -> M A) ok bad okh badh :
  traces m ok bad -> (forall e, traces (h e) okh badh) ->
  traces (try_except m h) (ok ++ seqs bad okh) (seqs bad badh).
Proof.
  intros Hm Hh st r st1 H. apply try_except_inv in H.
  destruct H as [(a & H1 & ->) | (e & st' & H1 & H2)].
  - destruct (Hm _ _ _ H1) as (e1 & E1 & F1). exists e1. split; [exact E1|].
    apply in_or_app. now left.
  - destruct (Hm _ _ _ H1) as (e1 & E1 & F1). destruct (Hh e _ _ _ H2) as (e2 & E2 & F2).
    exists (e1 ++ e2)%list. rewrite E2, E1, <- app_assoc. split; [reflexivity|].
    rewrite reports_app. destruct r.
    + apply in_or_app. right. now apply in_seqs.
    + now apply in_seqs.
Qed.

Lemma traces_try_finally {A} (m : M A) (f : M unit) ok bad :
  traces m ok bad -> only not_yield f ->
  (forall st, exists st', f st = (Ok tt, st')) ->
  traces (try_finally m f) ok bad.
Proof.
  intros Hm Hf Hret st r st1 H. apply try_finally_inv in H.
  destruct H as (r0 & st' & rf & H1 & H2 & ->).
  destruct (Hret st') as (st'' & E). rewrite E in H2. injection H2 as <- <-.
  destruct (Hm _ _ _ H1) as (e1 & E1 & F1). destruct (Hf _ _ _ E) as (e2 & E2 & F2).
  exists (e1 ++ e2)%list. rewrite E2, E1, <- app_assoc. split; [reflexivity|].
  rewrite reports_app, (reports_quiet _ F2), app_nil_r. exact F1.
Qed.

Lemma traces_if {A} (b : bool) (m1 m2 : M A) ok1 bad1 ok2 bad2 :
  traces m1 ok1 bad1 -> traces m2 ok2 bad2 ->
  traces (if b then m1 else m2) (ok1 ++ ok2) (bad1 ++ bad2).
Proof.
  intros H1 H2 st r st1 H. destruct b.
  - destruct (H1 _ _ _ H) as (evs & E & F). exists evs. split; [exact E|].
    destruct r; apply in_or_app; now left.
  - destruct (H2 _ _ _ H) as (evs & E & F). exists evs. split; [exact E|].
    destruct r; apply in_or_app; now right.
Qed.

Lemma traces_match_list {A B} (l : list B) (m1 : M A) (m2 : B -> list B -> M A)
    ok1 bad1 ok2 bad2 :
  traces m1 ok1 bad1 -> (forall x rest, traces (m2 x rest) ok2 bad2) ->
  traces (match l with [] => m1 | x :: rest => m2 x rest end) (ok1 ++ ok2) (bad1 ++ bad2).
Proof.
  intros H1 H2 st r st1 H. destruct l as [|x rest].
  - destruct (H1 _ _ _ H) as (evs & E & F). exists evs. split; [exact E|].
    destruct r; apply in_or_app; now left.
  - destruct (H2 _ _ _ _ _ H) as (evs & E & F). exists evs. split; [exact E|].
    destruct r; apply in_or_app; now right.
Qed.

Lemma traces_match_option {A B} (o : option B) (m1 : B -> M A) (m2 : M A)
    ok1 bad1 ok2 bad2 :
  (forall x, traces (m1 x) ok1 bad1) -> traces m2 ok2 bad2 ->
  traces (match o with Some x => m1 x | None => m2 end) (ok1 ++ ok2) (bad1 ++ bad2).
Proof.
  intros H1 H2 st r st1 H. destruct o as [x|].
  - destruct (H1 _ _ _ _ H) as (evs & E & F). exists evs. split; [exact E|].
    destruct r; apply in_or_app; now left.
  - destruct (H2 _ _ _ H) as (evs & E & F). exists evs. split; [exact E|].
    destruct r; apply in_or_app; now right.
Qed.

(** takes a computation apart along its binds, handlers and case
    distinctions; a step that is not a progress message is one of the
    stages *)
Ltac trace_steps :=
  repeat match goal with
         | |- traces (bind _ _) _ _ => eapply traces_bind; [|intros ?]
         | |- traces (try_except _ _) _ _ => eapply traces_try_except; [|intros ?]
         | |- traces (yield _) _ _ => eapply traces_yield; reflexivity
         | |- traces (ret _) _ _ => apply traces_ret
         | |- traces get_frame _ _ => apply traces_get_frame
         | |- traces (put_frame _) _ _ => apply traces_put_frame
         | |- traces (call_total _ _) _ _ => apply traces_call_total; reflexivity
         | |- traces (raise _) _ _ => apply traces_raise
         | |- traces (if _ then _ else _) _ _ => eapply traces_if
         | |- traces (match _ with [] => _ | _ :: _ => _ end) _ _ =>
             eapply traces_match_list; [|intros ? ?]
         | |- traces (let _ := _ in _) _ _ => cbv zeta
         | |- traces _ _ _ => apply traces_staged; solve [only_steps]
         end.

Lemma finally_returns st : exists st', process_video_stream_finally W st = (Ok tt, st').
Proof.
  unfold process_video_stream_finally, bind, get_frame.
  destruct (audio_path (frame st)) as [[|c p]|]; try (eexists; reflexivity).
  unfold call_total, call, try_except, ret. cbn [history].
  destruct (os_path_exists W (history st) (String c p)); [|eexists; reflexivity].
  destruct (os_remove W _ (String c p)) as [[]|e]; eexists; reflexivity.
Qed.

Lemma finally_quiet : only not_yield (process_video_stream_finally W).
Proof. unfold process_video_stream_finally. only_steps. Qed.

(** A sequence of progress values as a client may rely on it: it begins
    with 0 and climbs, within 0..100; a failure may close it with -1; it
    reaches 100 exactly when the run succeeds. *)
Definition is_ok {A} (r : res A) : bool :=
  match r with Ok _ => true | Raise _ => false end.

Fixpoint climbs (l : list Z) : bool :=
  match l with
  | a :: (b :: _) as rest => (a <? b)%Z && climbs rest
  | _ => true
  end.

Definition well_reported (success : bool) (l : list Z) : bool :=
  let failed := match List.last l 0%Z with (-1)%Z => true | _ => false end in
  let body := if failed then List.removelast l else l in
  match body with 0%Z :: _ => true | _ => false end
  && climbs body
  && forallb (fun p => (p <=? 100)%Z) body
  && Bool.eqb success (existsb (Z.eqb 100) body)
  && negb (success && failed).

Lemma climbs_nth l : climbs l = true ->
  forall i p q, nth_error l i = Some p -> nth_error l (S i) = Some q -> (p < q)%Z.
Proof.
  induction l as [|a [|b l] IH]; intros H i p q Hp Hq.
  - now destruct i.
  - destruct i as [|[|i]]; discriminate Hq.
  - cbn [climbs] in H. apply andb_prop in H as [Hab Hl].
    destruct i as [|i].
    + cbn in Hp, Hq. injection Hp as <-. injection Hq as <-. lia.
    + exact (IH Hl i p q Hp Hq).
Qed.

Lemma well_reported_sound success l :
  well_reported success l = true ->
  exists body tail,
    l = (body ++ tail)%list
    /\ (tail = [] \/ tail = [(-1)%Z])
    /\ hd_error body = Some 0%Z
    /\ (forall i p q, nth_error body i = Some p -> nth_error body (S i) = Some q ->
          (p < q)%Z)
    /\ Forall (fun p => (p <= 100)%Z) body
    /\ (success = true <-> In 100%Z body)
    /\ (success = true -> tail = []).
Proof.
  unfold well_reported.
  set (failed := match List.last l 0%Z with (-1)%Z => true | _ => false end).
  set (body := if failed then List.removelast l else l).
  intros H. repeat (apply andb_prop in H as [H ?]).
  assert (El : l = (body ++ (if failed then [(-1)%Z] else []))%list).
  { subst body. destruct failed eqn:Ef; [|now rewrite app_nil_r].
    assert (Hne : l <> []) by (intros ->; discriminate Ef).
    assert (Hl : List.last l 0%Z = (-1)%Z).
    { subst failed. destruct (List.last l 0%Z) as [|?|[?|?|]]; try discriminate Ef.
      reflexivity. }
    rewrite <- Hl. apply app_removelast_last. exact Hne. }
  clearbody body failed.
  exists body, (if failed then [(-1)%Z] else []).
  repeat apply conj.
  - exact El.
  - destruct failed; auto.
  - destruct body as [|z rest]; [discriminate H|]. now destruct z.
  - now apply climbs_nth.
  - apply List.Forall_forall. intros p Hp.
    match goal with
    | F : forallb _ body = true |- _ => rewrite forallb_forall in F; specialize (F p Hp)
    end.
    lia.
  - match goal with
    | E : Bool.eqb success _ = true |- _ => apply Bool.eqb_prop in E; rewrite E
    end.
    rewrite existsb_exists. intros (x & Hx & Ex). apply Z.eqb_eq in Ex. now subst x.
  - match goal with
    | E : Bool.eqb success _ = true |- _ => apply Bool.eqb_prop in E; rewrite E
    end.
    rewrite existsb_exists. intros Hin. exists 100%Z. split; [exact Hin | reflexivity].
  - intros ->. destruct failed; [discriminate | reflexivity].
Qed.

Lemma process_video_stream_traces video_path target_lang user_font_size :
  exists ok bad,
    traces (process_video_stream W video_path target_lang user_font_size) ok bad
    /\ forallb (well_reported true) ok = true
    /\ forallb (well_reported false) bad = true.
Proof.
  eexists. eexists. split.
  - unfold process_video_stream.
    eapply traces_bind; [apply traces_put_frame | intros _].
    eapply traces_try_finally; [| apply finally_quiet | apply finally_returns].
    eapply traces_try_except; [|intros e].
    + unfold process_video_stream_try, transcribe_and_translate. trace_steps.
    + unfold process_video_stream_except. trace_steps.
  - vm_compute. split; reflexivity.
Qed.

(** *** The temporary audio file *)



(** A computation that leaves the local variable [audio_path] alone. *)
Definition keeps_audio {A} (m : M A) : Prop :=
  forall st r st1, m st = (r, st1) -> audio_path (frame st1) = audio_path (frame st).



Lemma keeps_audio_segments l : keeps_audio
  (bind get_frame (fun f =>
     put_frame {| audio_path := audio_path f; video_id := video_id f; segments := l |})).
Proof.
  intros st r st1 H. unfold bind, get_frame, put_frame in H. now injection H as _ <-.
Qed.

Lemma keeps_audio_video_id vid : keeps_audio
  (bind get_frame (fun f =>
     put_frame {| audio_path := audio_path f; video_id := vid; segments := segments f |})).
Proof.
  intros st r st1 H. unfold bind, get_frame, put_frame in H. now injection H as _ <-.
Qed.

Create HintDb frames discriminated.
#[local] Hint Resolve keeps_frame_ret keeps_frame_raise keeps_frame_lift
  keeps_frame_call keeps_frame_call_total keeps_frame_get_self keeps_frame_put_self
  keeps_frame_get_frame keeps_frame_ensure_initialized keeps_frame_process_subtitles
  keeps_frame_transcribe keeps_frame_detect_language keeps_frame_extract_audio
  keeps_frame_get_video keeps_frame_update_status keeps_frame_update_output_path
  keeps_frame_yield : frames.



Ltac frame_steps :=
  repeat first
    [ progress auto with frames
    | match goal with
      | |- keeps_frame (bind _ _) => apply keeps_frame_bind; [|intros ?]
      | |- keeps_frame (try_except _ _) => apply keeps_frame_try_except; [|intros ?]
      | |- keeps_frame (match ?x with _ => _ end) => destruct x
      | |- keeps_frame (if ?x then _ else _) => destruct x
      | |- keeps_frame (let _ := _ in _) => cbv zeta
      end ].

Ltac step H Hm :=
  apply bind_inv in H;
  destruct H as [(? & ? & Hm & H) | (? & Hm & ?)].











(** *** The run that succeeds *)

Lemma update_output_path_ok vid out subs st u st1 :
  update_output_path W vid out subs st = (Ok u, st1) ->
  let data := [ ("output_path", JStr out); ("status", JStr "completed");
                ("progress", JInt 100); ("segments", JSegments subs) ] in
  ObjectId_is_valid vid = true
  /\ update_one W (history st) vid data = Ok u
  /\ history st1 = (history st ++ [EUpdateOne vid data])%list.
Proof.
  unfold update_output_path, try_except.
  destruct (negb (truthy (Some vid)) || negb (ObjectId_is_valid vid)) eqn:G.
  - unfold raise. discriminate.
  - apply orb_false_elim in G as [_ G]. apply negb_false_iff in G.
    unfold call. cbn zeta.
    destruct (update_one W (history st) vid _) as [u'|e] eqn:E; [|unfold raise; discriminate].
    intros [= <- <-]. auto.
Qed.

Lemma except_raises e st r st1 :
  process_video_stream_except W e st = (r, st1) -> exists e', r = Raise e'.
Proof.
  unfold process_video_stream_except. intros H.
  apply bind_inv in H. destruct H as [(f & sa & _ & H) | (e' & _ & ->)]; [|eauto].
  apply bind_inv in H. destruct H as [(x & sb & _ & H) | (e' & _ & ->)]; [|eauto].
  apply bind_inv in H. destruct H as [(y & sc & _ & H) | (e' & _ & ->)]; [|eauto].
  apply raise_inv in H. destruct H as [-> _]. eauto.
Qed.

Definition is_cleanup_event (ev : Event) : bool :=
  match ev with EPathExists _ | ERemove _ => true | _ => false end.

Lemma finally_cleanup : only is_cleanup_event (process_video_stream_finally W).
Proof. unfold process_video_stream_finally. only_steps. Qed.

Lemma try_success v t u st st1 :
  process_video_stream_try W v t u st = (Ok tt, st1) ->
  let vid := validate_and_get_video_id W (history st) v in
  exists h out subs,
    let data := [ ("output_path", JStr out); ("status", JStr "completed");
                  ("progress", JInt 100); ("segments", JSegments subs) ] in
    let message :=
      _send_progress "Finalizing" 100
        [ ("output_path", JStr out); ("transcription", JStr (texts subs));
          ("segments", JSegments subs) ] in
    history st1 = (h ++ [ EAddSubtitles v subs t u; EPathExists out;
                          EUpdateOne vid data; EYield message ])%list
    /\ add_subtitles W h v subs t u = Ok out
    /\ os_path_exists W (h ++ [EAddSubtitles v subs t u])%list out = true
    /\ update_one W (h ++ [EAddSubtitles v subs t u; EPathExists out])%list vid data = Ok tt
    /\ ObjectId_is_valid vid = true.
Proof.
  intros H vid. unfold process_video_stream_try in H.
  apply bind_inv in H. destruct H as [(vid' & s1 & H1 & H) | (e & _ & E)]; [|discriminate E].
  apply call_inv in H1. destruct H1 as (Ev & _). injection Ev as ->. fold vid in H.
  apply bind_inv in H. destruct H as [(f & s2 & _ & H) | (e & _ & E)]; [|discriminate E].
  apply bind_inv in H. destruct H as [(x3 & s3 & _ & H) | (e & _ & E)]; [|discriminate E].
  apply bind_inv in H. destruct H as [(x4 & s4 & _ & H) | (e & _ & E)]; [|discriminate E].
  apply bind_inv in H. destruct H as [(x5 & s5 & _ & H) | (e & _ & E)]; [|discriminate E].
  apply bind_inv in H. destruct H as [(video & s6 & _ & H) | (e & _ & E)]; [|discriminate E].
  cbv zeta in H.
  apply bind_inv in H. destruct H as [(subs & s7 & _ & H) | (e & _ & E)]; [|discriminate E].
  apply bind_inv in H. destruct H as [(x8 & s8 & H8 & H) | (e & _ & E)]; [|discriminate E].
  apply call_inv in H8. destruct H8 as (_ & _ & _ & H8).
  apply bind_inv in H. destruct H as [(x9 & s9 & H9 & H) | (e & _ & E)]; [|discriminate E].
  apply call_inv in H9. destruct H9 as (_ & _ & _ & H9).
  apply bind_inv in H. destruct H as [(out & s10 & H10 & H) | (e & _ & E)]; [|discriminate E].
  apply call_inv in H10. destruct H10 as (Eout & _ & _ & H10).
  apply bind_inv in H. destruct H as [(found & s11 & H11 & H) | (e & _ & E)]; [|discriminate E].
  apply call_inv in H11. destruct H11 as (Ef & _ & _ & H11). injection Ef as ->.
  destruct (os_path_exists W (history s10) out) eqn:Efound; cbn [negb] in H;
    [|apply raise_inv in H; now destruct H].
  apply bind_inv in H. destruct H as [(x12 & s12 & H12 & H) | (e & _ & E)]; [|discriminate E].
  destruct x12. apply update_output_path_ok in H12. destruct H12 as (Hvalid & Hup & H12).
  apply call_inv in H. destruct H as (_ & _ & _ & H13).
  exists (history s9), out, subs. cbv zeta.
  rewrite H10 in Efound. rewrite H11, H10 in Hup.
  repeat apply conj.
  - rewrite H13, H12, H11, H10, <- !app_assoc. reflexivity.
  - now symmetry.
  - exact Efound.
  - rewrite <- app_assoc in Hup. exact Hup.
  - exact Hvalid.
Qed.

(** *** The run on edited segments *)




End RunFacts.

(** The progress messages of a run of [process_video_stream], whatever the
    collaborators do: the first one reports 0; the values climb and stay
    within 0..100; a run that fails may close with one message of -1 and
    never reports 100; a run that returns has reported 100 and no -1. *)
Theorem progress_reports_climb :
  forall (W : World) (video_path target_lang : string) (user_font_size : option Z)
         (st : State) (r : res unit) (st1 : State),
    process_video_stream W video_path target_lang user_font_size st = (r, st1) ->
    exists evs body tail,
      history st1 = (history st ++ evs)%list
      /\ reports evs = (body ++ tail)%list
      /\ (tail = [] \/ tail = [(-1)%Z])
      /\ hd_error body = Some 0%Z
      /\ (forall i p q, nth_error body i = Some p -> nth_error body (S i) = Some q ->
            (p < q)%Z)
      /\ Forall (fun p => (p <= 100)%Z) body
      /\ (r = Ok tt <-> In 100%Z body)
      /\ (r = Ok tt -> tail = []).
Proof.
  intros W video_path target_lang ufs st r st1 H.
  destruct (process_video_stream_traces W video_path target_lang ufs)
    as (ok & bad & Ht & Hok & Hbad).
  destruct (Ht _ _ _ H) as (evs & E & Hin).
  assert (Hw : well_reported (is_ok r) (reports evs) = true).
  { rewrite forallb_forall in Hok, Hbad. destruct r; cbn [is_ok]; auto. }
  destruct (well_reported_sound _ _ Hw) as (body & tail & El & Ht' & Hhd & Hcl & Hle & Hs & Hs').
  exists evs, body, tail. repeat apply conj; try assumption.
  - intros ->. now apply Hs.
  - intros Hi. apply Hs in Hi. destruct r as [[]|]; [reflexivity | discriminate Hi].
  - intros ->. now apply Hs'.
Qed.

Lemma progress_reports_climb_witness :
  let run := process_video_stream Fixtures.silent "/app/uploads/clip.mp4" "fr" None
               Fixtures.fresh in
  exists evs body tail,
    history (snd run) = (history Fixtures.fresh ++ evs)%list
    /\ reports evs = (body ++ tail)%list
    /\ (tail = [] \/ tail = [(-1)%Z])
    /\ hd_error body = Some 0%Z
    /\ (forall i p q, nth_error body i = Some p -> nth_error body (S i) = Some q ->
          (p < q)%Z)
    /\ Forall (fun p => (p <= 100)%Z) body
    /\ (fst run = Ok tt <-> In 100%Z body)
    /\ (fst run = Ok tt -> tail = []).
Proof.
  intros run.
  apply (progress_reports_climb Fixtures.silent "/app/uploads/clip.mp4" "fr" None
           Fixtures.fresh (fst run) (snd run)).
  apply surjective_pairing.
Defined.



(** A run of [process_video_stream] that returns has, in this order:
    rendered the subtitles [subs] into a file [out], found that file to
    exist, written [out], the status ["completed"], the progress 100 and
    the same [subs] to the record of the video, whose id is a valid one,
    and only then reported ["Finalizing"] with progress 100, the same
    [out] and the same [subs]; after that it only cleans up. *)
Theorem successful_run_is_recorded :
  forall (W : World) (video_path target_lang : string) (user_font_size : option Z)
         (st st1 : State),
    process_video_stream W video_path target_lang user_font_size st = (Ok tt, st1) ->
    exists h out subs cleanup,
      let vid := validate_and_get_video_id W (history st) video_path in
      let rendered := EAddSubtitles video_path subs target_lang user_font_size in
      let data := [ ("output_path", JStr out); ("status", JStr "completed");
                    ("progress", JInt 100); ("segments", JSegments subs) ] in
      let message :=
        _send_progress "Finalizing" 100
          [ ("output_path", JStr out); ("transcription", JStr (texts subs));
            ("segments", JSegments subs) ] in
      history st1 = (h ++ [rendered; EPathExists out; EUpdateOne vid data; EYield message]
                       ++ cleanup)%list
      /\ add_subtitles W h video_path subs target_lang user_font_size = Ok out
      /\ os_path_exists W (h ++ [rendered])%list out = true
      /\ update_one W (h ++ [rendered; EPathExists out])%list vid data = Ok tt
      /\ ObjectId_is_valid vid = true
      /\ forallb is_cleanup_event cleanup = true.
Proof.
  intros W v t u st st1 H. unfold process_video_stream in H.
  apply bind_inv in H. destruct H as [(x & st0 & Hp & H) | (e & Hp & _)];
    [|apply put_frame_inv in Hp; now destruct Hp].
  apply put_frame_inv in Hp. destruct Hp as (_ & _ & _ & Hh0).
  apply try_finally_inv in H. destruct H as (r0 & st' & rf & Hte & Hfin & Hr).
  destruct (finally_returns W st') as (st'' & Ef). rewrite Ef in Hfin.
  injection Hfin as <- <-. subst r0.
  destruct (finally_cleanup W _ _ _ Ef) as (cleanup & Ec & Fc).
  apply try_except_inv in Hte. destruct Hte as [(a & Hbody & Ea) | (e & stm & _ & Hh)].
  2:{ apply except_raises in Hh. destruct Hh as (e' & E). discriminate E. }
  destruct a. apply try_success in Hbody. rewrite Hh0 in Hbody.
  destruct Hbody as (h & out & subs & Hh & Hadd & Hex & Hup & Hvalid).
  exists h, out, subs, cleanup. cbv zeta.
  repeat apply conj; try assumption.
  rewrite Ec, Hh, <- app_assoc. reflexivity.
Qed.

Lemma successful_run_is_recorded_witness :
  let run := process_video_stream MoreFixtures.full_hub "/app/uploads/clip.mp4" "fr"
               None Fixtures.fresh in
  exists h subs data message cleanup,
    history (snd run)
    = (h ++ [ EAddSubtitles "/app/uploads/clip.mp4" subs "fr" None;
              EPathExists "/app/uploads/output/out.mp4";
              EUpdateOne "65f0c0ffee0123456789abcd" data; EYield message ]
         ++ cleanup)%list
    /\ jdict_get data "segments" = Some (JSegments subs)
    /\ jdict_get message "segments" = Some (JSegments subs).
Proof.
  intros run.
  assert (E : run = (Ok tt, snd run)) by (vm_compute; reflexivity).
  destruct (successful_run_is_recorded MoreFixtures.full_hub "/app/uploads/clip.mp4" "fr"
              None Fixtures.fresh (snd run) E)
    as (h & out & subs & cleanup & Hh & Hadd & _).
  cbn [MoreFixtures.full_hub add_subtitles validate_and_get_video_id] in Hh, Hadd.
  injection Hadd as <-.
  eexists h, subs, _, _, cleanup. split; [exact Hh|]. split; reflexivity.
Defined.

(** A record store that holds an edited segment for every video. *)
Module EditedFixtures.



End EditedFixtures.



(** ** The transcription stage and the record store *)
Section StageFacts.
Variable W : World.




(** The requests that [speech_response] may make. *)
Definition speech_event (audio source target : string) (ev : Event) : bool :=
  match ev with
  | EOpen path => String.eqb path audio
  | EAudioTranscriptions path (Some language) =>
      String.eqb path audio && String.eqb language source
  | EAudioTranslations path =>
      String.eqb path audio && String.eqb target "en" && negb (String.eqb source "en")
  | _ => false
  end.

Lemma only_the_client ok : only ok the_client.
Proof.
  apply only_nothing. intros st r st1 H. unfold the_client, bind, get_self in H.
  destruct (client (self st)); [apply ret_inv in H | apply raise_inv in H];
    now destruct H as [_ ->].
Qed.

Lemma speech_response_events a s t :
  only (speech_event a s t) (speech_response W a s t).
Proof.
  assert (Ht : only (speech_event a s t)
                 (bind the_client (fun c =>
                    call (EAudioTranscriptions a (Some s))
                      (fun h => audio_transcriptions_create W h c a (Some s))))).
  { apply only_bind; [apply only_the_client | intros c].
    apply only_call. cbn. now rewrite !String.eqb_refl. }
  unfold speech_response.
  apply only_bind; [apply only_call; cbn; apply String.eqb_refl | intros _].
  destruct (String.eqb t "en" && negb (String.eqb s "en")) eqn:E; [|exact Ht].
  apply only_try_except; [|intros e; exact Ht].
  apply only_bind; [apply only_the_client | intros c].
  apply only_call. cbn. rewrite String.eqb_refl. apply andb_prop in E as [-> ->].
  reflexivity.
Qed.

End StageFacts.


(** Two integer times beyond 2{^53} that differ by one are read as the
    same float: the segment is kept, since its end is greater than its
    start, and starts when it ends. *)
Example close_integer_times_coincide :
  keep_segment Fixtures.offline
    (Json.VDict [ ("start", Json.VInt 9007199254740992);
                  ("end", Json.VInt 9007199254740993);
                  ("text", Json.VStr "Hola") ])
  = Ok (Some {| seg_start := 9007199254740992%float;
                seg_end := 9007199254740992%float; seg_text := "Hola" |}).
Proof. vm_compute. reflexivity. Qed.

(** The speech service is asked for a translation only when the target
    language is ["en"] and the source language is not; every
    transcription request names the source language; nothing else is
    done to the outside but opening the audio file. *)
Theorem translation_endpoint_only_into_english :
  forall (W : World) (audio source target : string) (st : State)
         (r : res Transcription) (st1 : State),
    _transcribe_with_groq W audio source target st = (r, st1) ->
    exists evs,
      history st1 = (history st ++ evs)%list
      /\ forall ev, In ev evs ->
           ev = EOpen audio
           \/ ev = EAudioTranscriptions audio (Some source)
           \/ (ev = EAudioTranslations audio /\ target = "en" /\ source <> "en").
Proof.
  intros W audio source target st r st1 H.
  assert (Ho : only (speech_event audio source target)
                 (_transcribe_with_groq W audio source target)).
  { unfold _transcribe_with_groq. apply only_try_except; [|intros e; apply only_ret].
    apply only_bind; [apply speech_response_events | intros response; apply only_lift]. }
  destruct (Ho _ _ _ H) as (evs & E & F). exists evs. split; [exact E|].
  intros ev Hin. rewrite forallb_forall in F. specialize (F ev Hin).
  destruct ev; try discriminate F; cbn in F.
  - apply String.eqb_eq in F. left. now subst.
  - apply andb_prop in F as [F Hs]. apply andb_prop in F as [Hp Ht].
    apply String.eqb_eq in Hp, Ht. apply negb_true_iff, String.eqb_neq in Hs.
    right. right. now subst.
  - destruct language as [l|]; [|discriminate F].
    apply andb_prop in F as [Hp Hl]. apply String.eqb_eq in Hp, Hl.
    right. left. now subst.
Qed.

Lemma translation_endpoint_only_into_english_witness :
  let run := _transcribe_with_groq Fixtures.whisper "a.wav" "es" "fr" Fixtures.ready in
  exists evs,
    history (snd run) = evs
    /\ forall ev, In ev evs -> ev <> EAudioTranslations "a.wav".
Proof.
  intros run.
  destruct (translation_endpoint_only_into_english Fixtures.whisper "a.wav" "es" "fr"
              Fixtures.ready (fst run) (snd run) (surjective_pairing _))
    as (evs & E & H).
  exists evs. split; [exact E|].
  intros ev Hin. destruct (H ev Hin) as [-> | [-> | (_ & Ht & _)]]; discriminate.
Defined.

(** An id that does not have 24 characters never reaches the record
    store: [get_video] answers [None], [update_status] and
    [update_output_path] raise [ValueError], and none of them makes a
    request or changes anything. *)
Theorem malformed_ids_never_reach_the_store :
  forall (W : World) (video_id : string) (st : State),
    String.length video_id <> 24%nat ->
    get_video W video_id st = (Ok None, st)
    /\ (forall status error progress,
          update_status W video_id status error progress st
          = (Raise (Exn ValueError "Invalid video ID"), st))
    /\ (forall output_path segs,
          update_output_path W video_id output_path segs st
          = (Raise (Exn ValueError "Invalid video ID"), st)).
Proof.
  intros W vid st Hlen.
  assert (Hv : negb (truthy (Some vid)) || negb (ObjectId_is_valid vid) = true).
  { unfold ObjectId_is_valid. apply Nat.eqb_neq in Hlen. rewrite Hlen.
    apply orb_true_r. }
  repeat apply conj.
  - unfold get_video, try_except. now rewrite Hv.
  - intros status error progress. unfold update_status, try_except. now rewrite Hv.
  - intros out segs. unfold update_output_path, try_except. now rewrite Hv.
Qed.

Lemma malformed_ids_never_reach_the_store_witness :
  get_video Fixtures.whisper "clip" Fixtures.ready = (Ok None, Fixtures.ready).
Proof.
  apply (malformed_ids_never_reach_the_store Fixtures.whisper "clip" Fixtures.ready).
  cbn. lia.
Defined.

(** ** Bounds of the subtitle layout *)
Section LayoutBounds.
Import Layout.

Lemma shiftl_neg_pos m e : (Z.shiftl (Zneg m) e < 0)%Z.
Proof.
  destruct (Z.le_gt_cases 0 e) as [He | He].
  - rewrite Z.shiftl_mul_pow2 by exact He.
    assert (0 < 2 ^ e)%Z by (apply Z.pow_pos_nonneg; lia). nia.
  - rewrite Z.shiftl_div_pow2 by lia.
    assert (0 < 2 ^ (- e))%Z by (apply Z.pow_pos_nonneg; lia).
    apply Z.div_lt_upper_bound; [lia|]. nia.
Qed.

(** [int(f)] of a float that is not below [lo] is not below [lo]. *)
Lemma int_of_float_lower f lo c :
  (0 < lo)%Z -> float_lt_int f lo = false -> int_of_float f = Ok c -> (lo <= c)%Z.
Proof.
  unfold float_lt_int, int_of_float. intros Hlo Hlt Hc.
  destruct (FloatOps.Prim2SF f) as [s|s| |s m e]; try discriminate Hc.
  - apply Z.ltb_ge in Hlt. lia.
  - injection Hc as <-.
    destruct s.
    + exfalso. destruct (0 <=? e)%Z eqn:He.
      * apply Z.ltb_ge in Hlt. pose proof (shiftl_neg_pos m e). lia.
      * apply Z.ltb_ge in Hlt. apply Z.leb_gt in He.
        rewrite Z.shiftl_mul_pow2 in Hlt by lia.
        assert (0 < 2 ^ (- e))%Z by (apply Z.pow_pos_nonneg; lia). nia.
    + destruct (0 <=? e)%Z eqn:He.
      * now apply Z.ltb_ge in Hlt.
      * apply Z.ltb_ge in Hlt. apply Z.leb_gt in He.
        rewrite Z.shiftl_mul_pow2 in Hlt by lia.
        rewrite Z.shiftl_div_pow2 by lia.
        assert (0 < 2 ^ (- e))%Z by (apply Z.pow_pos_nonneg; lia).
        apply Z.div_le_lower_bound; lia.
Qed.

(** [int(f)] of a float that is not above [hi] is not above [hi]. *)
Lemma int_of_float_upper f hi c :
  (0 <= hi)%Z -> int_lt_float hi f = false -> int_of_float f = Ok c -> (c <= hi)%Z.
Proof.
  unfold int_lt_float, int_of_float. intros Hhi Hlt Hc.
  destruct (FloatOps.Prim2SF f) as [s|s| |s m e]; try discriminate Hc.
  - injection Hc as <-. exact Hhi.
  - injection Hc as <-.
    destruct s.
    + assert (0 <= Z.shiftl (Zpos m) e)%Z by (apply Z.shiftl_nonneg; lia). lia.
    + destruct (0 <=? e)%Z eqn:He.
      * now apply Z.ltb_ge in Hlt.
      * apply Z.ltb_ge in Hlt. apply Z.leb_gt in He.
        rewrite Z.shiftl_mul_pow2 in Hlt by lia.
        rewrite Z.shiftl_div_pow2 by lia.
        assert (0 < 2 ^ (- e))%Z by (apply Z.pow_pos_nonneg; lia).
        apply Z.div_le_upper_bound; lia.
Qed.

(** [int(min(max(x, lo), hi))] lies between [lo] and [hi]. *)
Lemma clamp_bounds x lo hi c :
  (0 < lo <= hi)%Z ->
  py_int (py_min (py_max x (Int lo)) (Int hi)) = Ok c -> (lo <= c <= hi)%Z.
Proof.
  intros Hb. destruct x as [z|f].
  - destruct (clamp_int z lo hi) as (c' & -> & Hc); [lia|].
    cbn [py_int]. intros [= <-]. exact Hc.
  - unfold py_min, py_max. cbn [lt].
    destruct (float_lt_int f lo) eqn:E1; cbn [lt].
    + destruct (hi <? lo)%Z eqn:E2; [apply Z.ltb_lt in E2; lia|].
      cbn [py_int]. intros [= <-]. lia.
    + destruct (int_lt_float hi f) eqn:E2; cbn [py_int].
      * intros [= <-]. lia.
      * intros Hc. split.
        -- apply (int_of_float_lower f lo c); [lia | exact E1 | exact Hc].
        -- apply (int_of_float_upper f hi c); [lia | exact E2 | exact Hc].
Qed.

(** [int(max(f, lo))] is not below [lo]. *)
Lemma max_lower f lo c :
  (0 < lo)%Z -> py_int (py_max (Float f) (Int lo)) = Ok c -> (lo <= c)%Z.
Proof.
  intros Hlo. unfold py_max. cbn [lt].
  destruct (float_lt_int f lo) eqn:E1; cbn [py_int].
  - intros [= <-]. lia.
  - intros Hc. apply (int_of_float_lower f lo c); assumption.
Qed.

Ltac layout_inv H :=
  repeat match type of H with
         | res_bind ?m _ = Ok _ =>
             let E := fresh "E" in
             destruct m eqn:E; cbn [res_bind] in H; [|discriminate H]
         end.

Lemma vertical_bounds width height size font_size max_lines v_margin line_height
    h_margin max_chars :
  vertical_layout width height size
  = Ok (font_size, max_lines, v_margin, line_height, h_margin, max_chars) ->
  max_lines = 1%Z /\ (12 <= font_size <= 20)%Z /\ (15 <= h_margin)%Z
  /\ max_chars = 42%Z.
Proof.
  unfold vertical_layout. intros H. layout_inv H.
  injection H as <- <- <- <- <- <-.
  repeat apply conj; try reflexivity.
  - destruct (font_size_given size) as [z|].
    + injection E1 as <-. apply clamp_bounds in E4; lia.
    + layout_inv E1. injection E1 as <-. apply clamp_bounds in E4; lia.
  - destruct (font_size_given size) as [z|].
    + injection E1 as <-. apply clamp_bounds in E4; lia.
    + layout_inv E1. injection E1 as <-. apply clamp_bounds in E4; lia.
  - eapply max_lower; [|eassumption]. lia.
Qed.

Lemma standard_bounds width height size font_size max_lines v_margin line_height
    h_margin max_chars :
  standard_layout width height size
  = Ok (font_size, max_lines, v_margin, line_height, h_margin, max_chars) ->
  max_lines = 2%Z /\ (22 <= font_size <= 44)%Z /\ (50 <= h_margin)%Z
  /\ (20 <= max_chars <= 50)%Z.
Proof.
  unfold standard_layout. intros H. layout_inv H.
  injection H as <- <- <- <- <- <-.
  repeat apply conj; try reflexivity; try lia.
  - destruct (font_size_given size) as [z|];
      match goal with
      | Hc : py_int (py_min _ _) = Ok _ |- _ => apply clamp_bounds in Hc; lia
      end.
  - destruct (font_size_given size) as [z|];
      match goal with
      | Hc : py_int (py_min _ _) = Ok _ |- _ => apply clamp_bounds in Hc; lia
      end.
  - match goal with
    | Hc : py_int (py_max _ _) = Ok _ |- _ => apply max_lower in Hc; lia
    end.
Qed.

Lemma clamp_int_value size lo hi :
  (lo <= hi)%Z ->
  py_min (py_max (Int size) (Int lo)) (Int hi) = Int (Z.min (Z.max size lo) hi).
Proof.
  intros Hle. unfold py_min, py_max. cbn [lt].
  destruct (size <? lo)%Z eqn:E1; cbn [lt].
  - apply Z.ltb_lt in E1. destruct (hi <? lo)%Z eqn:E2; [apply Z.ltb_lt in E2; lia|].
    f_equal. lia.
  - apply Z.ltb_ge in E1. destruct (hi <? size)%Z eqn:E2;
      [apply Z.ltb_lt in E2 | apply Z.ltb_ge in E2]; f_equal; lia.
Qed.

Lemma font_size_given_nonzero size : size <> 0%Z -> font_size_given (Some size) = Some size.
Proof. now destruct size. Qed.

Lemma vertical_user_size width height size font_size max_lines v_margin line_height
    h_margin max_chars :
  size <> 0%Z ->
  vertical_layout width height (Some size)
  = Ok (font_size, max_lines, v_margin, line_height, h_margin, max_chars) ->
  max_lines = 1%Z /\ font_size = Z.min (Z.max size 12) 20.
Proof.
  intros Hs. unfold vertical_layout. rewrite (font_size_given_nonzero _ Hs).
  rewrite clamp_int_value by lia. cbn [res_bind]. intros H. layout_inv H.
  cbn [py_int] in *. injection H as <- <- <- <- <- <-.
  split; [reflexivity|].
  match goal with
  | Hc : Ok _ = Ok ?z |- ?z = _ => now injection Hc
  end.
Qed.

Lemma standard_user_size width height size font_size max_lines v_margin line_height
    h_margin max_chars :
  size <> 0%Z ->
  standard_layout width height (Some size)
  = Ok (font_size, max_lines, v_margin, line_height, h_margin, max_chars) ->
  max_lines = 2%Z /\ font_size = Z.min (Z.max size 22) 44.
Proof.
  intros Hs. unfold standard_layout. rewrite (font_size_given_nonzero _ Hs).
  rewrite clamp_int_value by lia. intros H. layout_inv H.
  cbn [py_int] in *. injection H as <- <- <- <- <- <-.
  split; [reflexivity|].
  match goal with
  | Hc : Ok _ = Ok ?z |- ?z = _ => now injection Hc
  end.
Qed.

End LayoutBounds.

(** Whatever the frame size and whatever font size is asked for, also
    zero, negative or huge ones, the layout that
    [_calculate_subtitle_properties] returns is one of two kinds: one
    line with a font size of 12 to 20, a side margin of at least 15 and 42
    characters a line; or two lines with a font size of 22 to 44, a side
    margin of at least 50 and 20 to 50 characters a line. *)
Theorem layout_within_bounds :
  forall (width height : Z) (user_font_size : option Z),
    match Layout._calculate_subtitle_properties width height user_font_size with
    | (font_size, max_lines, v_margin, line_height, h_margin, max_chars) =>
        (max_lines = 1 /\ 12 <= font_size <= 20 /\ 15 <= h_margin /\ max_chars = 42)%Z
        \/ (max_lines = 2 /\ 22 <= font_size <= 44 /\ 50 <= h_margin
            /\ 20 <= max_chars <= 50)%Z
    end.
Proof.
  intros width height size. unfold Layout._calculate_subtitle_properties.
  destruct (Layout.calculate width height size) as [[[[[[fs ml] vm] lh] hm] mc]|e] eqn:E.
  2:{ right. cbn. lia. }
  unfold Layout.calculate in E.
  destruct (Layout.int_truediv width height) as [ratio|e]; [|discriminate E].
  cbn [Layout.res_bind] in E.
  destruct (ratio <? 0.6)%float.
  - left. exact (vertical_bounds _ _ _ _ _ _ _ _ _ E).
  - right. exact (standard_bounds _ _ _ _ _ _ _ _ _ E).
Qed.

(** A font size that the user asks for (zero counts as none) is taken as
    it is when it lies within the limits of the layout, and moved to the
    nearest limit otherwise: 12 to 20 for a vertical video (one line), 22
    to 44 for any other (two lines), whenever the computation of the
    layout goes through. *)
Theorem user_font_size_is_clamped :
  forall (width height size : Z) (d : Layout.Dimensions),
    size <> 0%Z ->
    Layout.calculate width height (Some size) = Ok d ->
    match d with
    | (font_size, max_lines, _, _, _, _) =>
        (max_lines = 1 /\ font_size = Z.min (Z.max size 12) 20)%Z
        \/ (max_lines = 2 /\ font_size = Z.min (Z.max size 22) 44)%Z
    end.
Proof.
  intros width height size [[[[[fs ml] vm] lh] hm] mc] Hs E.
  unfold Layout.calculate in E.
  destruct (Layout.int_truediv width height) as [ratio|e]; [|discriminate E].
  cbn [Layout.res_bind] in E.
  destruct (ratio <? 0.6)%float.
  - left. exact (vertical_user_size _ _ _ _ _ _ _ _ _ Hs E).
  - right. exact (standard_user_size _ _ _ _ _ _ _ _ _ Hs E).
Qed.

Lemma user_font_size_is_clamped_witness :
  exists v_margin line_height h_margin max_chars,
    Layout.calculate 1920 1080 (Some 30%Z)
    = Ok (30, 2, v_margin, line_height, h_margin, max_chars)%Z.
Proof.
  destruct (Layout.calculate 1920 1080 (Some 30%Z))
    as [[[[[[fs ml] vm] lh] hm] mc]|e] eqn:E; [|vm_compute in E; discriminate E].
  destruct (user_font_size_is_clamped 1920 1080 30 _ ltac:(discriminate) E)
    as [[Hm Hf] | [Hm Hf]].
  - exfalso. vm_compute in E. injection E as _ E _ _ _ _. rewrite Hm in E. discriminate E.
  - subst fs ml. now exists vm, lh, hm, mc.
Defined.

(** ** Progress messages *)
Section MessageFacts.

Lemma jdict_get_set d k v k' :
  jdict_get (jdict_set d k v) k'
  = if String.eqb k' k then Some v else jdict_get d k'.
Proof.
  induction d as [|[k0 v0] d IH]; cbn [jdict_set jdict_get]; [reflexivity|].
  destruct (String.eqb k k0) eqn:E; cbn [jdict_get].
  - apply String.eqb_eq in E. subst k0. now destruct (String.eqb k' k).
  - rewrite IH. destruct (String.eqb k' k0) eqn:E0; [|reflexivity].
    apply String.eqb_eq in E0. subst k0.
    rewrite String.eqb_sym in E. now rewrite E.
Qed.

Lemma jdict_get_absent d k : ~ In k (map fst d) -> jdict_get d k = None.
Proof.
  induction d as [|[k0 v0] d IH]; [reflexivity|]. cbn [map fst In jdict_get].
  intros Hn. destruct (String.eqb k k0) eqn:E.
  - apply String.eqb_eq in E. subst k0. exfalso. apply Hn. now left.
  - apply IH. intros Hin. apply Hn. now right.
Qed.

Lemma jdict_get_update d2 : forall d k,
  List.NoDup (map fst d2) ->
  jdict_get (jdict_update d d2) k
  = match jdict_get d2 k with
    | Some v => Some v
    | None => jdict_get d k
    end.
Proof.
  unfold jdict_update.
  induction d2 as [|[k0 v0] d2 IH]; intros d k Hnd; [reflexivity|].
  cbn [fold_left fst snd jdict_get]. cbn [map fst] in Hnd.
  apply List.NoDup_cons_iff in Hnd. destruct Hnd as [Hn Hnd].
  rewrite (IH _ _ Hnd), jdict_get_set.
  destruct (String.eqb k k0) eqn:E; [|reflexivity].
  apply String.eqb_eq in E. subst k0. now rewrite (jdict_get_absent _ _ Hn).
Qed.

End MessageFacts.

(** The message of [_send_progress]: the status is ["failed"] for the
    progress -1, ["completed"] for 100 and ["processing"] for any other;
    every entry of [data] is in the message, and one that has the key
    [step], [progress] or [status] replaces that field; the message has no
    other key. *)
Theorem send_progress_fields :
  forall (step : string) (progress : Z) (data : JDict) (k : string),
    List.NoDup (map fst data) ->
    jdict_get (_send_progress step progress data) k
    = match jdict_get data k with
      | Some v => Some v
      | None =>
          if String.eqb k "step" then Some (JStr step)
          else if String.eqb k "progress" then Some (JInt progress)
          else if String.eqb k "status" then
            Some (JStr (if (progress =? -1)%Z then "failed"
                        else if (progress =? 100)%Z then "completed"
                        else "processing"))
          else None
      end.
Proof.
  intros step progress data k Hnd. unfold _send_progress.
  destruct data as [|kv data]; [reflexivity|].
  rewrite (jdict_get_update _ _ _ Hnd). reflexivity.
Qed.

Lemma send_progress_fields_witness :
  jdict_get (_send_progress "Error" (-1) [("error", JStr "boom")]) "status"
  = Some (JStr "failed").
Proof.
  apply (send_progress_fields "Error" (-1) [("error", JStr "boom")] "status").
  repeat constructor; cbn; intuition discriminate.
Defined.

(** ** Properties of the render stage *)
Section RenderFacts.
Import Render.
Variable W : Studio.

Lemma rbind_inv {A B} (m : R A) (k : A -> R B) h r h1 :
  bind m k h = (r, h1) ->
  (exists a h', m h = (Ok a, h') /\ k a h' = (r, h1))
  \/ (exists e, m h = (Raise e, h1) /\ r = Raise e).
Proof.
  unfold bind. destruct (m h) as [[a|e] h'].
  - intros H. left. eauto.
  - intros [= <- <-]. right. eauto.
Qed.

Lemma rcall_inv {A} ev (f : RHistory -> res A) h r h1 :
  call ev f h = (r, h1) -> r = f h /\ h1 = (h ++ [ev])%list.
Proof. unfold call. intros [= <- <-]. auto. Qed.

Lemma rlift_inv {A} (x : res A) h r h1 : lift x h = (r, h1) -> r = x /\ h1 = h.
Proof. unfold lift. intros [= <- <-]. auto. Qed.

(** the exceptions of the steps between the probe and the rendering are
    none of [ffmpeg] *)
Definition plain {A} (x : res A) : Prop :=
  forall e, x = Raise e -> is_ffmpeg_error e = false.

Lemma plain_first_video_stream streams : plain (first_video_stream streams).
Proof.
  induction streams as [|s rest IH]; cbn [first_video_stream]; intros e.
  - intros [= <-]. reflexivity.
  - destruct (codec_type s) as [c|]; [|intros [= <-]; reflexivity].
    destruct (String.eqb c "video"); [discriminate | apply IH].
Qed.

Lemma plain_item {A} key (v : option A) : plain (item key v).
Proof. destruct v; intros e; [discriminate | intros [= <-]; reflexivity]. Qed.

Lemma plain_get_font_path here exists_ lang : plain (Fonts.get_font_path here exists_ lang).
Proof.
  unfold Fonts.get_font_path. intros e.
  repeat match goal with
         | |- (if ?b then _ else _) = _ -> _ => destruct b
         end; try discriminate; intros [= <-]; reflexivity.
Qed.

Lemma plain_int_truediv a b : plain (Layout.int_truediv a b).
Proof.
  unfold Layout.int_truediv. intros e.
  destruct (b =? 0)%Z; [intros [= <-]; reflexivity|].
  destruct (SpecFloat.SFdiv _ _ _ _); try discriminate. intros [= <-]. reflexivity.
Qed.

Lemma plain_times x c : plain (Layout.times x c).
Proof.
  unfold Layout.times, Layout.to_float, Layout.float_of_int. intros e.
  destruct x as [z|f]; cbn [Layout.res_bind]; [|discriminate].
  destruct (SpecFloat.binary_normalize _ _ _ _ _); cbn [Layout.res_bind];
    try discriminate.
  intros [= <-]. reflexivity.
Qed.

Lemma plain_int_of_float f : plain (Layout.int_of_float f).
Proof.
  unfold Layout.int_of_float. intros e.
  destruct (FloatOps.Prim2SF f); try discriminate; intros [= <-]; reflexivity.
Qed.

(** The runs of the [try] block with its handlers, from the probe on: the
    calls made and the result.  An [ffmpeg.Error] is [readable] when its
    handler gets past the decoding of [stderr]: there is none, or it is
    empty, or its bytes decode. *)
Definition readable (e : exn) : Prop :=
  exists stderr, exn_class e = FFmpegError stderr
                 /\ forall reason, stderr <> NotUtf8 reason.

Definition unreadable (e : exn) (reason : string) : Prop :=
  exn_class e = FFmpegError (NotUtf8 reason).

Inductive rendering (video_path srt_path output_path : string) (h : RHistory)
  : res string -> RHistory -> Prop :=
| probe_failed e :
    ffmpeg_probe W h video_path = Raise e -> readable e ->
    rendering video_path srt_path output_path h
      (match ffmpeg_fallback_run W (h ++ [RProbe video_path])%list video_path output_path
               srt_path with
       | Ok _ => Ok output_path
       | Raise e' => Raise e'
       end)
      [RProbe video_path; RFallbackRun video_path output_path srt_path]
| probe_unreadable e reason :
    ffmpeg_probe W h video_path = Raise e -> unreadable e reason ->
    rendering video_path srt_path output_path h
      (Raise (Exn UnicodeDecodeError reason)) [RProbe video_path]
| not_rendered e :
    is_ffmpeg_error e = false ->
    rendering video_path srt_path output_path h (Raise e) [RProbe video_path]
| rendered graph :
    graph_input graph = video_path -> graph_subtitles graph = srt_path ->
    graph_output graph = output_path ->
    ffmpeg_run W (h ++ [RProbe video_path])%list graph = Ok tt ->
    rendering video_path srt_path output_path h (Ok output_path)
      [RProbe video_path; RRun graph]
| rendering_failed graph e :
    graph_input graph = video_path -> graph_subtitles graph = srt_path ->
    graph_output graph = output_path ->
    ffmpeg_run W (h ++ [RProbe video_path])%list graph = Raise e ->
    is_ffmpeg_error e = false ->
    rendering video_path srt_path output_path h (Raise e)
      [RProbe video_path; RRun graph]
| fallback_rendered graph e :
    graph_input graph = video_path -> graph_subtitles graph = srt_path ->
    graph_output graph = output_path ->
    ffmpeg_run W (h ++ [RProbe video_path])%list graph = Raise e ->
    readable e ->
    rendering video_path srt_path output_path h
      (match ffmpeg_fallback_run W (h ++ [RProbe video_path; RRun graph])%list video_path
               output_path srt_path with
       | Ok _ => Ok output_path
       | Raise e' => Raise e'
       end)
      [RProbe video_path; RRun graph;
       RFallbackRun video_path output_path srt_path]
| rendering_unreadable graph e reason :
    graph_input graph = video_path -> graph_subtitles graph = srt_path ->
    graph_output graph = output_path ->
    ffmpeg_run W (h ++ [RProbe video_path])%list graph = Raise e ->
    unreadable e reason ->
    rendering video_path srt_path output_path h
      (Raise (Exn UnicodeDecodeError reason)) [RProbe video_path; RRun graph].

Lemma except_plain v srt out e h :
  is_ffmpeg_error e = false -> render_except W v srt out e h = (Raise e, h).
Proof.
  unfold render_except, is_ffmpeg_error.
  destruct (exn_class e); try reflexivity. discriminate.
Qed.

Lemma except_ffmpeg v srt out e h :
  readable e ->
  render_except W v srt out e h
  = (match ffmpeg_fallback_run W h v out srt with
     | Ok _ => Ok out
     | Raise e' => Raise e'
     end, (h ++ [RFallbackRun v out srt])%list).
Proof.
  unfold render_except. intros (stderr & -> & Hr). unfold bind, call, ret, lift.
  destruct stderr as [|[|c text]|reason]; cbn; try (now destruct (ffmpeg_fallback_run W h v out srt)).
  now destruct (Hr reason).
Qed.

Lemma except_unreadable v srt out e reason h :
  unreadable e reason ->
  render_except W v srt out e h = (Raise (Exn UnicodeDecodeError reason), h).
Proof. unfold render_except, unreadable. intros ->. reflexivity. Qed.

Ltac pure_step H P :=
  let Hl := fresh "Hl" in
  apply rbind_inv in H;
  destruct H as [(? & ? & Hl & H) | (? & Hl & ->)];
  apply rlift_inv in Hl; destruct Hl as [Hl ->];
  [ | left; eexists; split; [reflexivity|]; split; [reflexivity|];
      symmetry in Hl; exact (P _ Hl) ].

Lemma render_runs v srt out t u h r h1 :
  render W v srt out t u h = (r, h1) ->
  (exists e, r = Raise e /\ h1 = (h ++ [RProbe v])%list
             /\ ffmpeg_probe W h v = Raise e)
  \/ (exists e, r = Raise e /\ h1 = (h ++ [RProbe v])%list
                /\ is_ffmpeg_error e = false)
  \/ (exists graph,
        graph_input graph = v /\ graph_subtitles graph = srt /\ graph_output graph = out
        /\ h1 = (h ++ [RProbe v; RRun graph])%list
        /\ match ffmpeg_run W (h ++ [RProbe v])%list graph with
           | Ok _ => r = Ok out
           | Raise e => r = Raise e
           end).
Proof.
  unfold render. intros H.
  apply rbind_inv in H. destruct H as [(streams & h' & Hp & H) | (e & Hp & ->)];
    apply rcall_inv in Hp; destruct Hp as [Hp ->].
  2:{ left. eauto. }
  right.
  pure_step H (plain_first_video_stream streams).
  pure_step H (plain_item (A:=Z) "width" (stream_width x)).
  pure_step H (plain_item (A:=Z) "height" (stream_height x)).
  cbv zeta in H.
  apply rbind_inv in H. destruct H as [(font & hf & Hf & H) | (e & Hf & ->)];
    injection Hf as Hf <-.
  2:{ left. eexists. split; [reflexivity|]. split; [reflexivity|].
      exact (plain_get_font_path _ _ _ _ Hf). }
  apply rbind_inv in H. destruct H as [(ratio & hr & Hr & H) | (e & Hr & ->)];
    apply rlift_inv in Hr; destruct Hr as [Hr ->].
  2:{ left. eexists. split; [reflexivity|]. split; [reflexivity|].
      symmetry in Hr. exact (plain_int_truediv _ _ _ Hr). }
  apply rbind_inv in H. destruct H as [(sp & hs & Hs & H) | (e & Hs & ->)].
  - assert (hs = (h ++ [RProbe v])%list) as ->.
    { destruct (ratio <? 0.6)%float.
      - apply rbind_inv in Hs. destruct Hs as [(a & ha & Ha & Hs) | (e & _ & E)];
          [|discriminate E].
        apply rlift_inv in Ha. destruct Ha as [_ ->].
        apply rbind_inv in Hs. destruct Hs as [(b & hb & Hb & Hs) | (e & _ & E)];
          [|discriminate E].
        apply rlift_inv in Hb. destruct Hb as [_ ->]. now injection Hs.
      - now injection Hs. }
    right.
    apply rbind_inv in H. destruct H as [(tt' & hg & Hg & H) | (e & Hg & ->)];
      apply rcall_inv in Hg; destruct Hg as [Hg ->].
    + injection H as <- <-.
      match type of Hg with _ = ffmpeg_run W _ ?G => exists G end.
      repeat (split; [reflexivity|]). split; [now rewrite <- app_assoc|].
      now rewrite <- Hg.
    + match type of Hg with _ = ffmpeg_run W _ ?G => exists G end.
      repeat (split; [reflexivity|]). split; [now rewrite <- app_assoc|].
      now rewrite <- Hg.
  - left. destruct (ratio <? 0.6)%float; [|discriminate Hs].
    apply rbind_inv in Hs. destruct Hs as [(a & ha & Ha & Hs) | (e' & Ha & E)];
      apply rlift_inv in Ha; destruct Ha as [Ha ->].
    2:{ injection E as <-. eexists. split; [reflexivity|]. split; [reflexivity|].
        symmetry in Ha. exact (plain_times _ _ _ Ha). }
    apply rbind_inv in Hs. destruct Hs as [(b & hb & Hb & Hs) | (e' & Hb & E)];
      [discriminate Hs|].
    apply rlift_inv in Hb. destruct Hb as [Hb ->]. injection E as <-.
    eexists. split; [reflexivity|]. split; [reflexivity|].
    symmetry in Hb. exact (plain_int_of_float _ _ Hb).
Qed.


Lemma class_cases e :
  readable e \/ (exists reason, unreadable e reason) \/ is_ffmpeg_error e = false.
Proof.
  unfold readable, unreadable, is_ffmpeg_error.
  destruct (exn_class e) as [| | | | | | | | | |stderr|]; auto.
  destruct stderr as [|text|reason]; [left | left | right; left; eauto];
    eexists; (split; [reflexivity | discriminate]).
Qed.

Lemma try_except_runs v srt out t u h r h1 :
  try_except (render W v srt out t u) (render_except W v srt out) h = (r, h1) ->
  exists calls, rendering v srt out h r calls /\ h1 = (h ++ calls)%list.
Proof.
  unfold try_except.
  destruct (render W v srt out t u h) as [[p|e] h'] eqn:E; apply render_runs in E.
  - intros [= <- <-].
    destruct E as [(e & E & _) | [(e & E & _) | (g & Hi & Hs & Ho & -> & Hr)]];
      try discriminate E.
    destruct (ffmpeg_run W (h ++ [RProbe v])%list g) as [[]|e] eqn:Er; [|discriminate Hr].
    injection Hr as ->. eexists. split; [|reflexivity]. now apply rendered.
  - destruct E as [(e' & [= <-] & -> & Hp) | [(e' & [= <-] & -> & Hc)
                   | (g & Hi & Hs & Ho & -> & Hr)]].
    + destruct (class_cases e) as [Hc | [(reason & Hc) | Hc]].
      * rewrite (except_ffmpeg _ _ _ _ _ Hc). intros [= <- <-].
        eexists. split; [now apply (probe_failed _ _ _ _ e)|].
        now rewrite <- app_assoc.
      * rewrite (except_unreadable _ _ _ _ _ _ Hc). intros [= <- <-].
        eexists. split; [now apply (probe_unreadable _ _ _ _ e) | reflexivity].
      * rewrite (except_plain _ _ _ _ _ Hc). intros [= <- <-].
        eexists. split; [now apply not_rendered | reflexivity].
    + rewrite (except_plain _ _ _ _ _ Hc). intros [= <- <-].
      eexists. split; [now apply not_rendered | reflexivity].
    + destruct (ffmpeg_run W (h ++ [RProbe v])%list g) as [[]|e0] eqn:Er; [discriminate Hr|].
      injection Hr as <-.
      destruct (class_cases e) as [Hc | [(reason & Hc) | Hc]].
      * rewrite (except_ffmpeg _ _ _ _ _ Hc). intros [= <- <-].
        eexists. split; [now apply (fallback_rendered _ _ _ _ g e)|].
        now rewrite <- app_assoc.
      * rewrite (except_unreadable _ _ _ _ _ _ Hc). intros [= <- <-].
        eexists. split; [now apply (rendering_unreadable _ _ _ _ g e) | reflexivity].
      * rewrite (except_plain _ _ _ _ _ Hc). intros [= <- <-].
        eexists. split; [now apply (rendering_failed _ _ _ _ g e) | reflexivity].
Qed.

Lemma finally_runs srt h :
  render_finally W srt h
  = (Ok tt, (h ++ RPathExists srt
               :: (if studio_path_exists W h srt then [RRemove srt] else []))%list).
Proof.
  unfold render_finally, bind, call, try_except, ret.
  destruct (studio_path_exists W h srt); [|reflexivity].
  destruct (studio_remove W _ srt) as [[]|e]; now rewrite <- app_assoc.
Qed.

Lemma add_subtitles_unfold v subs t u h srt :
  subs <> [] ->
  generate_srt W (h ++ [RUuid4])%list subs t = Ok srt ->
  _add_subtitles W v subs t u h
  = try_finally
      (try_except
         (render W v srt
            (Fonts.path_join (studio_output_folder W) (studio_uuid4 W h ++ ".mp4")) t u)
         (render_except W v srt
            (Fonts.path_join (studio_output_folder W) (studio_uuid4 W h ++ ".mp4"))))
      (render_finally W srt) (h ++ [RUuid4; RGenerateSrt subs t])%list.
Proof.
  intros Hne Hsrt. unfold _add_subtitles.
  destruct subs as [|seg subs]; [contradiction|].
  unfold bind at 1, call at 1. unfold bind at 1, call at 1.
  rewrite Hsrt, <- app_assoc. reflexivity.
Qed.

(** All runs of [_add_subtitles] on subtitles that are not empty. *)
Lemma add_subtitles_runs v subs t u h r h1 :
  subs <> [] ->
  _add_subtitles W v subs t u h = (r, h1) ->
  let h0 := (h ++ [RUuid4; RGenerateSrt subs t])%list in
  let out := Fonts.path_join (studio_output_folder W) (studio_uuid4 W h ++ ".mp4") in
  match generate_srt W (h ++ [RUuid4])%list subs t with
  | Raise e => r = Raise e /\ h1 = h0
  | Ok srt =>
      exists calls,
        rendering v srt out h0 r calls
        /\ h1 = (h0 ++ calls
                    ++ RPathExists srt
                       :: (if studio_path_exists W (h0 ++ calls) srt
                           then [RRemove srt] else []))%list
  end.
Proof.
  intros Hne H h0 out. unfold _add_subtitles in H.
  destruct subs as [|seg subs]; [contradiction|].
  unfold bind at 1, call at 1 in H. unfold bind at 1, call at 1 in H.
  fold out in H.
  assert (E0 : ((h ++ [RUuid4]) ++ [RGenerateSrt (seg :: subs) t])%list = h0)
    by (subst h0; now rewrite <- app_assoc).
  rewrite E0 in H.
  destruct (generate_srt W (h ++ [RUuid4])%list (seg :: subs) t) as [srt|e].
  2:{ now injection H as <- <-. }
  unfold try_finally in H.
  destruct (try_except _ _ h0) as [r0 h'] eqn:Et. apply try_except_runs in Et.
  destruct Et as (calls & Hr & ->).
  rewrite finally_runs in H. injection H as <- <-.
  exists calls. split; [exact Hr|]. now rewrite <- app_assoc.
Qed.


(** *** The regeneration stream *)

(** Every call that the computation adds to the history satisfies [ok]. *)
Definition ronly {A} (ok : REvent -> bool) (m : R A) : Prop :=
  forall h r h1, m h = (r, h1) ->
    exists calls, h1 = (h ++ calls)%list /\ forallb ok calls = true.

Lemma ronly_pure {A} ok (m : R A) :
  (forall h, snd (m h) = h) -> ronly ok m.
Proof.
  intros Hm h r h1 H. exists []. rewrite app_nil_r. split; [|reflexivity].
  specialize (Hm h). now rewrite H in Hm.
Qed.

Lemma ronly_call {A} (ok : REvent -> bool) ev (f : RHistory -> res A) :
  ok ev = true -> ronly ok (call ev f).
Proof.
  intros Hev h r h1 H. apply rcall_inv in H. destruct H as [_ ->].
  exists [ev]. split; [reflexivity|]. cbn. now rewrite Hev.
Qed.

Lemma ronly_bind {A B} ok (m : R A) (k : A -> R B) :
  ronly ok m -> (forall a, ronly ok (k a)) -> ronly ok (bind m k).
Proof.
  intros Hm Hk h r h1 H. apply rbind_inv in H.
  destruct H as [(a & h' & H1 & H2) | (e & H1 & _)].
  - destruct (Hm _ _ _ H1) as (c1 & -> & F1). destruct (Hk a _ _ _ H2) as (c2 & -> & F2).
    exists (c1 ++ c2)%list. rewrite <- app_assoc. split; [reflexivity|].
    rewrite forallb_app. now rewrite F1, F2.
  - eapply Hm, H1.
Qed.

Lemma ronly_try_except {A} ok (m : R A) (handler : exn -> R A) :
  ronly ok m -> (forall e, ronly ok (handler e)) -> ronly ok (try_except m handler).
Proof.
  intros Hm Hh h r h1 H. unfold try_except in H.
  destruct (m h) as [[a|e] h'] eqn:E; destruct (Hm _ _ _ E) as (c1 & -> & F1).
  - injection H as <- <-. eauto.
  - destruct (Hh e _ _ _ H) as (c2 & -> & F2).
    exists (c1 ++ c2)%list. rewrite <- app_assoc. split; [reflexivity|].
    rewrite forallb_app. now rewrite F1, F2.
Qed.

(** The calls of the rendering itself. *)
Definition is_rendering_call (ev : REvent) : bool :=
  match ev with
  | RUuid4 | RProbe _ | RRun _ => true
  | _ => false
  end.

Lemma burn_calls v srt t size : ronly is_rendering_call (_burn_subtitles W v srt t size).
Proof.
  unfold _burn_subtitles.
  apply ronly_try_except; [|intros e; now apply ronly_pure].
  repeat first
    [ apply ronly_call; reflexivity
    | now apply ronly_pure
    | apply ronly_bind; [|intros ?]
    | cbv zeta ].
Qed.

(** The messages of a history, in order. *)
Fixpoint messages (h : RHistory) : list JDict :=
  match h with
  | [] => []
  | RYield message :: rest => message :: messages rest
  | _ :: rest => messages rest
  end.

Lemma messages_app h1 h2 : messages (h1 ++ h2)%list = (messages h1 ++ messages h2)%list.
Proof.
  induction h1 as [|ev h1 IH]; [reflexivity|].
  destruct ev; cbn [messages app]; now rewrite IH.
Qed.

Lemma messages_rendering calls :
  forallb is_rendering_call calls = true -> messages calls = [].
Proof.
  induction calls as [|ev calls IH]; [reflexivity|].
  cbn [forallb]. intros H. apply andb_prop in H as [H1 H2].
  destruct ev; try discriminate H1; cbn [messages]; auto.
Qed.

Definition is_cleanup_call (ev : REvent) : bool :=
  match ev with
  | RPathExists _ | RRemove _ => true
  | _ => false
  end.

Lemma regenerate_finally_runs srt h :
  regenerate_finally W srt h
  = (Ok tt,
     (h ++ match srt with
           | Some (String c p) =>
               RPathExists (String c p)
                 :: (if studio_path_exists W h (String c p)
                     then [RRemove (String c p)] else [])
           | _ => []
           end)%list).
Proof.
  unfold regenerate_finally.
  destruct srt as [[|c p]|]; try (unfold ret; now rewrite app_nil_r).
  unfold bind, call, try_except, ret.
  destruct (studio_path_exists W h (String c p)); [|reflexivity].
  destruct (studio_remove W _ (String c p)) as [[]|e]; now rewrite <- app_assoc.
Qed.

Lemma messages_cleanup hh srt :
  messages match srt with
           | Some (String c p) =>
               RPathExists (String c p)
                 :: (if studio_path_exists W hh (String c p)
                     then [RRemove (String c p)] else [])
           | _ => []
           end = [].
Proof.
  destruct srt as [[|c p]|]; try reflexivity.
  now destruct (studio_path_exists W hh (String c p)).
Qed.

Definition step_message (step : string) (progress : Z) : JDict :=
  [("step", JStr step); ("progress", JInt progress)].

(** The runs of the [try] block of [generate] with its handler, once the
    subtitle file is written. *)
Lemma regenerate_try_runs vid v segs t size srt h r h1 :
  try_except
    (bind (yield (step_message "Processing video" 60)) (fun _ =>
     bind (_burn_subtitles W v srt t size) (fun output_path =>
     bind (yield (step_message "Finalizing" 90)) (fun _ =>
     bind (call (RUpdateOutputPath vid output_path segs)
             (fun h => record_output_path W h vid output_path segs)) (fun _ =>
     yield [ ("step", JStr "Completed"); ("progress", JInt 100);
             ("output_path", JStr output_path); ("segments", JSegments segs) ])))))
    (fun e => yield (error_message e)) h = (r, h1) ->
  r = Ok tt
  /\ exists calls,
       h1 = (h ++ calls)%list
       /\ forallb (fun ev => negb (is_cleanup_call ev)) calls = true
       /\ ((exists e, messages calls
                      = [step_message "Processing video" 60; error_message e])
           \/ (exists e, messages calls
                         = [ step_message "Processing video" 60;
                             step_message "Finalizing" 90; error_message e ])
           \/ (exists out h',
                 messages calls
                 = [ step_message "Processing video" 60; step_message "Finalizing" 90;
                     [ ("step", JStr "Completed"); ("progress", JInt 100);
                       ("output_path", JStr out); ("segments", JSegments segs) ] ]
                 /\ record_output_path W h' vid out segs = Ok tt
                 /\ In (RUpdateOutputPath vid out segs) calls)).
Proof.
  unfold try_except, yield at 1, bind at 1, call at 1.
  destruct (_burn_subtitles W v srt t size (h ++ [RYield (step_message "Processing video" 60)])%list)
    as [rb hb] eqn:Eb.
  destruct (burn_calls _ _ _ _ _ _ _ Eb) as (cb & -> & Fb).
  assert (Hcb : forallb (fun ev => negb (is_cleanup_call ev)) cb = true).
  { rewrite forallb_forall in Fb |- *. intros ev Hin. specialize (Fb ev Hin).
    now destruct ev. }
  unfold bind at 1. rewrite Eb.
  destruct rb as [out|e].
  - unfold yield at 1, bind at 1, call at 1. unfold bind at 1, call at 1.
    destruct (record_output_path W _ vid out segs) as [[]|e] eqn:Eu.
    + unfold yield, call. intros [= <- <-]. split; [reflexivity|].
      eexists (_ :: cb ++ [_; _; _])%list. split; [|split].
      * rewrite <- !app_assoc. reflexivity.
      * cbn [forallb]. rewrite forallb_app, Hcb. reflexivity.
      * right. right. exists out. eexists. split; [|split; [exact Eu|]].
        -- cbn [messages]. rewrite messages_app, (messages_rendering _ Fb). reflexivity.
        -- right. apply in_or_app. right. right. now left.
    + unfold yield, call. intros [= <- <-]. split; [reflexivity|].
      eexists (_ :: cb ++ [_; _; _])%list. split; [|split].
      * rewrite <- !app_assoc. reflexivity.
      * cbn [forallb]. rewrite forallb_app, Hcb. reflexivity.
      * right. left. exists e.
        cbn [messages]. rewrite messages_app, (messages_rendering _ Fb). reflexivity.
  - unfold yield, call. intros [= <- <-]. split; [reflexivity|].
    eexists (_ :: cb ++ [_])%list. split; [|split].
    + rewrite <- !app_assoc. reflexivity.
    + cbn [forallb]. rewrite forallb_app, Hcb. reflexivity.
    + left. exists e.
      cbn [messages]. rewrite messages_app, (messages_rendering _ Fb). reflexivity.
Qed.

End RenderFacts.

(** A studio to run the render stage in: the video is 1920 by 1080, the
    fonts are there, and the first rendering fails in [ffmpeg]. *)
Module RenderFixtures.
Import Render.

Definition landscape : list Stream :=
  [ {| codec_type := Some "audio"; stream_width := None; stream_height := None |};
    {| codec_type := Some "video"; stream_width := Some 1920%Z;
       stream_height := Some 1080%Z |} ].

Definition studio (streams : list Stream) : Studio :=
  {| studio_output_folder := "/app/uploads/output";
     studio_here := "/app/utils";
     studio_uuid4 := fun _ => "00000000-0000-4000-8000-000000000000";
     generate_srt := fun _ _ _ => Ok "/app/uploads/output/subs.srt";
     ffmpeg_probe := fun _ _ => Ok streams;
     ffmpeg_run := fun _ _ =>
       Raise (Exn (FFmpegError (Utf8 "Invalid filter"))
                "ffmpeg error (see stderr output for detail)");
     ffmpeg_fallback_run := fun _ _ _ _ => Ok tt;
     studio_path_exists := fun _ _ => true;
     studio_remove := fun _ _ => Ok tt;
     record_output_path := fun _ _ _ _ => Ok tt |}.

Definition subtitle : Segment :=
  {| seg_start := 0%float; seg_end := 2%float; seg_text := "Bonjour" |}.

(** The same studio, where the bytes that [ffmpeg] has written to its
    [stderr] are no UTF-8. *)
Definition garbled : Studio :=
  {| studio_output_folder := studio_output_folder (studio landscape);
     studio_here := studio_here (studio landscape);
     studio_uuid4 := studio_uuid4 (studio landscape);
     generate_srt := generate_srt (studio landscape);
     ffmpeg_probe := ffmpeg_probe (studio landscape);
     ffmpeg_run := fun _ _ =>
       Raise (Exn (FFmpegError
                     (NotUtf8 "'utf-8' codec can't decode byte 0xff in position 0: invalid start byte"))
                "ffmpeg error (see stderr output for detail)");
     ffmpeg_fallback_run := ffmpeg_fallback_run (studio landscape);
     studio_path_exists := studio_path_exists (studio landscape);
     studio_remove := studio_remove (studio landscape);
     record_output_path := record_output_path (studio landscape) |}.

(** A probe that reports a frame of height 0. *)
Definition flat : list Stream :=
  [ {| codec_type := Some "video"; stream_width := Some 1920%Z;
       stream_height := Some 0%Z |} ].

End RenderFixtures.

(** [_add_subtitles] on no subtitles raises [ValueError] and does nothing.
    Otherwise, when [_generate_srt] raises, that exception leaves and
    nothing else is done; and when it has written the subtitle file, every
    run, whether it returns or raises, ends by checking that this file
    exists and, if so, removing it; before that it only probes and
    renders, and it removes nothing else. *)
Theorem subtitle_file_is_removed :
  forall (W : Render.Studio) (video_path : string) (subtitles : list Segment)
         (target_lang : string) (user_font_size : option Z)
         (h : Render.RHistory) (r : res string) (h1 : Render.RHistory),
    Render._add_subtitles W video_path subtitles target_lang user_font_size h = (r, h1) ->
    match subtitles with
    | [] => r = Raise (Exn ValueError "No subtitles to add") /\ h1 = h
    | _ =>
        let h0 := (h ++ [Render.RUuid4; Render.RGenerateSrt subtitles target_lang])%list in
        match Render.generate_srt W (h ++ [Render.RUuid4])%list subtitles target_lang with
        | Raise e => r = Raise e /\ h1 = h0
        | Ok srt =>
            exists calls,
              h1 = (h0 ++ calls
                      ++ Render.RPathExists srt
                         :: (if Render.studio_path_exists W (h0 ++ calls) srt
                             then [Render.RRemove srt] else []))%list
              /\ forall ev, In ev calls ->
                   match ev with
                   | Render.RProbe _ | Render.RRun _ | Render.RFallbackRun _ _ _ => True
                   | _ => False
                   end
        end
    end.
Proof.
  intros W v subs t u h r h1 H.
  destruct subs as [|seg subs]; [now injection H as <- <-|].
  pose proof (add_subtitles_runs W v (seg :: subs) t u h r h1 ltac:(discriminate) H) as Hr.
  cbv zeta in Hr |- *.
  destruct (Render.generate_srt W (h ++ [Render.RUuid4])%list (seg :: subs) t) as [srt|e];
    [|exact Hr].
  destruct Hr as (calls & Hc & ->). exists calls. split; [reflexivity|].
  intros ev Hin. destruct Hc; cbn in Hin; intuition (subst; exact I).
Qed.

Lemma subtitle_file_is_removed_witness :
  let run := Render._add_subtitles (RenderFixtures.studio RenderFixtures.landscape)
               "/app/uploads/clip.mp4" [RenderFixtures.subtitle] "fr" None [] in
  exists calls,
    snd run
    = ([Render.RUuid4; Render.RGenerateSrt [RenderFixtures.subtitle] "fr"] ++ calls
         ++ [ Render.RPathExists "/app/uploads/output/subs.srt";
              Render.RRemove "/app/uploads/output/subs.srt" ])%list.
Proof.
  intros run.
  pose proof (subtitle_file_is_removed (RenderFixtures.studio RenderFixtures.landscape)
                "/app/uploads/clip.mp4" [RenderFixtures.subtitle] "fr" None []
                (fst run) (snd run) (surjective_pairing _)) as H.
  cbn [RenderFixtures.studio Render.generate_srt Render.studio_path_exists] in H.
  destruct H as (calls & H & _). exists calls. exact H.
Defined.



(** When the [stderr] of the failed rendering does not decode, the stage
    raises the [UnicodeDecodeError] and tries no fallback; the subtitle
    file is removed. *)
Example undecodable_stderr_stops_the_stage :
  exists graph,
    Render._add_subtitles RenderFixtures.garbled "/app/uploads/clip.mp4"
      [RenderFixtures.subtitle] "fr" None []
    = (Raise (Exn UnicodeDecodeError
                "'utf-8' codec can't decode byte 0xff in position 0: invalid start byte"),
       [ Render.RUuid4; Render.RGenerateSrt [RenderFixtures.subtitle] "fr";
         Render.RProbe "/app/uploads/clip.mp4"; Render.RRun graph;
         Render.RPathExists "/app/uploads/output/subs.srt";
         Render.RRemove "/app/uploads/output/subs.srt" ]).
Proof. eexists. vm_compute. reflexivity. Qed.

(** A video whose probe reports the height 0 is never rendered: the layout
    falls back to its default, but the stage then raises, with
    [FileNotFoundError] when the font is missing and with
    [ZeroDivisionError] otherwise, and makes no rendering call, neither
    the first nor the fallback; the subtitle file is cleaned up. *)
Theorem zero_height_is_not_rendered :
  forall (W : Render.Studio) (video_path : string) (subtitles : list Segment)
         (target_lang : string) (user_font_size : option Z)
         (h : Render.RHistory) (r : res string) (h1 : Render.RHistory)
         (srt : string) (streams : list Render.Stream) (s : Render.Stream) (width : Z),
    subtitles <> [] ->
    Render._add_subtitles W video_path subtitles target_lang user_font_size h = (r, h1) ->
    Render.generate_srt W (h ++ [Render.RUuid4])%list subtitles target_lang = Ok srt ->
    let h0 := (h ++ [Render.RUuid4; Render.RGenerateSrt subtitles target_lang])%list in
    Render.ffmpeg_probe W h0 video_path = Ok streams ->
    Render.first_video_stream streams = Ok s ->
    Render.stream_width s = Some width ->
    Render.stream_height s = Some 0%Z ->
    (exists e, r = Raise e
               /\ (exn_class e = ZeroDivisionError \/ exn_class e = FileNotFoundError))
    /\ exists cleanup,
         h1 = (h0 ++ [Render.RProbe video_path] ++ cleanup)%list
         /\ forall ev, In ev cleanup ->
              ev = Render.RPathExists srt \/ ev = Render.RRemove srt.
Proof.
  intros W v subs t u h r h1 srt streams s width Hne H Hsrt h0 Hprobe Hfirst Hw Hh.
  assert (Hrender : exists e,
             Render.render W v srt
               (Fonts.path_join (Render.studio_output_folder W)
                  (Render.studio_uuid4 W h ++ ".mp4")) t u h0
             = (Raise e, (h0 ++ [Render.RProbe v])%list)
             /\ (exn_class e = ZeroDivisionError \/ exn_class e = FileNotFoundError)).
  { unfold Render.render, Render.bind at 1, Render.call. rewrite Hprobe.
    unfold Render.bind at 1, Render.lift at 1. rewrite Hfirst.
    unfold Render.bind at 1, Render.lift at 1. rewrite Hw. cbn [Render.item].
    unfold Render.bind at 1, Render.lift at 1. rewrite Hh. cbn [Render.item].
    cbv zeta. unfold Render.bind at 1.
    destruct (Fonts.get_font_path _ _ t) as [font|e] eqn:Ef.
    - unfold Render.bind at 1, Render.lift at 1.
      change (Layout.int_truediv width 0)
        with (@Raise float (Exn ZeroDivisionError "division by zero")).
      eexists. split; [reflexivity | now left].
    - eexists. split; [reflexivity|]. right.
      unfold Fonts.get_font_path in Ef.
      repeat match type of Ef with
             | (if ?b then _ else _) = _ => destruct b
             end; try discriminate Ef; now injection Ef as <-. }
  destruct Hrender as (e & Hrender & Hclass).
  assert (Hplain : is_ffmpeg_error e = false)
    by (unfold is_ffmpeg_error; destruct Hclass as [E | E]; now rewrite E).
  rewrite (add_subtitles_unfold W v subs t u h srt Hne Hsrt) in H. fold h0 in H.
  unfold Render.try_finally, Render.try_except in H.
  rewrite Hrender, (except_plain W _ _ _ _ _ Hplain), finally_runs in H.
  injection H as <- <-. split; [eauto|].
  eexists. split; [rewrite <- app_assoc; reflexivity|].
  intros ev [<- | Hin]; [now left|].
  destruct (Render.studio_path_exists W _ srt); [|destruct Hin].
  destruct Hin as [<- | []]. now right.
Qed.

Lemma zero_height_is_not_rendered_witness :
  let run := Render._add_subtitles (RenderFixtures.studio RenderFixtures.flat)
               "/app/uploads/clip.mp4" [RenderFixtures.subtitle] "fr" None [] in
  exists e, fst run = Raise e /\ exn_class e = ZeroDivisionError.
Proof.
  intros run.
  destruct (zero_height_is_not_rendered (RenderFixtures.studio RenderFixtures.flat)
              "/app/uploads/clip.mp4" [RenderFixtures.subtitle] "fr" None []
              (fst run) (snd run) "/app/uploads/output/subs.srt" RenderFixtures.flat
              {| Render.codec_type := Some "video"; Render.stream_width := Some 1920%Z;
                 Render.stream_height := Some 0%Z |} 1920%Z
              ltac:(discriminate) (surjective_pairing _) eq_refl eq_refl eq_refl eq_refl
              eq_refl)
    as ((e & Hr & Hc) & _).
  exists e. split; [exact Hr|].
  assert (E : fst run = Raise (Exn ZeroDivisionError "division by zero"))
    by (vm_compute; reflexivity).
  rewrite E in Hr. now injection Hr as <-.
Defined.

(** The stream of [regenerate_video] never raises and always ends with a
    last message, which the answers of its collaborators determine.  It
    reports 30; when [_generate_srt] raises [e] it closes with [str(e)]
    and progress -1.  Otherwise it reports 60; when [_burn_subtitles]
    raises [e] it closes with [str(e)] and -1.  Otherwise it reports 90;
    when the record store raises [e] on the new output path it closes with
    [str(e)] and -1, and when the store has taken the path and the
    segments it closes with ["Completed"], progress 100, that path and
    those segments.  The error text is [str(e)] of the very exception that
    stopped the run; for an [ffmpeg.Error] this is the fixed text of the
    class and not the text of [stderr]. *)
Theorem regeneration_ends_with_completed_or_error :
  forall (W : Render.Studio) (video_id original_path : string)
         (segments : list Segment) (target_lang : string) (font_size : Z)
         (h : Render.RHistory),
    let reported := step_message "Generating subtitles" 30 in
    let processing := step_message "Processing video" 60 in
    let finalizing := step_message "Finalizing" 90 in
    let h0 := (h ++ [Render.RYield reported])%list in
    exists h1 calls,
      Render.regenerate W video_id original_path segments target_lang font_size h
      = (Ok tt, h1)
      /\ h1 = (h ++ calls)%list
      /\ match Render.generate_srt W h0 segments target_lang with
         | Raise e => messages calls = [reported; Render.error_message e]
         | Ok srt =>
             match Render._burn_subtitles W original_path srt target_lang font_size
                     (h0 ++ [ Render.RGenerateSrt segments target_lang;
                              Render.RYield processing ])%list with
             | (Raise e, _) =>
                 messages calls = [reported; processing; Render.error_message e]
             | (Ok out, h3) =>
                 match Render.record_output_path W (h3 ++ [Render.RYield finalizing])%list
                         video_id out segments with
                 | Raise e =>
                     messages calls
                     = [reported; processing; finalizing; Render.error_message e]
                 | Ok _ =>
                     messages calls
                     = [ reported; processing; finalizing;
                         [ ("step", JStr "Completed"); ("progress", JInt 100);
                           ("output_path", JStr out);
                           ("segments", JSegments segments) ] ]
                     /\ In (Render.RUpdateOutputPath video_id out segments) calls
                 end
             end
         end.
Proof.
  intros W vid v segs t size h. cbv zeta. unfold step_message.
  unfold Render.regenerate, Render.yield at 1, Render.bind at 1, Render.call at 1 2.
  destruct (Render.generate_srt W _ segs t) as [srt|e].
  - unfold Render.try_finally, Render.try_except.
    unfold Render.yield at 1, Render.bind at 1, Render.call at 1.
    rewrite <- (app_assoc _ [_] [_]). cbn [app].
    unfold Render.bind at 1.
    destruct (Render._burn_subtitles W v srt t size _) as [rb hb] eqn:Eb.
    destruct (burn_calls W _ _ _ _ _ _ _ Eb) as (cb & -> & Fb).
    pose proof (messages_rendering _ Fb) as Mb.
    destruct rb as [out|e].
    + unfold Render.yield at 1, Render.bind at 1, Render.call at 1.
      unfold Render.bind at 1, Render.call at 1.
      destruct (Render.record_output_path W _ vid out segs) as [[]|e].
      * unfold Render.yield, Render.call. rewrite regenerate_finally_runs.
        eexists _, (_ :: _ :: _ :: cb ++ _ :: _ :: _ :: _)%list.
        split; [reflexivity|]. split.
        { rewrite <- !app_assoc. cbn [app]. reflexivity. }
        split.
        -- cbn [messages]. rewrite messages_app, Mb. cbn [app messages].
           now rewrite (messages_cleanup W _ (Some srt)).
        -- do 3 right. apply in_or_app. right. right. now left.
      * unfold Render.yield, Render.call. rewrite regenerate_finally_runs.
        eexists _, (_ :: _ :: _ :: cb ++ _ :: _ :: _ :: _)%list.
        split; [reflexivity|]. split.
        { rewrite <- !app_assoc. cbn [app]. reflexivity. }
        cbn [messages]. rewrite messages_app, Mb. cbn [app messages].
        now rewrite (messages_cleanup W _ (Some srt)).
    + unfold Render.yield, Render.call. rewrite regenerate_finally_runs.
      eexists _, (_ :: _ :: _ :: cb ++ _ :: _)%list.
      split; [reflexivity|]. split.
      { rewrite <- !app_assoc. cbn [app]. reflexivity. }
      cbn [messages]. rewrite messages_app, Mb. cbn [app messages].
      now rewrite (messages_cleanup W _ (Some srt)).
  - unfold Render.try_finally, Render.yield, Render.call.
    rewrite regenerate_finally_runs.
    eexists _, [_; _; _]. split; [reflexivity|].
    split; [now rewrite <- !app_assoc, app_nil_r|]. reflexivity.
Qed.

(** The error text of a regeneration that [ffmpeg] has stopped is the
    fixed text of [ffmpeg.Error], whatever is in its [stderr]. *)
Example regeneration_reports_str_of_ffmpeg_error :
  messages
    (snd (Render.regenerate (RenderFixtures.studio RenderFixtures.landscape)
            "65f0c0ffee0123456789abcd" "/app/uploads/clip.mp4"
            [RenderFixtures.subtitle] "fr" 20 []))
  = [ step_message "Generating subtitles" 30; step_message "Processing video" 60;
      [ ("error", JStr "ffmpeg error (see stderr output for detail)");
        ("progress", JInt (-1)) ] ].
Proof. vm_compute. reflexivity. Qed.

(** The subtitle file that the regeneration has written is checked and, if
    it exists, removed at the end of every run, and nothing else is
    removed; when [_generate_srt] raises, nothing is checked and nothing
    is removed. *)
Theorem regeneration_removes_subtitle_file :
  forall (W : Render.Studio) (video_id original_path : string)
         (segments : list Segment) (target_lang : string) (font_size : Z)
         (h : Render.RHistory) (r : res unit) (h1 : Render.RHistory),
    Render.regenerate W video_id original_path segments target_lang font_size h
    = (r, h1) ->
    let h0 := (h ++ [Render.RYield (step_message "Generating subtitles" 30)])%list in
    exists calls,
      forallb (fun ev => negb (is_cleanup_call ev)) calls = true
      /\ match Render.generate_srt W h0 segments target_lang with
         | Ok (String c p) =>
             h1 = (h0 ++ Render.RGenerateSrt segments target_lang :: calls
                      ++ Render.RPathExists (String c p)
                         :: (if Render.studio_path_exists W
                                  (h0 ++ Render.RGenerateSrt segments target_lang :: calls)
                                  (String c p)
                             then [Render.RRemove (String c p)] else []))%list
         | _ => h1 = (h0 ++ Render.RGenerateSrt segments target_lang :: calls)%list
         end.
Proof.
  intros W vid v segs t size h r h1 H. cbv zeta. unfold step_message.
  unfold Render.regenerate, Render.yield at 1, Render.bind at 1, Render.call at 1 2 in H.
  set (h0 := (h ++ [Render.RYield _])%list) in *.
  destruct (Render.generate_srt W h0 segs t) as [srt|e].
  - unfold Render.try_finally in H.
    match type of H with
    | context [Render.try_except ?m ?hd ?s] =>
        destruct (Render.try_except m hd s) as [r' h'] eqn:E
    end.
    apply (regenerate_try_runs W vid v segs t size srt) in E.
    destruct E as (-> & calls & -> & Hc & _).
    rewrite regenerate_finally_runs in H. injection H as <- <-.
    exists calls. split; [exact Hc|].
    destruct srt as [|c p].
    + now rewrite app_nil_r, <- app_assoc.
    + rewrite <- !app_assoc. reflexivity.
  - unfold Render.try_finally, Render.yield, Render.call in H.
    rewrite regenerate_finally_runs in H. injection H as <- <-.
    exists [Render.RYield (Render.error_message e)]. split; [reflexivity|].
    now rewrite app_nil_r, <- app_assoc.
Qed.

Lemma regeneration_removes_subtitle_file_witness :
  let run := Render.regenerate (RenderFixtures.studio RenderFixtures.landscape)
               "65f0c0ffee0123456789abcd" "/app/uploads/clip.mp4"
               [RenderFixtures.subtitle] "fr" 20 [] in
  exists calls,
    snd run
    = (calls ++ [ Render.RPathExists "/app/uploads/output/subs.srt";
                  Render.RRemove "/app/uploads/output/subs.srt" ])%list.
Proof.
  intros run.
  destruct (regeneration_removes_subtitle_file
              (RenderFixtures.studio RenderFixtures.landscape)
              "65f0c0ffee0123456789abcd" "/app/uploads/clip.mp4"
              [RenderFixtures.subtitle] "fr" 20 [] (fst run) (snd run)
              (surjective_pairing _)) as (calls & _ & H).
  cbn [RenderFixtures.studio Render.generate_srt Render.studio_path_exists] in H.
  eexists (_ :: _ :: calls)%list. exact H.
Defined.
